(** * Projective homography and panorama: a shallow embedding of
    [ex1_student_solution.py] and the properties of its specification.

    Numbers.  The Python code computes in float64.  Every finite float is a
    rational, so coordinates, matrix entries and thresholds are values of [Q];
    arithmetic is taken exact (no rounding), integers are unbounded, and the
    results of a division by zero (inf, nan) are tracked explicitly wherever
    the code divides.  Norms are square roots: a value [Sqrt q] stands for
    the real number whose square is [q], and comparisons on it are decided on
    the squares.  The rounding of float64 can move a truncated quotient by
    one: where a property is about the cells that the warpers write or
    about the points that the backward mapping asks for, the computation
    of those integers is a parameter ([Warp], [Backward]), so that the
    property holds of the code whatever the rounding is.

    Arrays.  A 2xN array of points is the list of its N columns; a matrix is
    the list of its rows; an image carries its shape and its rows of pixels.

    Exceptions.  A Python function that can raise returns a [result]. *)

From Stdlib Require Import ZArith QArith Qabs Qround Lia Lqa List Bool.
From stdpp Require Import base list.
Import ListNotations.

(** ** Exceptions *)

Inductive exn : Set :=
| ValueError | IndexError | ZeroDivisionError | OverflowError | UnboundLocalError.

Inductive result (A : Type) : Type :=
| Ok (a : A)
| Raise (e : exn).
Arguments Ok {A} a.
Arguments Raise {A} e.

Definition rbind {A B} (r : result A) (k : A -> result B) : result B :=
  match r with
  | Ok a => k a
  | Raise e => Raise e
  end.

Notation "'do' x <- r ; k" := (rbind r (fun x => k))
  (at level 10, x pattern, r at level 100, k at level 200).

(** A [for] loop whose body can raise: the state is threaded through the
    iterations and the first exception ends the loop. *)
Fixpoint for_each {A S} (body : S -> A -> result S) (xs : list A) (s : S) : result S :=
  match xs with
  | [] => Ok s
  | x :: xs' => do s' <- body s x; for_each body xs' s'
  end.

(** ** Numbers *)

(** [int(x)] and [.astype(int)] on a finite float: truncation toward zero. *)
Definition Qtrunc (q : Q) : Z := Z.quot (Qnum q) (Zpos (Qden q)).

Definition Qsq (q : Q) : Q := (q * q)%Q.

Definition Qltb (a b : Q) : bool := negb (Qle_bool b a).

Definition Qeqb (a b : Q) : bool := Qeq_bool a b.

(** The values that [dist_mse] and [mse_value] take: a rational (the Python
    ints [10 ** 9] and [10 ** 9 + 1]), the square root of a rational (what
    [np.linalg.norm] returns) or nan. *)
Inductive num : Type :=
| Rat (q : Q)
| Sqrt (q : Q)
| NaN.

(** [a < b]; every comparison with nan is false. *)
Definition num_ltb (a b : num) : bool :=
  match a, b with
  | Rat x, Rat y => Qltb x y
  | Sqrt x, Rat y => Qltb 0 y && Qltb x (Qsq y)
  | Rat x, Sqrt y => Qltb x 0 || Qltb (Qsq x) y
  | Sqrt x, Sqrt y => Qltb x y
  | _, _ => false
  end.

Definition num_nonneg (a : num) : Prop :=
  match a with
  | Rat x => (0 <= x)%Q
  | Sqrt x => (0 <= x)%Q
  | NaN => False
  end.

(** A float64 that may be infinite or nan.  Inputs are rationals, so a zero
    divisor is the float [+0.0]: [a / 0] is inf with the sign of [a], and
    [0 / 0] is nan. *)
Inductive ext : Type :=
| Fin (q : Q)
| PInf
| NInf
| ENaN.

Definition ext_div (a b : Q) : ext :=
  if Qeqb b 0 then
    if Qltb 0 a then PInf else if Qltb a 0 then NInf else ENaN
  else Fin (a / b).

Definition ext_ltb (a b : ext) : bool :=
  match a, b with
  | ENaN, _ | _, ENaN => false
  | Fin x, Fin y => Qltb x y
  | Fin _, PInf => true
  | Fin _, NInf => false
  | PInf, _ => false
  | NInf, NInf => false
  | NInf, _ => true
  end.

Definition ext_abs (a : ext) : ext :=
  match a with
  | Fin x => Fin (Qabs x)
  | PInf | NInf => PInf
  | ENaN => ENaN
  end.

Definition ext_add (a b : ext) : ext :=
  match a, b with
  | ENaN, _ | _, ENaN => ENaN
  | Fin x, Fin y => Fin (x + y)
  | PInf, NInf | NInf, PInf => ENaN
  | PInf, _ | _, PInf => PInf
  | NInf, _ | _, NInf => NInf
  end.

Definition ext_opp (a : ext) : ext :=
  match a with
  | Fin x => Fin (- x)
  | PInf => NInf
  | NInf => PInf
  | ENaN => ENaN
  end.

Definition ext_sub (a b : ext) : ext := ext_add a (ext_opp b).

(** Python's [max([a, b])]: the first of the largest. *)
Definition py_max (a b : ext) : ext := if ext_ltb a b then b else a.

(** Python's [int(x)] on a float. *)
Definition ext_int (a : ext) : result Z :=
  match a with
  | Fin x => Ok (Qtrunc x)
  | PInf | NInf => Raise OverflowError
  | ENaN => Raise ValueError
  end.

(** ** Points, vectors and matrices *)

Definition point : Type := Q * Q.
Definition vec3 : Type := Q * Q * Q.
Definition Homography : Type := vec3 * vec3 * vec3.
Abbreviation matrix := (list (list Q)).

(** [np.dot(homography, v)] for one column [v]. *)
Definition dot3 (r v : vec3) : Q :=
  let '(a, b, c) := r in
  let '(x, y, z) := v in
  (a * x + b * y + c * z)%Q.

Definition mat_vec (H : Homography) (v : vec3) : vec3 :=
  let '(r0, r1, r2) := H in (dot3 r0 v, dot3 r1 v, dot3 r2 v).

(** [np.reshape(v, (3, 3))]: row-major, and a [ValueError] unless [v] has
    nine entries. *)
Definition reshape33 (v : list Q) : result Homography :=
  match v with
  | [a; b; c; d; e; f; g; h; i] => Ok ((a, b, c), (d, e, f), (g, h, i))
  | _ => Raise ValueError
  end.

(** [m[:, idxs]]: the selected columns, in the order of [idxs]. *)
Fixpoint take_columns {A} (m : list A) (idxs : list nat) : result (list A) :=
  match idxs with
  | [] => Ok []
  | i :: rest =>
      match m !! i with
      | Some c => do cs <- take_columns m rest; Ok (c :: cs)
      | None => Raise IndexError
      end
  end.

(** ** [compute_homography_naive] *)

Module Naive.

(** [np.hstack((s, zeros(3), -s * u))] for [s = [x, y, 1]] and [u] the
    destination's first coordinate. *)
Definition x_row (s d : point) : list Q :=
  let '(x, y) := s in
  let u := fst d in
  [x; y; 1; 0; 0; 0; - x * u; - y * u; - 1 * u]%Q.

Definition y_row (s d : point) : list Q :=
  let '(x, y) := s in
  let v := snd d in
  [0; 0; 0; x; y; 1; - x * v; - y * v; - 1 * v]%Q.

(** [ref_mat[r, :] = row] *)
Definition set_row (ref_mat : matrix) (r : nat) (row : list Q) : matrix :=
  <[r := row]> ref_mat.

(** [ref_mat[r:, :] = row]: the row is broadcast over every row from [r] on. *)
Definition set_rows_from (ref_mat : matrix) (r : nat) (row : list Q) : matrix :=
  take r ref_mat ++ replicate (length ref_mat - r) row.

(** The body of [for i in range(0, N_size)]. *)
Definition loop_body (src dst : list point) (ref_mat : matrix) (i : nat) : result matrix :=
  match src !! i, dst !! i with
  | Some s, Some d =>
      let ref_mat1 := set_row ref_mat (2 * i) (x_row s d) in
      Ok (set_rows_from ref_mat1 (2 * i + 1) (y_row s d))
  | _, _ => Raise IndexError
  end.

(** The matrix handed to [np.linalg.svd].  [np.vstack] raises a
    [ValueError] when the two arrays do not have [N_size] columns each. *)
Definition build_ref_mat (match_p_src match_p_dst : list point) : result matrix :=
  let N_size := length match_p_dst in
  if negb (length match_p_src =? N_size)%nat then Raise ValueError
  else
    let ref_mat := replicate (2 * N_size) (replicate 9 0%Q) in
    for_each (loop_body match_p_src match_p_dst) (seq 0 N_size) ref_mat.

(** The design matrix as the specification words it: for correspondence [i]
    one x-row and one y-row, stacked in order. *)
Definition design_matrix_spec (src dst : list point) : matrix :=
  concat (zip_with (fun s d => [x_row s d; y_row s d]) src dst).

Section WithSvd.

(** [np.linalg.svd] is an external service; [svd_Vh ref_mat] is the third
    component [V] of its result, whose rows are the right singular vectors
    in the order of descending singular values. *)
Variable svd_Vh : matrix -> matrix.

(** [V[-1]] *)
Definition last_row (V : matrix) : result (list Q) :=
  match last V with
  | Some v => Ok v
  | None => Raise IndexError
  end.

Definition compute_homography_naive (match_p_src match_p_dst : list point)
  : result Homography :=
  do ref_mat <- build_ref_mat match_p_src match_p_dst;
  do v <- last_row (svd_Vh ref_mat);
  reshape33 v.

End WithSvd.

End Naive.

(** ** The correspondence scorer *)

Module Scorer.

(** A column of [np.vstack((match_p, np.ones(N_size))).astype(np.int)]:
    the cast truncates every coordinate toward zero. *)
Definition int_column (p : point) : vec3 :=
  (inject_Z (Qtrunc (fst p)), inject_Z (Qtrunc (snd p)), inject_Z (Qtrunc 1)).

(** A column of [(1 / src_vector_h[2]) * src_vector_h].  When the third
    coordinate is zero, [1 / 0] is inf and the third entry [inf * 0] is nan:
    [None] stands for such a column. *)
Definition normalize (h : vec3) : option vec3 :=
  let '(h0, h1, h2) := h in
  if Qeqb h2 0 then None
  else Some ((1 / h2) * h0, (1 / h2) * h1, (1 / h2) * h2)%Q.

Definition sum_squares (a b : vec3) : Q :=
  let '(a0, a1, a2) := a in
  let '(b0, b1, b2) := b in
  (Qsq (a0 - b0) + Qsq (a1 - b1) + Qsq (a2 - b2))%Q.

(** [np.linalg.norm(src_vector_norm[:, i] - dst_vector[:, i])] *)
Definition column_error (s : option vec3) (d : vec3) : num :=
  match s with
  | Some v => Sqrt (sum_squares v d)
  | None => NaN
  end.

(** [np.linalg.norm] of a matrix given by its columns (the Frobenius norm). *)
Fixpoint frobenius_sq (cols : list (option vec3 * vec3)) : option Q :=
  match cols with
  | [] => Some 0%Q
  | (Some v, d) :: rest =>
      match frobenius_sq rest with
      | Some q => Some (sum_squares v d + q)%Q
      | None => None
      end
  | (None, _) :: _ => None
  end.

Definition frobenius_norm (cols : list (option vec3 * vec3)) : num :=
  match frobenius_sq cols with
  | Some q => Sqrt q
  | None => NaN
  end.

Definition is_inlier (max_err : Q) (c : option vec3 * vec3) : bool :=
  num_ltb (column_error (fst c) (snd c)) (Rat max_err).

(** The loop [for i in range(N_size)] collecting the inlier indices. *)
Fixpoint collect_inliers (max_err : Q) (i : nat) (cols : list (option vec3 * vec3))
  : list nat :=
  match cols with
  | [] => []
  | c :: rest =>
      if is_inlier max_err c then i :: collect_inliers max_err (S i) rest
      else collect_inliers max_err (S i) rest
  end.

Definition get_vectors_and_inliers (homography : Homography)
    (match_p_src match_p_dst : list point) (max_err : Q)
  : result (list (option vec3) * list vec3 * list nat) :=
  let N_size := length match_p_dst in
  if negb (length match_p_src =? N_size)%nat then Raise ValueError
  else
    let src_vector := map int_column match_p_src in
    let dst_vector := map int_column match_p_dst in
    let src_vector_h := map (mat_vec homography) src_vector in
    let src_vector_norm := map normalize src_vector_h in
    let inliers := collect_inliers max_err 0 (zip src_vector_norm dst_vector) in
    Ok (src_vector_norm, dst_vector, inliers).

Definition sentinel : Q := inject_Z (10 ^ 9).

Definition test_homography (homography : Homography)
    (match_p_src match_p_dst : list point) (max_err : Q) : result (Q * num) :=
  do (src_vector_norm, dst_vector, inliers) <-
    get_vectors_and_inliers homography match_p_src match_p_dst max_err;
  do dist_mse <-
    match inliers with
    | _ :: _ =>
        do s <- take_columns src_vector_norm inliers;
        do d <- take_columns dst_vector inliers;
        Ok (frobenius_norm (zip s d))
    | [] => Ok (Rat sentinel)
    end;
  let n := length match_p_src in
  if (n =? 0)%nat then Raise ZeroDivisionError
  else
    let fit_percent := (inject_Z (Z.of_nat (length inliers)) / inject_Z (Z.of_nat n))%Q in
    Ok (fit_percent, dist_mse).

Definition meet_the_model_points (homography : Homography)
    (match_p_src match_p_dst : list point) (max_err : Q)
  : result (list point * list point) :=
  do (_, _, inliers) <-
    get_vectors_and_inliers homography match_p_src match_p_dst max_err;
  do mp_src_meets_model <- take_columns match_p_src inliers;
  do mp_dst_meets_model <- take_columns match_p_dst inliers;
  Ok (mp_src_meets_model, mp_dst_meets_model).

(** The inlier rule as the specification words it: the source point, mapped
    through [H] and normalized by its third homogeneous coordinate, lies at a
    Euclidean distance from the destination point that is less than
    [max_err].  The distance is a square root, so it is compared through
    its square. *)
Definition reprojection_lt (H : Homography) (s d : point) (max_err : Q) : Prop :=
  let '(h0, h1, h2) := mat_vec H (fst s, snd s, 1%Q) in
  ~ (h2 == 0)%Q /\
  (0 < max_err)%Q /\
  (Qsq (h0 / h2 - fst d) + Qsq (h1 / h2 - snd d) < Qsq max_err)%Q.

End Scorer.

(** ** [compute_homography]: the RANSAC loop *)

Module Ransac.

Record state : Type := {
  homography : option Homography;   (* [None]: the local is not bound yet *)
  mse_value : num
}.

Definition initial_mse : Q := inject_Z (10 ^ 9 + 1).

Definition initial_state : state :=
  {| homography := None; mse_value := Rat initial_mse |}.

(** Whether an iteration satisfies step d against the state [st]: its
    candidate reached [fit_percent >= w], so that there is a refined
    homography, and the refined [dist_mse] is strictly below [mse_value]. *)
Definition accepted (st : state) (t : option (Homography * num)) : bool :=
  match t with
  | Some (_, dist_mse) => num_ltb dist_mse (mse_value st)
  | None => false
  end.

Section WithServices.

Variable svd_Vh : matrix -> matrix.

(** The value of [int(np.ceil(np.log(1 - p) / np.log(1 - w ** n))) + 1]
    for [p = 0.99] and [n = 4], as a function of [w]; [int] raises on an
    infinite or nan quotient. *)
Variable ransac_k : Q -> result Z.

(** [draw i N]: what the call [sample(range(N), 4)] of iteration [i]
    returns when the population has at least four elements. *)
Variable draw : nat -> nat -> list nat.

Definition sample (i N_size n : nat) : result (list nat) :=
  if (N_size <? n)%nat then Raise ValueError else Ok (draw i N_size).

Section Loop.

Variables match_p_src match_p_dst : list point.
Variables inliers_percent max_err : Q.

(** Steps b and c, and the re-fit of step d: the refined homography and
    its [dist_mse] when the candidate reaches [fit_percent >= w]. *)
Definition trial (i : nat) : result (option (Homography * num)) :=
  let w := inliers_percent in
  let N_size := length match_p_src in
  do random_selected_points <- sample i N_size 4;
  do src_sel <- take_columns match_p_src random_selected_points;
  do dst_sel <- take_columns match_p_dst random_selected_points;
  do computed_homography <- Naive.compute_homography_naive svd_Vh src_sel dst_sel;
  do (mp_src_meets_model, mp_dst_meets_model) <-
    Scorer.meet_the_model_points computed_homography match_p_src match_p_dst max_err;
  do (fit_percent, dist_mse) <-
    Scorer.test_homography computed_homography match_p_src match_p_dst max_err;
  if Qle_bool w fit_percent then
    do computed_homography <-
      Naive.compute_homography_naive svd_Vh mp_src_meets_model mp_dst_meets_model;
    do (fit_percent, dist_mse) <-
      Scorer.test_homography computed_homography match_p_src match_p_dst max_err;
    Ok (Some (computed_homography, dist_mse))
  else Ok None.

(** The comparison [if (dist_mse < mse_value)] and its two assignments. *)
Definition keep_best (st : state) (t : option (Homography * num)) : state :=
  match t with
  | Some (computed_homography, dist_mse) =>
      if num_ltb dist_mse (mse_value st)
      then {| homography := Some computed_homography; mse_value := dist_mse |}
      else st
  | None => st
  end.

Definition iteration (st : state) (i : nat) : result state :=
  do t <- trial i; Ok (keep_best st t).

Definition run_loop (k : Z) : result state :=
  for_each iteration (seq 0 (Z.to_nat k)) initial_state.

Definition compute_homography : result Homography :=
  do k <- ransac_k inliers_percent;
  let k := (k * 10)%Z in
  do st <- run_loop k;
  match homography st with
  | Some h => Ok h
  | None => Raise UnboundLocalError
  end.

End Loop.

End WithServices.

End Ransac.

(** ** Images *)

(** A three-dimensional numpy array: its shape (rows, columns, channels)
    and its rows of pixels, a pixel being the list of its channel values. *)
Record ndarray (A : Type) : Type := {
  shape : nat * nat * nat;
  cells : list (list (list A))
}.
Arguments shape {A} _.
Arguments cells {A} _.

Definition shape_rows (s : nat * nat * nat) : nat := fst (fst s).
Definition shape_cols (s : nat * nat * nat) : nat := snd (fst s).
Definition shape_chans (s : nat * nat * nat) : nat := snd s.

(** [np.zeros(shape)] *)
Definition zeros {A} (zero : A) (s : nat * nat * nat) : ndarray A :=
  {| shape := s;
     cells := replicate (shape_rows s) (replicate (shape_cols s) (replicate (shape_chans s) zero)) |}.

(** [a[y][x][c]] *)
Definition cell_at {A} (a : list (list (list A))) (y x c : nat) : option A :=
  match a !! y with
  | Some row =>
      match row !! x with
      | Some px => px !! c
      | None => None
      end
  | None => None
  end.

Definition pixel_at {A} (a : list (list (list A))) (y x : nat) : option (list A) :=
  match a !! y with
  | Some row => row !! x
  | None => None
  end.

(** Every row, pixel and channel list has the length the shape says. *)
Definition well_shaped {A} (a : ndarray A) : Prop :=
  length (cells a) = shape_rows (shape a) /\
  Forall (fun row =>
            length row = shape_cols (shape a) /\
            Forall (fun px => length px = shape_chans (shape a)) row) (cells a).

(** [z in range(n)] *)
Definition in_range (z : Z) (n : nat) : bool :=
  (0 <=? z)%Z && (z <? Z.of_nat n)%Z.

(** ** The forward warpers *)

Module Forward.

(** The homogeneous coordinates of the source pixel in column [col] and
    row [row]. *)
Definition pixel_point (col row : nat) : vec3 :=
  (inject_Z (Z.of_nat col), inject_Z (Z.of_nat row), 1%Q).

(** [int(a / b)] on float64 scalars: the quotient by zero is inf or nan,
    and [int] raises on both. *)
Definition int_quotient (a b : Q) : result Z :=
  ext_int (ext_div a b).

(** [dst_image[y][x][channel] = v] *)
Definition set_channel (dst : list (list (list Z))) (y x channel : nat) (v : Z)
  : list (list (list Z)) :=
  alter (alter (fun px => <[channel := v]> px) x) y dst.

(** [dst_image[y, x] = px] *)
Definition set_pixel (dst : list (list (list Z))) (y x : nat) (px : list Z)
  : list (list (list Z)) :=
  alter (fun row => <[x := px]> row) y dst.

Section Slow.

Variable homography : Homography.
Variable src_image : ndarray Z.
Variable dst_image_shape : nat * nat * nat.

(** The body of [for channel in range(dst_image_shape[2])]. *)
Definition copy_channel (y x row col : nat) (dst : list (list (list Z))) (channel : nat)
  : result (list (list (list Z))) :=
  match cell_at (cells src_image) row col channel with
  | Some v => Ok (set_channel dst y x channel v)
  | None => Raise IndexError
  end.

(** The body of [for col in range(src_image.shape[1])]. *)
Definition place_pixel (row : nat) (dst : list (list (list Z))) (col : nat)
  : result (list (list (list Z))) :=
  let '(t0, t1, t2) := mat_vec homography (pixel_point col row) in
  do n0 <- int_quotient t0 t2;
  do n1 <- int_quotient t1 t2;
  if in_range n0 (shape_cols dst_image_shape) && in_range n1 (shape_rows dst_image_shape)
  then for_each (copy_channel (Z.to_nat n1) (Z.to_nat n0) row col)
                (seq 0 (shape_chans dst_image_shape)) dst
  else Ok dst.

(** The body of [for row in range(src_image.shape[0])]. *)
Definition place_row (dst : list (list (list Z))) (row : nat)
  : result (list (list (list Z))) :=
  for_each (place_pixel row) (seq 0 (shape_cols (shape src_image))) dst.

Definition compute_forward_homography_slow : result (ndarray Z) :=
  let dst_image := zeros 0%Z dst_image_shape in
  do dst <- for_each place_row (seq 0 (shape_rows (shape src_image))) (cells dst_image);
  Ok {| shape := dst_image_shape; cells := dst |}.

End Slow.

Section Fast.

(** The int64 that [.astype(np.int)] produces for the quotient [a / 0.0],
    as a function of [a]; C leaves the cast of inf and nan undefined. *)
Variable nonfinite_as_int : Q -> Z.

Variable homography : Homography.
Variable src_image : ndarray Z.
Variable dst_image_shape : nat * nat * nat.

(** [np.indices((W, H)).reshape(2, -1)]: the columns, as (x, y) pairs;
    the first index runs slowest. *)
Definition meshgrid (W H : nat) : list (nat * nat) :=
  flat_map (fun i => map (fun j => (i, j)) (seq 0 H)) (seq 0 W).

(** [np.divide(a, b).astype(np.int)] for one entry. *)
Definition cast_quotient (a b : Q) : Z :=
  match ext_div a b with
  | Fin q => Qtrunc q
  | _ => nonfinite_as_int a
  end.

(** The normalized integer target of one meshgrid column. *)
Definition target (p : nat * nat) : Z * Z :=
  let '(t0, t1, t2) := mat_vec homography (pixel_point (fst p) (snd p)) in
  (cast_quotient t0 t2, cast_quotient t1 t2).

(** The mask of [np.where]. *)
Definition selected (p : nat * nat) : bool :=
  let '(nx, ny) := target p in
  (0 <=? nx)%Z && (nx <? Z.of_nat (shape_cols dst_image_shape))%Z &&
  (0 <=? ny)%Z && (ny <? Z.of_nat (shape_rows dst_image_shape))%Z.

(** Broadcasting one pixel of the value array to the channels of the
    target: equal lengths, or a single channel repeated. *)
Definition broadcast_pixel (px : list Z) : list Z :=
  if (shape_chans (shape src_image) =? shape_chans dst_image_shape)%nat then px
  else replicate (shape_chans dst_image_shape) (default 0%Z (px !! 0%nat)).

(** One element of the indexed assignment
    [dst_image[y_cords, x_cords] = src_image[meshgrid_image_y, meshgrid_image_x]];
    the elements are written in the order of the index arrays. *)
Definition plant (dst : list (list (list Z))) (p : nat * nat)
  : result (list (list (list Z))) :=
  let '(nx, ny) := target p in
  match pixel_at (cells src_image) (snd p) (fst p) with
  | Some px => Ok (set_pixel dst (Z.to_nat ny) (Z.to_nat nx) (broadcast_pixel px))
  | None => Raise IndexError
  end.

Definition compute_forward_homography_fast : result (ndarray Z) :=
  let dst_image := zeros 0%Z dst_image_shape in
  let meshgrid_image :=
    meshgrid (shape_cols (shape src_image)) (shape_rows (shape src_image)) in
  let selected_points := filter (fun p => selected p = true) meshgrid_image in
  let cs := shape_chans (shape src_image) in
  let cd := shape_chans dst_image_shape in
  if negb ((cs =? cd)%nat || (cs =? 1)%nat) then Raise ValueError
  else
    do dst <- for_each plant selected_points (cells dst_image);
    Ok {| shape := dst_image_shape; cells := dst |}.

End Fast.

(** The placement as the specification words it: the normalized target
    rounded to the nearest integers (ties to even, like Python's [round]). *)
Definition round_half_even (q : Q) : Z :=
  let f := Qfloor q in
  let r := (q - inject_Z f)%Q in
  if Qltb r (1 # 2) then f
  else if Qltb (1 # 2) r then (f + 1)%Z
  else if Z.even f then f else (f + 1)%Z.

Definition rounded_target (homography : Homography) (col row : nat) : Z * Z :=
  let '(t0, t1, t2) := mat_vec homography (pixel_point col row) in
  (round_half_even (t0 / t2), round_half_even (t1 / t2)).

End Forward.

(** ** [find_panorama_shape] *)

Module Geometry.

Record PadStruct : Type := {
  pad_up : Z;
  pad_down : Z;
  pad_right : Z;
  pad_left : Z
}.

(** The four running maxima of the second loop. *)
Record pads : Type := {
  up : ext;
  down : ext;
  right : ext;
  left : ext
}.

(** [src_edges], in the order the dictionary is filled and iterated. *)
Definition src_edges (src_rows_num src_cols_num : nat) : list vec3 :=
  let r := inject_Z (Z.of_nat src_rows_num) in
  let c := inject_Z (Z.of_nat src_cols_num) in
  [ (1, 1, 1); (c, 1, 1); (1, r, 1); (c, r, 1) ]%Q.

(** [homography @ corner_location], then the division by the last entry. *)
Definition transform_edge (homography : Homography) (corner : vec3) : ext * ext * ext :=
  let '(t0, t1, t2) := mat_vec homography corner in
  (ext_div t0 t2, ext_div t1 t2, ext_div t2 t2).

(** The body of the loop over [transformed_edges]. *)
Definition pad_step (dst_rows_num dst_cols_num : nat) (p : pads) (corner : ext * ext * ext)
  : pads :=
  let '(c0, c1, _) := corner in
  let rows := Fin (inject_Z (Z.of_nat dst_rows_num)) in
  let cols := Fin (inject_Z (Z.of_nat dst_cols_num)) in
  let pad_up := if ext_ltb c1 (Fin 1) then py_max (up p) (ext_abs c1) else up p in
  let pad_right := if ext_ltb cols c0 then py_max (right p) (ext_sub c0 cols) else right p in
  let pad_left := if ext_ltb c0 (Fin 1) then py_max (left p) (ext_abs c0) else left p in
  let pad_down := if ext_ltb rows c1 then py_max (down p) (ext_sub c1 rows) else down p in
  {| up := pad_up; down := pad_down; right := pad_right; left := pad_left |}.

Definition no_pads : pads :=
  {| up := Fin 0; down := Fin 0; right := Fin 0; left := Fin 0 |}.

Definition find_panorama_shape {A B} (src_image : ndarray A) (dst_image : ndarray B)
    (homography : Homography) : result (Z * Z * PadStruct) :=
  let src_rows_num := shape_rows (shape src_image) in
  let src_cols_num := shape_cols (shape src_image) in
  let dst_rows_num := shape_rows (shape dst_image) in
  let dst_cols_num := shape_cols (shape dst_image) in
  let transformed_edges :=
    map (transform_edge homography) (src_edges src_rows_num src_cols_num) in
  let p := fold_left (pad_step dst_rows_num dst_cols_num) transformed_edges no_pads in
  do panorama_cols_num <-
    ext_int (ext_add (ext_add (Fin (inject_Z (Z.of_nat dst_cols_num))) (right p)) (left p));
  do panorama_rows_num <-
    ext_int (ext_add (ext_add (Fin (inject_Z (Z.of_nat dst_rows_num))) (up p)) (down p));
  do pu <- ext_int (up p);
  do pd <- ext_int (down p);
  do pl <- ext_int (left p);
  do pr <- ext_int (right p);
  Ok (panorama_rows_num, panorama_cols_num,
      {| pad_up := pu; pad_down := pd; pad_right := pr; pad_left := pl |}).

(** What a running maximum can be: a non-negative number or +inf. *)
Definition pad_ok (e : ext) : Prop :=
  match e with
  | Fin q => (0 <= q)%Q
  | PInf => True
  | _ => False
  end.

Definition is_fin (e : ext) : Prop :=
  match e with
  | Fin _ => True
  | _ => False
  end.

Definition pads_ok (p : pads) : Prop :=
  pad_ok (up p) /\ pad_ok (down p) /\ pad_ok (right p) /\ pad_ok (left p).

Definition pads_fin (p : pads) : Prop :=
  is_fin (up p) /\ is_fin (down p) /\ is_fin (right p) /\ is_fin (left p).

End Geometry.

(** ** [panorama] *)

Module Panorama.

(** The bounds of the Python slice [start:stop] over an axis of length [dim]:
    a negative index counts from the end, and both ends are clamped. *)
Definition slice_index (i : Z) (dim : nat) : nat :=
  if (i <? 0)%Z then Z.to_nat (Z.max 0 (i + Z.of_nat dim))
  else Z.to_nat (Z.min i (Z.of_nat dim)).

Definition slice_bounds (start stop : Z) (dim : nat) : nat * nat :=
  let a := slice_index start dim in
  (a, Nat.max a (slice_index stop dim)).

(** One axis of numpy broadcasting: a value of length [v] fills a target of
    length [t] when the lengths agree or [v] is one. *)
Definition broadcastable (v t : nat) : bool := (v =? t)%nat || (v =? 1)%nat.

Definition broadcast_index (v i : nat) : nat := if (v =? 1)%nat then 0%nat else i.

(** [canvas[r0:r1, c0:c1] = value], the slice bounds already resolved. *)
Definition assign_region {A} (canvas : ndarray A) (rs cs : nat * nat) (value : ndarray A)
  : result (ndarray A) :=
  let '(r0, r1) := rs in
  let '(c0, c1) := cs in
  let '(vr, vc, vch) := shape value in
  let ch := shape_chans (shape canvas) in
  if negb (broadcastable vr (r1 - r0) && broadcastable vc (c1 - c0) && broadcastable vch ch)
  then Raise ValueError
  else
    let new_channel (i j k : nat) (old : A) : A :=
      match cell_at (cells value) (broadcast_index vr i) (broadcast_index vc j)
                    (broadcast_index vch k) with
      | Some v => v
      | None => old
      end in
    let new_cells :=
      imap (fun y row =>
              if (r0 <=? y)%nat && (y <? r1)%nat then
                imap (fun x px =>
                        if (c0 <=? x)%nat && (x <? c1)%nat
                        then imap (new_channel (y - r0) (x - c0)) px
                        else px) row
              else row) (cells canvas) in
    Ok {| shape := shape canvas; cells := new_cells |}.

Definition ndarray_map {A B} (f : A -> B) (a : ndarray A) : ndarray B :=
  {| shape := shape a; cells := map (map (map f)) (cells a) |}.

(** [np.clip(x, 0, 255)] on one entry: nan stays nan. *)
Definition clip (x : ext) : ext :=
  match x with
  | Fin q => if Qltb q 0 then Fin 0 else if Qltb 255 q then Fin 255 else Fin q
  | PInf => Fin 255
  | NInf => Fin 0
  | ENaN => ENaN
  end.

Section WithServices.

Variable svd_Vh : matrix -> matrix.
Variable ransac_k : Q -> result Z.

(** The draws of the first and of the second call of [compute_homography]. *)
Variables draw_forward draw_backward : nat -> nat -> list nat.

(** [add_translation_to_backward_homography] followed by
    [compute_backward_mapping]: the colours come from scipy's [griddata],
    an external service, which leaves nan outside the convex hull of the
    source grid.  The arguments are the backward homography, [pad_left],
    [pad_up], the source image and the canvas shape. *)
Variable backward_map_of :
  Homography -> Z -> Z -> ndarray Z -> nat * nat * nat -> result (ndarray ext).

(** The integer that the cast of nan to uint8 yields on the platform. *)
Variable nan_as_int : Z.

(** [.astype(np.uint8)] on one entry. *)
Definition to_uint8 (x : ext) : Z :=
  match x with
  | Fin q => (Qtrunc q mod 256)%Z
  | _ => (nan_as_int mod 256)%Z
  end.

(** [np.zeros((rows, cols, 3))]: a negative dimension is a [ValueError]. *)
Definition zero_canvas (rows cols : Z) : result (ndarray ext) :=
  if (rows <? 0)%Z || (cols <? 0)%Z then Raise ValueError
  else Ok (zeros (Fin 0) (Z.to_nat rows, Z.to_nat cols, 3%nat)).

(** Steps 5 to 7 of [panorama]: the canvas, the two slice assignments,
    the clip and the cast. *)
Definition compose (panorama_y_cords panorama_x_cords : Z) (pad_stuct : Geometry.PadStruct)
    (backward_map : ndarray ext) (dst_image : ndarray Z) : result (ndarray Z) :=
  do img_panorama <- zero_canvas panorama_y_cords panorama_x_cords;
  let '(rows, cols, _) := shape img_panorama in
  do img_panorama <-
    assign_region img_panorama
      (slice_bounds 0 (Z.of_nat (shape_rows (shape backward_map))) rows)
      (slice_bounds 0 (Z.of_nat (shape_cols (shape backward_map))) cols)
      backward_map;
  let pu := Geometry.pad_up pad_stuct in
  let pl := Geometry.pad_left pad_stuct in
  do img_panorama <-
    assign_region img_panorama
      (slice_bounds pu (pu + Z.of_nat (shape_rows (shape dst_image))) rows)
      (slice_bounds pl (pl + Z.of_nat (shape_cols (shape dst_image))) cols)
      (ndarray_map (fun v => Fin (inject_Z v)) dst_image);
  Ok (ndarray_map (fun x => to_uint8 (clip x)) img_panorama).

Definition panorama (src_image dst_image : ndarray Z)
    (match_p_src match_p_dst : list point) (inliers_percent max_err : Q)
  : result (ndarray Z) :=
  do homography <-
    Ransac.compute_homography svd_Vh ransac_k draw_forward
      match_p_src match_p_dst inliers_percent max_err;
  do (panorama_y_cords, panorama_x_cords, pad_stuct) <-
    Geometry.find_panorama_shape src_image dst_image homography;
  do backward_homography <-
    Ransac.compute_homography svd_Vh ransac_k draw_backward
      match_p_dst match_p_src inliers_percent max_err;
  do backward_map <-
    backward_map_of backward_homography (Geometry.pad_left pad_stuct)
      (Geometry.pad_up pad_stuct) src_image
      (Z.to_nat panorama_y_cords, Z.to_nat panorama_x_cords, 3%nat);
  compose panorama_y_cords panorama_x_cords pad_stuct backward_map dst_image.

End WithServices.

End Panorama.

(** ** Derived notions used by the further properties *)

Module Derived.

(** The inlier list of [get_vectors_and_inliers], as an expression. *)
Definition inliers_of (H : Homography) (src dst : list point) (max_err : Q) : list nat :=
  Scorer.collect_inliers max_err 0
    (zip (map Scorer.normalize (map (mat_vec H) (map Scorer.int_column src)))
         (map Scorer.int_column dst)).

(** The nine entries of a homography in row-major order, the inverse of
    [reshape33]. *)
Definition flatten (H : Homography) : list Q :=
  let '((a, b, c), (d, e, f), (g, h, i)) := H in [a; b; c; d; e; f; g; h; i].

(** [H] maps the source point [s] onto the destination point [d], up to the
    homogeneous scale [t]. *)
Definition maps_onto (H : Homography) (s d : point) : Prop :=
  let '(h0, h1, h2) := mat_vec H (fst s, snd s, 1%Q) in
  (h0 == h2 * fst d)%Q /\ (h1 == h2 * snd d)%Q.

(** The square of a value of [dist_mse] or [mse_value]: on non-negative
    values the order of the values is the order of their squares. *)
Definition rank (a : num) : Q :=
  match a with
  | Rat x => Qsq x
  | Sqrt x => x
  | NaN => 0%Q
  end.

(** Rows of pixels that have the lengths of the shape [s]. *)
Definition shaped {A} (s : nat * nat * nat) (a : list (list (list A))) : Prop :=
  well_shaped {| shape := s; cells := a |}.

(** The source pixels in the order of the two nested loops, as
    (row, column) pairs. *)
Definition row_major (rows cols : nat) : list (nat * nat) :=
  flat_map (fun row => map (fun col => (row, col)) (seq 0 cols)) (seq 0 rows).

(** The last element of [ps] that writes to the cell [t]. *)
Fixpoint last_writer {P} (tgt : P -> option (nat * nat)) (ps : list P) (t : nat * nat)
  : option P :=
  match ps with
  | [] => None
  | p :: ps' =>
      match last_writer tgt ps' t with
      | Some q => Some q
      | None => if bool_decide (tgt p = Some t) then Some p else None
      end
  end.

(** Where the loop version puts the source pixel of row [row] and column
    [col]: the (row, column) of the canvas cell, when the third coordinate
    is not zero and the truncated quotients are inside the canvas. *)
Definition truncated_target (H : Homography) (s : nat * nat * nat) (p : nat * nat)
  : option (nat * nat) :=
  let '(row, col) := p in
  let '(t0, t1, t2) := mat_vec H (Forward.pixel_point col row) in
  if Qeqb t2 0 then None
  else
    let nx := Qtrunc (t0 / t2) in
    let ny := Qtrunc (t1 / t2) in
    if in_range nx (shape_cols s) && in_range ny (shape_rows s)
    then Some (Z.to_nat ny, Z.to_nat nx)
    else None.


(** The state of the RANSAC loop after the first [n] iterations:
    [mse_value] is the least [dist_mse] of the refined candidates so far (or
    still the initial value), and the stored homography is the first
    candidate that reached it. *)
Definition best_so_far (svd_Vh : matrix -> matrix) (draw : nat -> nat -> list nat)
    (src dst : list point) (w max_err : Q) (n : nat) (st : Ransac.state) : Prop :=
  num_nonneg (Ransac.mse_value st) /\
  (rank (Ransac.mse_value st) <= rank (Rat Ransac.initial_mse))%Q /\
  (forall j h d, (j < n)%nat ->
     Ransac.trial svd_Vh draw src dst w max_err j = Ok (Some (h, d)) ->
     (rank (Ransac.mse_value st) <= rank d)%Q) /\
  match Ransac.homography st with
  | None => Ransac.mse_value st = Rat Ransac.initial_mse
  | Some h =>
      exists i, (i < n)%nat /\
        Ransac.trial svd_Vh draw src dst w max_err i = Ok (Some (h, Ransac.mse_value st)) /\
        (rank (Ransac.mse_value st) < rank (Rat Ransac.initial_mse))%Q /\
        (forall j h' d', (j < i)%nat ->
           Ransac.trial svd_Vh draw src dst w max_err j = Ok (Some (h', d')) ->
           (rank (Ransac.mse_value st) < rank d')%Q)
  end.

(** The body of the inner loop of the loop version, on a (row, column)
    pair. *)
Definition slow_step (homography : Homography) (src_image : ndarray Z)
    (s : nat * nat * nat) (dst : list (list (list Z))) (p : nat * nat)
  : result (list (list (list Z))) :=
  Forward.place_pixel homography src_image s (fst p) dst (snd p).

(** One element of the indexed assignment of the vectorized version, on a
    column of the whole meshgrid: the columns that the mask leaves out write
    nothing. *)
Definition fast_step (nonfinite_as_int : Q -> Z) (homography : Homography)
    (src_image : ndarray Z) (s : nat * nat * nat)
    (dst : list (list (list Z))) (p : nat * nat)
  : result (list (list (list Z))) :=
  if Forward.selected nonfinite_as_int homography s p
  then Forward.plant nonfinite_as_int homography src_image s dst p
  else Ok dst.

(** The two constraints of the correspondence (x, y) -> (u, v) as the
    specification words them: the cross product of the mapped homogeneous
    source point [H (x, y, 1)] and the destination point [(u, v, 1)] is
    zero.  Over the nine entries of [H] in row-major order the constraints
    [h0 x + h1 y + h2 - u (h6 x + h7 y + h8) = 0] and
    [h3 x + h4 y + h5 - v (h6 x + h7 y + h8) = 0] have these coefficients. *)
Definition x_constraint (s d : point) : list Q :=
  [fst s; snd s; 1; 0; 0; 0; - (fst d * fst s); - (fst d * snd s); - fst d]%Q.

Definition y_constraint (s d : point) : list Q :=
  [0; 0; 0; fst s; snd s; 1; - (snd d * fst s); - (snd d * snd s); - snd d]%Q.

(** The squared Euclidean distance between two columns of three entries. *)
Definition squared_distance (a b : vec3) : Q :=
  let '(a0, a1, a2) := a in
  let '(b0, b1, b2) := b in
  ((a0 - b0) * (a0 - b0) + (a1 - b1) * (a1 - b1) + (a2 - b2) * (a2 - b2))%Q.

(** The squared distance between the columns [i] of the two arrays that
    the scorer works on; a column with a nan has none. *)
Definition column_distance_sq (src_vector_norm : list (option vec3))
    (dst_vector : list vec3) (i : nat) : Q :=
  match src_vector_norm !! i, dst_vector !! i with
  | Some (Some a), Some b => squared_distance a b
  | _, _ => 0%Q
  end.

(** The sum of [f i] over the indices [i] of a list. *)
Definition sum_over (idxs : list nat) (f : nat -> Q) : Q :=
  fold_right (fun i acc => (f i + acc)%Q) 0%Q idxs.

End Derived.

(** ** The forward warpers over the float64 arithmetic of numpy

    The products, sums and quotients from which the warpers compute the
    target of a source pixel are float64 operations, and the rounding of a
    quotient can move a target by one cell.  In [Forward] they are taken
    exact; here the target computation is a parameter, and everything
    else (the loops, the bounds test, the writes) is the code as in
    [Forward]. *)

Module Warp.

Section Slow.

(** Lines 86 to 88 for a homography and the source pixel of row [row] and
    column [col]: [normalized_point], a pair of Python ints, or the
    exception that [int] raises on inf and nan. *)
Variable normalized_point : Homography -> nat -> nat -> result (Z * Z).

Variable homography : Homography.
Variable src_image : ndarray Z.
Variable dst_image_shape : nat * nat * nat.

(** The body of [for col in range(src_image.shape[1])]. *)
Definition place_pixel (row : nat) (dst : list (list (list Z))) (col : nat)
  : result (list (list (list Z))) :=
  do n <- normalized_point homography row col;
  if in_range (fst n) (shape_cols dst_image_shape) &&
     in_range (snd n) (shape_rows dst_image_shape)
  then for_each (Forward.copy_channel src_image (Z.to_nat (snd n)) (Z.to_nat (fst n)) row col)
                (seq 0 (shape_chans dst_image_shape)) dst
  else Ok dst.

(** The body of [for row in range(src_image.shape[0])]. *)
Definition place_row (dst : list (list (list Z))) (row : nat)
  : result (list (list (list Z))) :=
  for_each (place_pixel row) (seq 0 (shape_cols (shape src_image))) dst.

Definition compute_forward_homography_slow : result (ndarray Z) :=
  let dst_image := zeros 0%Z dst_image_shape in
  do dst <- for_each place_row (seq 0 (shape_rows (shape src_image))) (cells dst_image);
  Ok {| shape := dst_image_shape; cells := dst |}.

(** The body of the inner loop, on a (row, column) pair. *)
Definition slow_step (dst : list (list (list Z))) (p : nat * nat)
  : result (list (list (list Z))) :=
  place_pixel (fst p) dst (snd p).

(** The canvas cell, as (row, column), that the source pixel of row [row]
    and column [col] is written to: none when [int] raises or when the
    point is outside of the canvas. *)
Definition slow_target (p : nat * nat) : option (nat * nat) :=
  match normalized_point homography (fst p) (snd p) with
  | Ok n =>
      if in_range (fst n) (shape_cols dst_image_shape) &&
         in_range (snd n) (shape_rows dst_image_shape)
      then Some (Z.to_nat (snd n), Z.to_nat (fst n))
      else None
  | Raise _ => None
  end.

End Slow.

Section Fast.

(** Lines 129 to 131 for a homography and the meshgrid column [(x, y)]:
    the entries of [normalized_x] and [normalized_y], which the cast makes
    integers whatever the quotient is. *)
Variable normalized : Homography -> nat * nat -> Z * Z.

Variable homography : Homography.
Variable src_image : ndarray Z.
Variable dst_image_shape : nat * nat * nat.

(** The mask of [np.where]. *)
Definition selected (p : nat * nat) : bool :=
  let '(nx, ny) := normalized homography p in
  (0 <=? nx)%Z && (nx <? Z.of_nat (shape_cols dst_image_shape))%Z &&
  (0 <=? ny)%Z && (ny <? Z.of_nat (shape_rows dst_image_shape))%Z.

(** One element of the indexed assignment
    [dst_image[y_cords, x_cords] = src_image[meshgrid_image_y, meshgrid_image_x]];
    the elements are written in the order of the index arrays. *)
Definition plant (dst : list (list (list Z))) (p : nat * nat)
  : result (list (list (list Z))) :=
  let '(nx, ny) := normalized homography p in
  match pixel_at (cells src_image) (snd p) (fst p) with
  | Some px =>
      Ok (Forward.set_pixel dst (Z.to_nat ny) (Z.to_nat nx)
            (Forward.broadcast_pixel src_image dst_image_shape px))
  | None => Raise IndexError
  end.

Definition compute_forward_homography_fast : result (ndarray Z) :=
  let dst_image := zeros 0%Z dst_image_shape in
  let meshgrid_image :=
    Forward.meshgrid (shape_cols (shape src_image)) (shape_rows (shape src_image)) in
  let selected_points := filter (fun p => selected p = true) meshgrid_image in
  let cs := shape_chans (shape src_image) in
  let cd := shape_chans dst_image_shape in
  if negb ((cs =? cd)%nat || (cs =? 1)%nat) then Raise ValueError
  else
    do dst <- for_each plant selected_points (cells dst_image);
    Ok {| shape := dst_image_shape; cells := dst |}.

(** One element of the indexed assignment, on a column of the whole
    meshgrid: the columns that the mask leaves out write nothing. *)
Definition fast_step (dst : list (list (list Z))) (p : nat * nat)
  : result (list (list (list Z))) :=
  if selected p then plant dst p else Ok dst.

(** The canvas cell, as (row, column), that the meshgrid column [(x, y)] is
    written to. *)
Definition fast_target (p : nat * nat) : option (nat * nat) :=
  if selected p
  then Some (Z.to_nat (snd (normalized homography p)), Z.to_nat (fst (normalized homography p)))
  else None.

End Fast.

(** The target computation of [Forward], in exact arithmetic, as an
    instance. *)
Definition exact_point (homography : Homography) (row col : nat) : result (Z * Z) :=
  let '(t0, t1, t2) := mat_vec homography (Forward.pixel_point col row) in
  do n0 <- Forward.int_quotient t0 t2;
  do n1 <- Forward.int_quotient t1 t2;
  Ok (n0, n1).

End Warp.

(** ** [add_translation_to_backward_homography] and
    [compute_backward_mapping] *)

Module Backward.

(** [np.dot(A, B)] for two 3x3 matrices. *)
Definition mat_mul (A B : Homography) : Homography :=
  let '((b00, b01, b02), (b10, b11, b12), (b20, b21, b22)) := B in
  let '(r0, r1, r2) := A in
  let row (r : vec3) : vec3 :=
    (dot3 r (b00, b10, b20), dot3 r (b01, b11, b21), dot3 r (b02, b12, b22)) in
  (row r0, row r1, row r2).

Definition div_vec (v : vec3) (n : Q) : vec3 :=
  let '(a, b, c) := v in (a / n, b / n, c / n)%Q.

Section Translation.

(** [np.linalg.norm] of a 3x3 matrix, its Frobenius norm, as the float the
    call returns. *)
Variable norm_of : Homography -> Q.

(** [None] stands for the matrix without a finite entry that the division
    by a zero norm leaves. *)
Definition add_translation_to_backward_homography
    (backward_homography : Homography) (pad_left pad_up : Z) : option Homography :=
  let trans_matrix : Homography :=
    ((1, 0, - inject_Z pad_left), (0, 1, - inject_Z pad_up), (0, 0, 1))%Q in
  let trans_homography := mat_mul backward_homography trans_matrix in
  let n := norm_of trans_homography in
  if Qeqb n 0 then None
  else
    let '(r0, r1, r2) := trans_homography in
    Some (div_vec r0 n, div_vec r1 n, div_vec r2 n).

End Translation.

(** [count] consecutive pieces of [n] elements each. *)
Fixpoint chunks {A} (n count : nat) (l : list A) : list (list A) :=
  match count with
  | O => []
  | S count' => take n l :: chunks n count' (drop n l)
  end.

(** [np.reshape] of a flat sequence to three dimensions, row-major; a
    [ValueError] when the number of elements is not that of the shape. *)
Definition reshape3 {A} (flat : list A) (s : nat * nat * nat) : result (ndarray A) :=
  let '(R, C, Ch) := s in
  if negb (length flat =? R * C * Ch)%nat then Raise ValueError
  else Ok {| shape := s; cells := chunks C R (chunks Ch (R * C) flat) |}.

Section Mapping.

(** Lines 317 to 324 for a homography and the canvas pixel of row [i] and
    column [j]: the pair [(x_dst, y_dst)] of the float64 product of the
    homography with (j, i, 1), normalized by its third coordinate and cast
    to integers. *)
Variable dst_query : Homography -> nat -> nat -> Z * Z.

(** scipy's [griddata(points, values, xi, method='cubic')]: the known
    points (x, y), one row of channel values for each of them, and the query
    points; the answer has one row of values for each query, nan where the
    query is outside the convex hull of the points. *)
Variable griddata :
  list (Z * Z) -> list (list Z) -> list (Z * Z) -> result (list (list ext)).

(** The pairs (row, column) of [np.indices((rows, cols)).reshape(2, -1)]. *)
Definition indices (rows cols : nat) : list (nat * nat) :=
  flat_map (fun i => map (fun j => (i, j)) (seq 0 cols)) (seq 0 rows).

(** [(x_dst_cords, y_dst_cords)]: the queries of the canvas pixels in
    row-major order. *)
Definition dst_cords (H : Homography) (dst_image_shape : nat * nat * nat) : list (Z * Z) :=
  map (fun p => dst_query H (fst p) (snd p))
      (indices (shape_rows dst_image_shape) (shape_cols dst_image_shape)).

(** [(x_src_cords, y_src_cords)] *)
Definition src_cords (src_image : ndarray Z) : list (Z * Z) :=
  map (fun p => (Z.of_nat (snd p), Z.of_nat (fst p)))
      (indices (shape_rows (shape src_image)) (shape_cols (shape src_image))).

(** [src_image[y_src_cords, x_src_cords, :]] *)
Definition src_values (src_image : ndarray Z) : result (list (list Z)) :=
  for_each (fun acc p =>
              match pixel_at (cells src_image) (fst p) (snd p) with
              | Some px => Ok (acc ++ [px])
              | None => Raise IndexError
              end)
           (indices (shape_rows (shape src_image)) (shape_cols (shape src_image))) [].

Definition compute_backward_mapping (backward_projective_homography : Homography)
    (src_image : ndarray Z) (dst_image_shape : nat * nat * nat) : result (ndarray ext) :=
  let xy_dst := dst_cords backward_projective_homography dst_image_shape in
  let xy_src := src_cords src_image in
  do values <- src_values src_image;
  do answers <- griddata xy_src values xy_dst;
  reshape3 (concat answers) dst_image_shape.

End Mapping.

End Backward.

(** ** Concrete inputs

    The data of the examples below.  The singular value decomposition is an
    external service, so each example comes with a stand-in that answers the
    matrices of that example; only the last row of [V] is read by the code,
    and for every matrix a stand-in is used on, that row is checked to be a
    null vector of the matrix ([is_null_vector]), which is what a
    decomposition returns, up to scale, when the null space is a line. *)

Module Examples.

Definition dot_list (r v : list Q) : Q :=
  fold_right Qplus 0%Q (zip_with Qmult r v).

Definition is_null_vector (m : matrix) (v : list Q) : bool :=
  forallb (fun row => Qeqb (dot_list row v) 0) m.

Definition matrix_eqb (a b : matrix) : bool :=
  (length a =? length b)%nat &&
  forallb (fun rs => (length (fst rs) =? length (snd rs))%nat &&
                     forallb (fun xy => Qeqb (fst xy) (snd xy)) (zip (fst rs) (snd rs)))
          (zip a b).

(** A [V] of nine rows whose last row is [v]. *)
Definition V_with_last (v : list Q) : matrix :=
  replicate 8 (replicate 9 0%Q) ++ [v].

Definition svd_with (v : list Q) : matrix -> matrix :=
  fun _ => V_with_last v.

(** The answer [v1] on the matrix [m1], and [v2] on any other matrix. *)
Definition svd_two (m1 : matrix) (v1 v2 : list Q) : matrix -> matrix :=
  fun m => if matrix_eqb m m1 then V_with_last v1 else V_with_last v2.

(** The translation by [(a, b)] as a vector of nine entries. *)
Definition translation (a b : Q) : list Q := [1; 0; a; 0; 1; b; 0; 0; 1]%Q.

Definition identity : Homography := ((1, 0, 0), (0, 1, 0), (0, 0, 1))%Q.

(** Three correspondences, each point mapped to itself. *)
Definition three_points : list point := [(0, 0); (1, 0); (0, 1)]%Q.

(** The corners of a square and their images under the translation by
    [(2, 3)]; a fifth correspondence that is far off. *)
Definition square_src : list point := [(0, 0); (10, 0); (0, 10); (10, 10)]%Q.
Definition square_dst : list point := [(2, 3); (12, 3); (2, 13); (12, 13)]%Q.
Definition outlier_src : list point := square_src ++ [(5, 5)]%Q.
Definition outlier_dst : list point := square_dst ++ [(40, 40)]%Q.

(** Every draw selects the first four correspondences. *)
Definition draw_first_four : nat -> nat -> list nat :=
  fun _ _ => [0; 1; 2; 3]%nat.

(** The iteration count for [w = 1]: [log(0)] is -inf, the quotient is
    [-0.0], and [int(ceil(-0.0)) + 1] is 1. *)
Definition ransac_k_one : Q -> result Z := fun _ => Ok 1%Z.

(** Eight correspondences with fractional destination coordinates: the
    first four are moved by [(0.6, 0)], the last four by [(1.7, 0)]. *)
Definition eight_src : list point :=
  [(0, 0); (10, 0); (0, 10); (10, 10); (20, 20); (30, 20); (20, 30); (30, 30)]%Q.
Definition eight_dst : list point :=
  [(3 # 5, 0); (53 # 5, 0); (3 # 5, 10); (53 # 5, 10);
   (217 # 10, 20); (317 # 10, 20); (217 # 10, 30); (317 # 10, 30)]%Q.

(** The decomposition on the two design matrices of the example: that of
    the first four correspondences, and that of the last four. *)
Definition svd_eight : matrix -> matrix :=
  svd_two (Naive.design_matrix_spec (take 4 eight_src) (take 4 eight_dst))
          (translation (3 # 5) 0) (translation (17 # 10) 0).

Definition shift_17 : Homography := ((1, 0, 17 # 10), (0, 1, 0), (0, 0, 1))%Q.

(** The iteration count for [w = 0.5]: [log(0.01) / log(1 - 0.5 ** 4)] is
    about 71.4, so that [int(ceil(...)) + 1] is 73. *)
Definition ransac_k_half : Q -> result Z := fun _ => Ok 73%Z.

(** A source image of one pixel and the translation by [0.6] along x. *)
Definition one_pixel : ndarray Z :=
  {| shape := (1, 1, 3)%nat; cells := [[[7; 8; 9]]]%Z |}.
Definition shift_06 : Homography := ((1, 0, 3 # 5), (0, 1, 0), (0, 0, 1))%Q.

(** A 2x2 source image and a homography that sends [(x, y)] to
    [((x + y) / 2, 0)]: three source pixels land in the cell [(0, 0)]. *)
Definition four_pixels : ndarray Z :=
  {| shape := (2, 2, 3)%nat;
     cells := [[[1; 1; 1]; [2; 2; 2]]; [[3; 3; 3]; [4; 4; 4]]]%Z |}.
Definition fold_diagonal : Homography :=
  ((1 # 2, 1 # 2, 0), (0, 0, 0), (0, 0, 1))%Q.

(** The cast of inf and nan to int64 on x86-64. *)
Definition int64_min : Q -> Z := fun _ => (- 2 ^ 63)%Z.

(** A homography whose third row is zero: every point goes to infinity. *)
Definition to_infinity : Homography := ((1, 0, 0), (0, 1, 0), (0, 0, 0))%Q.

(** The two images of the panorama example, 2x2 pixels each. *)
Definition left_image : ndarray Z :=
  {| shape := (2, 2, 3)%nat;
     cells := [[[10; 20; 30]; [40; 50; 60]]; [[70; 80; 90]; [100; 110; 120]]]%Z |}.
Definition right_image : ndarray Z :=
  {| shape := (2, 2, 3)%nat;
     cells := [[[0; 255; 1]; [2; 3; 4]]; [[5; 6; 7]; [8; 9; 10]]]%Z |}.

(** The decomposition on the design matrices of the panorama example: the
    correspondences from [square_dst] to [square_src] are a translation by
    [(-2, -3)], the swapped ones a translation by [(2, 3)]. *)
Definition svd_panorama : matrix -> matrix :=
  svd_two (Naive.design_matrix_spec square_dst square_src)
          (translation (- 2) (- 3)) (translation 2 3).

(** A backward warp that finds no colour anywhere: nan in every cell of the
    requested shape, as [griddata] answers outside the convex hull. *)
Definition warp_all_nan
  : Homography -> Z -> Z -> ndarray Z -> nat * nat * nat -> result (ndarray ext) :=
  fun _ _ _ _ s => Ok (zeros ENaN s).

(** The translation by (2, 3) as a homography. *)
Definition shift_23 : Homography := ((1, 0, 2), (0, 1, 3), (0, 0, 1))%Q.

(** A backward homography (twice the translation by (2, 3)) whose
    composition with the translation by (-2, -3) is diag(2, 2, 1), of
    Frobenius norm 3; the norm on that matrix; the scaled composition. *)
Definition double_shift : Homography := ((2, 0, 4), (0, 2, 6), (0, 0, 1))%Q.
Definition norm_three : Homography -> Q := fun _ => 3%Q.
Definition scaled_diagonal : Homography :=
  ((2 # 3, 0 # 3, 0 # 3), (0 # 3, 2 # 3, 0 # 3), (0 # 3, 0 # 3, 1 # 3))%Q.

(** An interpolation that knows the colours at the known points only: the
    value of the known point at the query, and nan for every other query. *)
Definition griddata_at_nodes
  : list (Z * Z) -> list (list Z) -> list (Z * Z) -> result (list (list ext)) :=
  fun points values xi =>
    Ok (map (fun q =>
               match find (fun pv => (fst (fst pv) =? fst q)%Z && (snd (fst pv) =? snd q)%Z)
                          (zip points values) with
               | Some pv => map (fun c => Fin (inject_Z c)) (snd pv)
               | None => replicate (length (default [] (head values))) ENaN
               end) xi).

(** Three correspondences under the identity: the first is off by 1, the
    second by 2 and the third by far more. *)
Definition near_src : list point := [(0, 0); (3, 0); (10, 10)]%Q.
Definition near_dst : list point := [(1, 0); (3, 2); (50, 50)]%Q.

(** The queries of [compute_backward_mapping] in exact arithmetic, with
    the cast of inf and nan of x86-64: on a homography with integer entries
    and a third row (0, 0, 1) the float64 operations are exact. *)
Definition exact_query : Homography -> nat -> nat -> Z * Z :=
  fun H i j => Forward.target int64_min H (j, i).

End Examples.

(** * Properties *)

(** ** Loops and results *)

Lemma for_each_app {A S} (body : S -> A -> result S) (xs ys : list A) (s : S) :
  for_each body (xs ++ ys) s = do s' <- for_each body xs s; for_each body ys s'.
Proof.
  revert s. induction xs as [|x xs IH]; intros s; simpl; [reflexivity|].
  destruct (body s x); simpl; auto.
Qed.

Lemma take_columns_length {A} (m : list A) (idxs : list nat) (cs : list A) :
  take_columns m idxs = Ok cs -> length cs = length idxs.
Proof.
  revert cs. induction idxs as [|i idxs IH]; simpl; intros cs E.
  - inversion E. reflexivity.
  - destruct (m !! i); [|discriminate].
    destruct (take_columns m idxs) as [cs'|]; simpl in E; [|discriminate].
    inversion E. simpl. f_equal. apply IH. reflexivity.
Qed.

(** ** The design matrix of [compute_homography_naive] *)

Module NaiveFacts.
Import Naive.

Lemma design_length (src dst : list point) :
  length (design_matrix_spec src dst) = (2 * Nat.min (length src) (length dst))%nat.
Proof.
  unfold design_matrix_spec. revert dst.
  induction src as [|s src IH]; intros [|d dst]; simpl; try reflexivity.
  rewrite IH. lia.
Qed.

Lemma design_snoc (src dst : list point) (k : nat) (s d : point) :
  src !! k = Some s -> dst !! k = Some d ->
  design_matrix_spec (take (S k) src) (take (S k) dst) =
  design_matrix_spec (take k src) (take k dst) ++ [x_row s d; y_row s d].
Proof.
  intros Hs Hd. unfold design_matrix_spec.
  rewrite (take_S_r src k s Hs), (take_S_r dst k d Hd).
  rewrite zip_with_app.
  - rewrite concat_app. simpl. reflexivity.
  - rewrite !length_take.
    apply lookup_lt_Some in Hs. apply lookup_lt_Some in Hd. lia.
Qed.

Lemma design_lookup (src dst : list point) (i : nat) (s d : point) :
  src !! i = Some s -> dst !! i = Some d ->
  design_matrix_spec src dst !! (2 * i)%nat = Some (x_row s d) /\
  design_matrix_spec src dst !! (2 * i + 1)%nat = Some (y_row s d).
Proof.
  unfold design_matrix_spec. revert dst i.
  induction src as [|s0 src IH]; intros [|d0 dst] i Hs Hd; try discriminate.
  destruct i as [|i]; simpl in *.
  - inversion Hs; inversion Hd; subst. split; reflexivity.
  - replace (i + S (i + 0))%nat with (S (2 * i)) by lia.
    simpl. replace (i + (i + 0))%nat with (2 * i)%nat by lia.
    apply IH; assumption.
Qed.

Lemma design_rows_nine (src dst : list point) :
  Forall (fun row => length row = 9%nat) (design_matrix_spec src dst).
Proof.
  unfold design_matrix_spec. revert dst.
  induction src as [|[x y] src IH]; intros [|d dst]; simpl; try constructor.
  - reflexivity.
  - constructor; [reflexivity | apply IH].
Qed.

(** One iteration on a matrix whose first [2 * i] rows are settled: the
    slice assignment overwrites every later row, and the rows it spoils are
    exactly those that later iterations write again. *)
Lemma step_shape (D : matrix) (r x y : list Q) (n i : nat) :
  length D = i ->
  set_rows_from (set_row (D ++ replicate (S (S n)) r) i x) (i + 1) y =
  (D ++ [x; y]) ++ replicate n y.
Proof.
  intros <-. unfold set_rows_from, set_row.
  rewrite length_insert, length_app, length_replicate.
  rewrite insert_app_r_alt by lia. rewrite Nat.sub_diag. simpl.
  rewrite take_app_add. simpl.
  replace (length D + S (S n) - (length D + 1))%nat with (S n) by lia.
  simpl. rewrite <- !app_assoc. reflexivity.
Qed.

Lemma loop_prefix (src dst : list point) (k : nat) :
  length src = length dst -> (k <= length dst)%nat ->
  exists r,
    for_each (loop_body src dst) (seq 0 k)
             (replicate (2 * length dst) (replicate 9 0%Q)) =
    Ok (design_matrix_spec (take k src) (take k dst) ++
        replicate (2 * (length dst - k)) r).
Proof.
  intros Hlen. induction k as [|k IH]; intros Hk.
  - exists (replicate 9 0%Q). simpl. rewrite Nat.sub_0_r. reflexivity.
  - destruct IH as [r IH]; [lia|].
    rewrite seq_S, for_each_app, IH. cbn [rbind for_each Nat.add].
    destruct (lookup_lt_is_Some_2 src k) as [s Hs]; [lia|].
    destruct (lookup_lt_is_Some_2 dst k) as [d Hd]; [lia|].
    unfold loop_body. rewrite Hs, Hd. cbn [rbind].
    exists (y_row s d). f_equal.
    rewrite (design_snoc src dst k s d Hs Hd).
    replace (2 * (length dst - k))%nat with (S (S (2 * (length dst - S k)))) by lia.
    apply step_shape.
    rewrite design_length, !length_take. lia.
Qed.

(** The loop, slice assignment and all, builds the design matrix of the
    specification. *)
Lemma build_ref_mat_spec (src dst : list point) :
  length src = length dst ->
  build_ref_mat src dst = Ok (design_matrix_spec src dst).
Proof.
  intros Hlen. unfold build_ref_mat.
  rewrite Hlen, Nat.eqb_refl. simpl negb. cbv iota.
  destruct (loop_prefix src dst (length dst) Hlen) as [r Hr]; [lia|].
  rewrite Hr. rewrite Nat.sub_diag. simpl replicate. rewrite app_nil_r.
  rewrite <- Hlen at 1. rewrite !firstn_all. reflexivity.
Qed.

Lemma build_ref_mat_mismatch (src dst : list point) :
  length src <> length dst -> build_ref_mat src dst = Raise ValueError.
Proof.
  intros Hlen. unfold build_ref_mat.
  destruct (Nat.eqb_spec (length src) (length dst)); [contradiction | reflexivity].
Qed.

End NaiveFacts.

(** ** [compute_homography_naive]: claims C2 and C3 *)

Module NaiveClaims.
Import Naive NaiveFacts.

Lemma naive_returns (svd_Vh : matrix -> matrix) (src dst : list point) :
  length src = length dst ->
  compute_homography_naive svd_Vh src dst =
  do v <- last_row (svd_Vh (design_matrix_spec src dst)); reshape33 v.
Proof.
  intros Hlen. unfold compute_homography_naive.
  rewrite (build_ref_mat_spec src dst Hlen). reflexivity.
Qed.

Lemma reshape33_nine (v : list Q) :
  length v = 9%nat -> exists H, reshape33 v = Ok H.
Proof.
  intros Hv.
  do 9 (destruct v as [|? v]; [discriminate|]).
  destruct v; [|discriminate]. eexists. reflexivity.
Qed.

(** Every row of the design matrix belongs to the correspondence whose
    index is half the row index: the even rows are x-rows, the odd rows
    y-rows. *)
Lemma design_row_owner (src dst : list point) (r : nat) (row : list Q) :
  length src = length dst ->
  design_matrix_spec src dst !! r = Some row ->
  exists s d, src !! (r / 2)%nat = Some s /\ dst !! (r / 2)%nat = Some d /\
              row = if Nat.even r then x_row s d else y_row s d.
Proof.
  intros Hlen Hrow.
  assert (Hr : (r < 2 * length dst)%nat).
  { apply lookup_lt_Some in Hrow. rewrite design_length in Hrow. lia. }
  assert (Hi : (r / 2 < length dst)%nat) by (apply Nat.Div0.div_lt_upper_bound; lia).
  destruct (lookup_lt_is_Some_2 src (r / 2)) as [s Hs]; [lia|].
  destruct (lookup_lt_is_Some_2 dst (r / 2)) as [d Hd]; [lia|].
  exists s, d. split; [assumption|]. split; [assumption|].
  destruct (design_lookup src dst (r / 2) s d Hs Hd) as [Hx Hy].
  pose proof (Nat.div_mod_eq r 2) as Hdm.
  destruct (Nat.even r) eqn:Hev.
  - apply Nat.even_spec in Hev. destruct Hev as [q Hq].
    assert (r mod 2 = 0)%nat by (subst r; rewrite Nat.mul_comm; apply Nat.Div0.mod_mul).
    replace (2 * (r / 2))%nat with r in Hx by lia. congruence.
  - assert (Hodd : Nat.odd r = true) by (rewrite <- Nat.negb_even, Hev; reflexivity).
    apply Nat.odd_spec in Hodd. destruct Hodd as [q Hq].
    assert (r mod 2 = 1)%nat.
    { subst r. rewrite Nat.add_comm, Nat.mul_comm, Nat.Div0.mod_add. reflexivity. }
    replace (2 * (r / 2) + 1)%nat with r in Hy by lia. congruence.
Qed.

(** The rows that the loop writes have the coefficients that the
    specification asks for. *)
Lemma rows_are_constraints (s d : point) :
  Forall2 Qeq (x_row s d) (Derived.x_constraint s d) /\
  Forall2 Qeq (y_row s d) (Derived.y_constraint s d).
Proof.
  destruct s as [x y], d as [u v]. unfold x_row, y_row, Derived.x_constraint,
    Derived.y_constraint. cbn [fst snd].
  split; repeat (constructor; [ring|]); constructor.
Qed.

(** C3: for N >= 4 correspondences the matrix handed to the decomposition
    has 2N rows of nine entries.  For the correspondence i, (x, y) -> (u, v),
    row 2i is the x-constraint (x, y, 1, 0, 0, 0, -ux, -uy, -u) and row 2i+1
    the y-constraint (0, 0, 0, x, y, 1, -vx, -vy, -v): their products with
    the nine entries of a homography H are the two components of the cross
    product of H (x, y, 1) and (u, v, 1) that the specification sets to
    zero.  No row depends on any other correspondence, and the function
    returns the last row of V (the right singular vector of the smallest
    singular value) reshaped to 3x3 in row-major order. *)
Theorem C3_design_matrix_and_solution
    (svd_Vh : matrix -> matrix) (src dst : list point) :
  length src = length dst ->
  (4 <= length dst)%nat ->
  exists ref_mat,
    build_ref_mat src dst = Ok ref_mat /\
    length ref_mat = (2 * length dst)%nat /\
    Forall (fun row => length row = 9%nat) ref_mat /\
    (forall i s d, src !! i = Some s -> dst !! i = Some d ->
       exists rx ry,
         ref_mat !! (2 * i)%nat = Some rx /\ ref_mat !! (2 * i + 1)%nat = Some ry /\
         Forall2 Qeq rx (Derived.x_constraint s d) /\
         Forall2 Qeq ry (Derived.y_constraint s d) /\
         forall H : Homography,
           let '(p0, p1, p2) := mat_vec H (fst s, snd s, 1%Q) in
           (Examples.dot_list rx (Derived.flatten H) == p0 - fst d * p2)%Q /\
           (Examples.dot_list ry (Derived.flatten H) == p1 - snd d * p2)%Q) /\
    (forall r row, ref_mat !! r = Some row ->
       exists s d, src !! (r / 2)%nat = Some s /\ dst !! (r / 2)%nat = Some d /\
         Forall2 Qeq row (if Nat.even r then Derived.x_constraint s d
                          else Derived.y_constraint s d)) /\
    (forall h0 h1 h2 h3 h4 h5 h6 h7 h8 : Q,
       last (svd_Vh ref_mat) = Some [h0; h1; h2; h3; h4; h5; h6; h7; h8] ->
       compute_homography_naive svd_Vh src dst =
       Ok ((h0, h1, h2), (h3, h4, h5), (h6, h7, h8))).
Proof.
  intros Hlen _. exists (design_matrix_spec src dst).
  split; [apply build_ref_mat_spec; assumption|].
  split; [rewrite design_length; lia|].
  split; [apply design_rows_nine|].
  split; [|split].
  - intros i s d Hs Hd. exists (x_row s d), (y_row s d).
    destruct (design_lookup src dst i s d Hs Hd) as [Hx Hy].
    destruct (rows_are_constraints s d) as [Cx Cy].
    split; [assumption|]. split; [assumption|]. split; [assumption|].
    split; [assumption|]. intros H.
    destruct H as [[[[a0 a1] a2] [[b0 b1] b2]] [[c0 c1] c2]], s as [x y], d as [u v].
    unfold Examples.dot_list. simpl. split; ring.
  - intros r row Hrow.
    destruct (design_row_owner src dst r row Hlen Hrow) as (s & d & Hs & Hd & ->).
    exists s, d. split; [assumption|]. split; [assumption|].
    destruct (rows_are_constraints s d) as [Cx Cy].
    destruct (Nat.even r); assumption.
  - intros h0 h1 h2 h3 h4 h5 h6 h7 h8 Hlast.
    rewrite naive_returns by assumption.
    unfold last_row. rewrite Hlast. reflexivity.
Qed.

(** C2, amended: exact estimation makes no check of the number of
    correspondences; for two sequences of equal length N < 4 it does not
    fail but returns the last row of V reshaped, like for any other N. *)
Theorem C2_fewer_than_four_returns
    (svd_Vh : matrix -> matrix) (src dst : list point) (v : list Q) :
  length src = length dst ->
  (length dst < 4)%nat ->
  last (svd_Vh (design_matrix_spec src dst)) = Some v ->
  length v = 9%nat ->
  exists H, compute_homography_naive svd_Vh src dst = Ok H /\ reshape33 v = Ok H.
Proof.
  intros Hlen _ Hlast Hv.
  destruct (reshape33_nine v Hv) as [H HH]. exists H.
  split; [|assumption].
  rewrite naive_returns by assumption.
  unfold last_row. rewrite Hlast. assumption.
Qed.

End NaiveClaims.

(** ** Rational comparisons *)

Lemma Qltb_lt (a b : Q) : Qltb a b = true <-> (a < b)%Q.
Proof.
  unfold Qltb. rewrite negb_true_iff. split.
  - intros E. apply Qnot_le_lt. intros L.
    apply Qle_bool_iff in L. congruence.
  - intros L. destruct (Qle_bool b a) eqn:E; [|reflexivity].
    apply Qle_bool_iff in E. exfalso. apply (Qlt_not_le _ _ L E).
Qed.

Lemma Qltb_false (a b : Q) : Qltb a b = false <-> (b <= a)%Q.
Proof.
  unfold Qltb. rewrite negb_false_iff. apply Qle_bool_iff.
Qed.

Lemma Qeqb_eq (a b : Q) : Qeqb a b = true <-> (a == b)%Q.
Proof. apply Qeq_bool_iff. Qed.

Lemma Qsq_nonneg (a : Q) : (0 <= Qsq a)%Q.
Proof. unfold Qsq. nra. Qed.

Lemma lookup_map {A B} (f : A -> B) (l : list A) (i : nat) :
  map f l !! i = option_map f (l !! i).
Proof.
  revert i. induction l as [|a l IH]; intros [|i]; simpl; auto.
Qed.

(** ** The scorer: claim C5 *)

Module ScorerFacts.
Import Scorer.

Lemma collect_inliers_In (e : Q) (cols : list (option vec3 * vec3)) (k i : nat) :
  In i (collect_inliers e k cols) <->
  (k <= i)%nat /\ exists c, cols !! (i - k)%nat = Some c /\ is_inlier e c = true.
Proof.
  revert k. induction cols as [|c cols IH]; intros k; simpl.
  - split; [contradiction|]. intros [_ [c [Hc _]]]. discriminate.
  - assert (Hrest : In i (collect_inliers e (S k) cols) <->
                    (k < i)%nat /\ exists c', (c :: cols) !! (i - k)%nat = Some c' /\
                                              is_inlier e c' = true).
    { rewrite IH. split.
      - intros [Hk [c' [Hc' Hin]]]. split; [lia|]. exists c'. split; [|assumption].
        replace (i - k)%nat with (S (i - S k)) by lia. assumption.
      - intros [Hk [c' [Hc' Hin]]]. split; [lia|]. exists c'. split; [|assumption].
        replace (i - k)%nat with (S (i - S k)) in Hc' by lia. assumption. }
    destruct (is_inlier e c) eqn:Hc; simpl; rewrite ?Hrest.
    + split.
      * intros [<- | [Hk Hex]].
        -- split; [lia|]. exists c. rewrite Nat.sub_diag. split; [reflexivity | assumption].
        -- split; [lia | assumption].
      * intros [Hk Hex]. destruct (Nat.eq_dec k i) as [->|Hne]; [left; reflexivity|].
        right. split; [lia | assumption].
    + split.
      * intros [Hk Hex]. split; [lia | assumption].
      * intros [Hk [c' [Hc' Hin]]]. split.
        -- destruct (Nat.eq_dec k i) as [->|Hne]; [|lia].
           rewrite Nat.sub_diag in Hc'. simpl in Hc'. congruence.
        -- exists c'. split; assumption.
Qed.

Lemma collect_inliers_length (e : Q) (cols : list (option vec3 * vec3)) (k : nat) :
  (length (collect_inliers e k cols) <= length cols)%nat.
Proof.
  revert k. induction cols as [|c cols IH]; intros k; simpl; [lia|].
  destruct (is_inlier e c); simpl; specialize (IH (S k)); lia.
Qed.

Lemma get_vectors_ok (H : Homography) (src dst : list point) (e : Q) :
  length src = length dst ->
  get_vectors_and_inliers H src dst e =
  Ok (map normalize (map (mat_vec H) (map int_column src)),
      map int_column dst,
      collect_inliers e 0
        (zip (map normalize (map (mat_vec H) (map int_column src)))
             (map int_column dst))).
Proof.
  intros Hlen. unfold get_vectors_and_inliers.
  rewrite Hlen, Nat.eqb_refl. reflexivity.
Qed.

Lemma take_columns_Forall {A} (P : A -> Prop) (m : list A) (idxs : list nat) :
  (forall i, In i idxs -> exists c, m !! i = Some c /\ P c) ->
  exists cs, take_columns m idxs = Ok cs /\ Forall P cs.
Proof.
  induction idxs as [|i idxs IH]; intros Hall; simpl.
  - exists []. split; [reflexivity | constructor].
  - destruct (Hall i) as [c [Hc HP]]; [left; reflexivity|].
    destruct IH as [cs [Hcs HF]]; [intros j Hj; apply Hall; right; assumption|].
    rewrite Hc, Hcs. simpl. exists (c :: cs). split; [reflexivity|].
    constructor; assumption.
Qed.

Lemma frobenius_sq_finite (s : list (option vec3)) (d : list vec3) :
  Forall (fun o => o <> None) s ->
  exists q, frobenius_sq (zip s d) = Some q /\ (0 <= q)%Q.
Proof.
  intros HF. revert d. induction HF as [|o s Ho HF IH]; intros d.
  - exists 0%Q. split; [reflexivity | apply Qle_refl].
  - destruct d as [|d0 d].
    + exists 0%Q. split; [reflexivity | apply Qle_refl].
    + destruct (IH d) as [q [Hq Hpos]]. simpl.
      destruct o as [v|]; [|contradiction]. rewrite Hq.
      exists (sum_squares v d0 + q)%Q. split; [reflexivity|].
      destruct v as [[v0 v1] v2], d0 as [[d0 d1] d2]. simpl.
      pose proof (Qsq_nonneg (v0 - d0)). pose proof (Qsq_nonneg (v1 - d1)).
      pose proof (Qsq_nonneg (v2 - d2)). lra.
Qed.

(** An inlier is never a column with a nan entry: its comparison with
    [max_err] would be false. *)
Lemma inlier_column_finite (e : Q) (c : option vec3 * vec3) :
  is_inlier e c = true -> fst c <> None.
Proof.
  unfold is_inlier. destruct c as [[v|] d]; simpl; [discriminate | discriminate].
Qed.

Lemma fit_percent_bounds (a n : nat) :
  (a <= n)%nat -> (1 <= n)%nat ->
  (0 <= inject_Z (Z.of_nat a) / inject_Z (Z.of_nat n) <= 1)%Q.
Proof.
  intros Ha Hn.
  assert (Hpos : (0 < inject_Z (Z.of_nat n))%Q).
  { change 0%Q with (inject_Z 0). rewrite <- Zlt_Qlt. lia. }
  split.
  - apply Qle_shift_div_l; [assumption|].
    rewrite Qmult_0_l. change 0%Q with (inject_Z 0). rewrite <- Zle_Qle. lia.
  - apply Qle_shift_div_r; [assumption|].
    rewrite Qmult_1_l. rewrite <- Zle_Qle. lia.
Qed.

(** The radicand of the norm over the selected columns is the sum of the
    squared distances between the columns. *)
Lemma frobenius_sq_sum (sn : list (option vec3)) (dv : list vec3) (idxs : list nat)
    (s : list (option vec3)) (d : list vec3) (q : Q) :
  take_columns sn idxs = Ok s -> take_columns dv idxs = Ok d ->
  frobenius_sq (zip s d) = Some q ->
  (q == Derived.sum_over idxs (Derived.column_distance_sq sn dv))%Q.
Proof.
  revert s d q. induction idxs as [|i idxs IH]; simpl; intros s d q Hs Hd Hq.
  - inversion Hs; inversion Hd; subst. simpl in Hq. inversion Hq. reflexivity.
  - destruct (sn !! i) as [o|] eqn:Ho; [|discriminate].
    destruct (dv !! i) as [b|] eqn:Hb; [|discriminate].
    destruct (take_columns sn idxs) as [s'|]; simpl in Hs; [|discriminate].
    destruct (take_columns dv idxs) as [d'|]; simpl in Hd; [|discriminate].
    inversion Hs; inversion Hd; subst. simpl in Hq.
    destruct o as [a|]; [|discriminate].
    destruct (frobenius_sq (zip s' d')) as [q'|] eqn:Eq; [|discriminate].
    inversion Hq; subst. rewrite <- (IH s' d' q' eq_refl eq_refl Eq).
    unfold Derived.column_distance_sq. rewrite Ho, Hb.
    destruct a as [[a0 a1] a2], b as [[b0 b1] b2].
    unfold sum_squares, Derived.squared_distance, Qsq. reflexivity.
Qed.

(** C5: for N >= 1 correspondences [test_homography] returns; [fit_percent]
    is the number of inliers divided by N and lies in [0, 1]; [dist_mse] is
    not negative; it is exactly 10^9 when there is no inlier, and otherwise
    the square root of the sum, over the inliers and over no other
    correspondence, of the squared distances between the column of the
    mapped source points and the column of the destination points (every
    inlier has such columns, so every inlier contributes). *)
Theorem C5_fit_percent_and_dist_mse
    (H : Homography) (src dst : list point) (max_err : Q) :
  length src = length dst ->
  (1 <= length src)%nat ->
  exists src_vector_norm dst_vector inliers fit_percent dist_mse,
    get_vectors_and_inliers H src dst max_err =
      Ok (src_vector_norm, dst_vector, inliers) /\
    test_homography H src dst max_err = Ok (fit_percent, dist_mse) /\
    fit_percent =
      (inject_Z (Z.of_nat (length inliers)) / inject_Z (Z.of_nat (length src)))%Q /\
    (0 <= fit_percent <= 1)%Q /\
    num_nonneg dist_mse /\
    (inliers = [] -> dist_mse = Rat (inject_Z (10 ^ 9))) /\
    (inliers <> [] ->
       (forall i, In i inliers ->
          exists a b, src_vector_norm !! i = Some (Some a) /\ dst_vector !! i = Some b) /\
       exists q,
         dist_mse = Sqrt q /\
         (q == Derived.sum_over inliers
                 (Derived.column_distance_sq src_vector_norm dst_vector))%Q /\
         (0 <= q)%Q).
Proof.
  intros Hlen Hn.
  pose proof (get_vectors_ok H src dst max_err Hlen) as Hget.
  set (sn := map normalize (map (mat_vec H) (map int_column src))) in *.
  set (dv := map int_column dst) in *.
  set (inl := collect_inliers max_err 0 (zip sn dv)) in *.
  assert (Hcols : forall i, In i inl ->
            (exists o, sn !! i = Some o /\ o <> None) /\ (exists d, dv !! i = Some d /\ True)).
  { intros i Hi. apply collect_inliers_In in Hi. destruct Hi as [_ [c [Hc Hin]]].
    rewrite Nat.sub_0_r in Hc. apply lookup_zip_with_Some in Hc.
    destruct Hc as (o & d & -> & Ho & Hd). split.
    - exists o. split; [assumption|]. apply (inlier_column_finite _ _ Hin).
    - exists d. auto. }
  destruct (take_columns_Forall (fun o => o <> None) sn inl) as [s [Hs HsF]];
    [intros i Hi; apply (Hcols i Hi)|].
  destruct (take_columns_Forall (fun _ => True) dv inl) as [d [Hd _]];
    [intros i Hi; apply (Hcols i Hi)|].
  destruct (frobenius_sq_finite s d HsF) as [q [Hq Hqpos]].
  pose proof (frobenius_sq_sum sn dv inl s d q Hs Hd Hq) as Hsum.
  assert (Hfit : (length inl <= length src)%nat).
  { pose proof (collect_inliers_length max_err (zip sn dv) 0) as Hl.
    fold inl in Hl. rewrite length_zip_with in Hl.
    unfold sn in Hl. rewrite !length_map in Hl. lia. }
  assert (Hzero : (length src =? 0)%nat = false) by (apply Nat.eqb_neq; lia).
  exists sn, dv, inl.
  destruct inl as [|i0 inl'] eqn:Einl.
  - exists (inject_Z (Z.of_nat 0) / inject_Z (Z.of_nat (length src)))%Q,
           (Rat (inject_Z (10 ^ 9))).
    split; [assumption|]. split.
    { unfold test_homography. rewrite Hget. cbn [rbind]. rewrite Hzero. reflexivity. }
    split; [reflexivity|].
    split; [apply (fit_percent_bounds 0 (length src)); lia|].
    split; [simpl; discriminate|].
    split; [reflexivity | intros Hne; contradiction].
  - exists (inject_Z (Z.of_nat (length (i0 :: inl'))) / inject_Z (Z.of_nat (length src)))%Q,
           (Sqrt q).
    split; [assumption|]. split.
    { unfold test_homography. rewrite Hget. cbn [rbind]. rewrite Hs, Hd. cbn [rbind].
      unfold frobenius_norm. rewrite Hq. rewrite Hzero. reflexivity. }
    split; [reflexivity|].
    split; [apply fit_percent_bounds; assumption|].
    split; [exact Hqpos|].
    split; [discriminate|].
    intros _. split.
    + intros i Hi. destruct (Hcols i Hi) as [[o [Ho Hne]] [b [Hb _]]].
      destruct o as [a|]; [|contradiction]. exists a, b. auto.
    + exists q. auto.
Qed.

End ScorerFacts.

(** ** The RANSAC loop: the run without acceptance and claim C6 *)

Module RansacFacts.
Import Ransac.

Lemma keep_best_not_accepted (st : state) (t : option (Homography * num)) :
  accepted st t = false -> keep_best st t = st.
Proof.
  unfold accepted, keep_best. destruct t as [[h d]|]; [|reflexivity].
  intros ->. reflexivity.
Qed.

Section Run.

Variable svd_Vh : matrix -> matrix.
Variable draw : nat -> nat -> list nat.
Variables src dst : list point.
Variables w max_err : Q.

Let trial' := trial svd_Vh draw src dst w max_err.
Let iteration' := iteration svd_Vh draw src dst w max_err.

(** A run in which no returning iteration is accepted leaves the state as
    it was, unless an iteration raises. *)
Lemma run_without_acceptance (idxs : list nat) (st : state) :
  (forall i t, In i idxs -> trial' i = Ok t -> accepted st t = false) ->
  for_each iteration' idxs st = Ok st \/
  exists e, for_each iteration' idxs st = Raise e.
Proof.
  induction idxs as [|i idxs IH]; intros Hno; simpl; [left; reflexivity|].
  assert (Hit : iteration' st i = do t <- trial' i; Ok (keep_best st t)) by reflexivity.
  rewrite Hit. destruct (trial' i) as [t|e] eqn:Ht; simpl.
  - rewrite (keep_best_not_accepted st t (Hno i t (or_introl eq_refl) Ht)).
    apply IH. intros j u Hj. apply Hno. right. assumption.
  - right. exists e. reflexivity.
Qed.

Lemma run_without_acceptance_ok (idxs : list nat) (st : state) :
  (forall i t, In i idxs -> trial' i = Ok t -> accepted st t = false) ->
  (forall i, In i idxs -> exists t, trial' i = Ok t) ->
  for_each iteration' idxs st = Ok st.
Proof.
  induction idxs as [|i idxs IH]; intros Hno Hok; simpl; [reflexivity|].
  assert (Hit : iteration' st i = do t <- trial' i; Ok (keep_best st t)) by reflexivity.
  rewrite Hit. destruct (Hok i) as [t Ht]; [left; reflexivity|]. rewrite Ht. simpl.
  rewrite (keep_best_not_accepted st t (Hno i t (or_introl eq_refl) Ht)).
  apply IH.
  - intros j u Hj. apply Hno. right. assumption.
  - intros j Hj. apply Hok. right. assumption.
Qed.

(** What a trial that reaches step d returns: the refined homography with
    the [dist_mse] of its own scoring. *)
Lemma trial_refined (i : nat) (h : Homography) (d : num) :
  trial' i = Ok (Some (h, d)) ->
  exists fit, Scorer.test_homography h src dst max_err = Ok (fit, d).
Proof.
  unfold trial', trial.
  destruct (sample draw i (length src) 4) as [sel|]; simpl; [|discriminate].
  destruct (take_columns src sel) as [ss|]; simpl; [|discriminate].
  destruct (take_columns dst sel) as [ds|]; simpl; [|discriminate].
  destruct (Naive.compute_homography_naive svd_Vh ss ds) as [h1|]; simpl; [|discriminate].
  destruct (Scorer.meet_the_model_points h1 src dst max_err) as [[ms md]|];
    simpl; [|discriminate].
  destruct (Scorer.test_homography h1 src dst max_err) as [[f1 d1]|];
    simpl; [|discriminate].
  destruct (Qle_bool w f1); [|discriminate].
  destruct (Naive.compute_homography_naive svd_Vh ms md) as [h2|]; simpl; [|discriminate].
  destruct (Scorer.test_homography h2 src dst max_err) as [[f2 d2]|] eqn:E2;
    simpl; [|discriminate].
  intros E. inversion E; subst. exists f2. assumption.
Qed.

End Run.

(** A homography without inliers is scored with the sentinel. *)
Lemma zero_inliers_sentinel (h : Homography) (src dst : list point) (e : Q)
    sn dv (fit : Q) (d : num) :
  Scorer.get_vectors_and_inliers h src dst e = Ok (sn, dv, []) ->
  Scorer.test_homography h src dst e = Ok (fit, d) ->
  d = Rat Scorer.sentinel.
Proof.
  intros Hg. unfold Scorer.test_homography. rewrite Hg. cbn [rbind length].
  destruct (length src =? 0)%nat; [discriminate|].
  intros E. inversion E. reflexivity.
Qed.

(** Transitivity, as far as the loop needs it: a value below a best that
    does not exceed [c] does not exceed [c] either. *)
Lemma below_stays (c : Q) (d m : num) :
  (0 <= c)%Q ->
  num_ltb d m = true -> num_ltb (Rat c) m = false -> num_ltb (Rat c) d = false.
Proof.
  intros Hc. destruct d as [x|x|], m as [y|y|]; simpl; try discriminate.
  - rewrite Qltb_lt, !Qltb_false. intros. lra.
  - rewrite orb_true_iff, orb_false_iff, !Qltb_lt, !Qltb_false.
    unfold Qsq. intros Hd [_ Hm]. destruct Hd as [Hd|Hd]; [lra|].
    destruct (Qlt_le_dec c x) as [L|L]; [|assumption]. exfalso. nra.
  - rewrite andb_true_iff, orb_false_iff, !Qltb_lt, !Qltb_false.
    unfold Qsq. intros [Hy Hd] Hm. split; [assumption|]. nra.
  - rewrite !orb_false_iff, Qltb_lt, !Qltb_false.
    intros Hd [Hc' Hm]. split; [assumption | lra].
Qed.

Lemma keep_best_below (c : Q) (st : state) (t : option (Homography * num)) :
  (0 <= c)%Q ->
  num_ltb (Rat c) (mse_value st) = false ->
  num_ltb (Rat c) (mse_value (keep_best st t)) = false.
Proof.
  intros Hc Hst. unfold keep_best. destruct t as [[h d]|]; [|assumption].
  destruct (num_ltb d (mse_value st)) eqn:E; [|assumption].
  simpl. apply (below_stays c d (mse_value st)); assumption.
Qed.

Lemma run_below (svd_Vh : matrix -> matrix) (draw : nat -> nat -> list nat)
    (src dst : list point) (w max_err : Q) (c : Q) (idxs : list nat) (st st' : state) :
  (0 <= c)%Q ->
  num_ltb (Rat c) (mse_value st) = false ->
  for_each (iteration svd_Vh draw src dst w max_err) idxs st = Ok st' ->
  num_ltb (Rat c) (mse_value st') = false.
Proof.
  intros Hc. revert st. induction idxs as [|i idxs IH]; simpl; intros st Hst E.
  - inversion E; subst. assumption.
  - unfold iteration at 1 in E.
    destruct (trial svd_Vh draw src dst w max_err i) as [t|]; simpl in E; [|discriminate].
    apply (IH (keep_best st t)); [|assumption].
    apply keep_best_below; assumption.
Qed.

End RansacFacts.

Module RansacClaims.
Import Ransac RansacFacts.

(** [compute_homography] has no homography parameter and no fallback: the
    local [homography] is bound in the accepted branch only.  When none of
    the k * 10 iterations satisfies step d the call never returns: it
    raises, and when every iteration runs to its end the exception is the
    [UnboundLocalError] of [return homography]. *)
Lemma no_acceptance_raises
    (svd_Vh : matrix -> matrix) (ransac_k : Q -> result Z)
    (draw : nat -> nat -> list nat)
    (src dst : list point) (w max_err : Q) (k : Z) :
  ransac_k w = Ok k ->
  (forall i t, (i < Z.to_nat (k * 10))%nat ->
               trial svd_Vh draw src dst w max_err i = Ok t ->
               accepted initial_state t = false) ->
  (exists e, compute_homography svd_Vh ransac_k draw src dst w max_err = Raise e) /\
  ((forall i, (i < Z.to_nat (k * 10))%nat ->
              exists t, trial svd_Vh draw src dst w max_err i = Ok t) ->
   compute_homography svd_Vh ransac_k draw src dst w max_err = Raise UnboundLocalError).
Proof.
  intros Hk Hno. unfold compute_homography, run_loop. rewrite Hk. cbn [rbind].
  assert (Hno' : forall i t, In i (seq 0 (Z.to_nat (k * 10))) ->
                   trial svd_Vh draw src dst w max_err i = Ok t ->
                   accepted initial_state t = false).
  { intros i t Hi. apply Hno. apply in_seq in Hi. lia. }
  split.
  - destruct (run_without_acceptance svd_Vh draw src dst w max_err
                (seq 0 (Z.to_nat (k * 10))) initial_state Hno') as [E|[e E]];
      rewrite E; simpl.
    + exists UnboundLocalError. reflexivity.
    + exists e. reflexivity.
  - intros Hok.
    rewrite (run_without_acceptance_ok svd_Vh draw src dst w max_err
               (seq 0 (Z.to_nat (k * 10))) initial_state Hno').
    + reflexivity.
    + intros i Hi. apply Hok. apply in_seq in Hi. lia.
Qed.

(** C6, amended: a refined candidate without inliers is scored with the
    sentinel 10^9, which is below the initial [mse_value] of 10^9 + 1: it
    is stored when it is the first to reach step d.  Once [mse_value] does
    not exceed 10^9, in that iteration and in every later one such a
    candidate is not stored. *)
Theorem C6_zero_inlier_candidate
    (svd_Vh : matrix -> matrix) (draw : nat -> nat -> list nat)
    (src dst : list point) (w max_err : Q)
    (i : nat) (h : Homography) (d : num) sn dv :
  trial svd_Vh draw src dst w max_err i = Ok (Some (h, d)) ->
  Scorer.get_vectors_and_inliers h src dst max_err = Ok (sn, dv, []) ->
  d = Rat (inject_Z (10 ^ 9)) /\
  iteration svd_Vh draw src dst w max_err initial_state i =
    Ok {| homography := Some h; mse_value := Rat (inject_Z (10 ^ 9)) |} /\
  (forall st idxs st',
     num_ltb (Rat (inject_Z (10 ^ 9))) (mse_value st) = false ->
     for_each (iteration svd_Vh draw src dst w max_err) idxs st = Ok st' ->
     iteration svd_Vh draw src dst w max_err st' i = Ok st').
Proof.
  intros Ht Hzero.
  destruct (trial_refined svd_Vh draw src dst w max_err i h d Ht) as [fit Hfit].
  pose proof (zero_inliers_sentinel h src dst max_err sn dv fit d Hzero Hfit) as Hd.
  change Scorer.sentinel with (inject_Z (10 ^ 9)) in Hd. subst d.
  split; [reflexivity|]. split.
  - unfold iteration. rewrite Ht. reflexivity.
  - intros st idxs st' Hst Hrun.
    assert (Hst' : num_ltb (Rat (inject_Z (10 ^ 9))) (mse_value st') = false).
    { apply (run_below svd_Vh draw src dst w max_err _ idxs st st'); try assumption.
      discriminate. }
    unfold iteration. rewrite Ht. cbn [rbind keep_best]. rewrite Hst'. reflexivity.
Qed.

End RansacClaims.

(** ** Truncation *)

Lemma Qtrunc_lower (n : Z) (q : Q) :
  (0 <= n)%Z -> (inject_Z n <= q)%Q -> (n <= Qtrunc q)%Z.
Proof.
  intros Hn Hq. destruct q as [a b]. unfold Qtrunc, Qle in *. simpl in *.
  assert (Ha : (0 <= a)%Z) by nia.
  rewrite Z.quot_div_nonneg by lia.
  apply Z.div_le_lower_bound; lia.
Qed.

Lemma Qtrunc_inject_Z (n : Z) : Qtrunc (inject_Z n) = n.
Proof. unfold Qtrunc. simpl. apply Z.quot_1_r. Qed.

Lemma fold_left_invariant {A B} (Inv : A -> Prop) (f : A -> B -> A) (l : list B) (a : A) :
  (forall x b, In b l -> Inv x -> Inv (f x b)) -> Inv a -> Inv (fold_left f l a).
Proof.
  revert a. induction l as [|b l IH]; intros a Hf Ha; simpl; [assumption|].
  apply IH.
  - intros x b' Hb. apply Hf. right. assumption.
  - apply Hf; [left; reflexivity | assumption].
Qed.

(** ** The canvas geometry: claim C9 *)

Module GeometryFacts.
Import Geometry.

Lemma py_max_ok (a b : ext) : pad_ok a -> pad_ok b -> pad_ok (py_max a b).
Proof. unfold py_max. destruct (ext_ltb a b); auto. Qed.

Lemma py_max_fin (a b : ext) : is_fin a -> is_fin b -> is_fin (py_max a b).
Proof. unfold py_max. destruct (ext_ltb a b); auto. Qed.

Lemma abs_ok (c : ext) (b : ext) : ext_ltb c b = true -> pad_ok (ext_abs c).
Proof.
  destruct c as [x| | |]; simpl; auto.
  - intros _. apply Qabs_nonneg.
  - discriminate.
Qed.

Lemma excess_ok (c : ext) (d : Q) :
  ext_ltb (Fin d) c = true -> pad_ok (ext_sub c (Fin d)).
Proof.
  destruct c as [x| | |]; simpl; auto; try discriminate.
  rewrite Qltb_lt. intros. lra.
Qed.

Lemma abs_fin (c : ext) : is_fin c -> is_fin (ext_abs c).
Proof. destruct c; simpl; auto. Qed.

Lemma excess_fin (c : ext) (d : Q) : is_fin c -> is_fin (ext_sub c (Fin d)).
Proof. destruct c; simpl; auto. Qed.

Lemma pad_step_ok (r c : nat) (p : pads) (corner : ext * ext * ext) :
  pads_ok p -> pads_ok (pad_step r c p corner).
Proof.
  intros (Hu & Hd & Hr & Hl). destruct corner as [[c0 c1] c2].
  unfold pad_step, pads_ok. cbn [up down right left].
  repeat split.
  - destruct (ext_ltb c1 (Fin 1)) eqn:E; [|assumption].
    apply py_max_ok; [assumption | apply (abs_ok _ _ E)].
  - destruct (ext_ltb (Fin (inject_Z (Z.of_nat r))) c1) eqn:E; [|assumption].
    apply py_max_ok; [assumption | apply (excess_ok _ _ E)].
  - destruct (ext_ltb (Fin (inject_Z (Z.of_nat c))) c0) eqn:E; [|assumption].
    apply py_max_ok; [assumption | apply (excess_ok _ _ E)].
  - destruct (ext_ltb c0 (Fin 1)) eqn:E; [|assumption].
    apply py_max_ok; [assumption | apply (abs_ok _ _ E)].
Qed.

Lemma pad_step_fin (r c : nat) (p : pads) (corner : ext * ext * ext) :
  is_fin (fst (fst corner)) -> is_fin (snd (fst corner)) ->
  pads_fin p -> pads_fin (pad_step r c p corner).
Proof.
  destruct corner as [[c0 c1] c2]. cbn [fst snd]. intros H0 H1 (Hu & Hd & Hr & Hl).
  unfold pad_step, pads_fin. cbn [up down right left].
  repeat split.
  - destruct (ext_ltb c1 (Fin 1)); [|assumption].
    apply py_max_fin; [assumption | apply abs_fin; assumption].
  - destruct (ext_ltb (Fin (inject_Z (Z.of_nat r))) c1); [|assumption].
    apply py_max_fin; [assumption | apply excess_fin; assumption].
  - destruct (ext_ltb (Fin (inject_Z (Z.of_nat c))) c0); [|assumption].
    apply py_max_fin; [assumption | apply excess_fin; assumption].
  - destruct (ext_ltb c0 (Fin 1)); [|assumption].
    apply py_max_fin; [assumption | apply abs_fin; assumption].
Qed.

Lemma ext_div_fin (a b : Q) : ~ (b == 0)%Q -> is_fin (ext_div a b).
Proof.
  intros Hb. unfold ext_div. destruct (Qeqb b 0) eqn:E; [|exact I].
  apply Qeqb_eq in E. contradiction.
Qed.

Lemma transform_edge_fin (H : Homography) (corner : vec3) :
  ~ (snd (mat_vec H corner) == 0)%Q ->
  is_fin (fst (fst (transform_edge H corner))) /\
  is_fin (snd (fst (transform_edge H corner))).
Proof.
  unfold transform_edge. destruct (mat_vec H corner) as [[t0 t1] t2]. simpl.
  intros Ht. split; apply ext_div_fin; assumption.
Qed.

(** The value that the two sums and the four casts return when the maxima
    are finite. *)
Lemma int_of_padded (d : nat) (a b : ext) (z : Z) :
  pad_ok a -> pad_ok b ->
  ext_int (ext_add (ext_add (Fin (inject_Z (Z.of_nat d))) a) b) = Ok z ->
  (Z.of_nat d <= z)%Z.
Proof.
  destruct a as [x| | |], b as [y| | |]; simpl; try discriminate; try contradiction.
  intros Hx Hy E. inversion E. apply Qtrunc_lower; [lia | lra].
Qed.

Lemma int_of_pad (a : ext) (z : Z) : pad_ok a -> ext_int a = Ok z -> (0 <= z)%Z.
Proof.
  destruct a as [x| | |]; simpl; try discriminate; try contradiction.
  intros Hx E. inversion E. apply Qtrunc_lower; [lia | assumption].
Qed.

Lemma fin_int (a : ext) : is_fin a -> exists z, ext_int a = Ok z.
Proof. destruct a; simpl; try contradiction. eexists. reflexivity. Qed.

Lemma fin_add (a b : ext) : is_fin a -> is_fin b -> is_fin (ext_add a b).
Proof. destruct a, b; simpl; auto. Qed.

Section Shape.

Context {A B : Type}.
Variable src_image : ndarray A.
Variable dst_image : ndarray B.
Variable homography : Homography.

Let final_pads : pads :=
  fold_left (pad_step (shape_rows (shape dst_image)) (shape_cols (shape dst_image)))
            (map (transform_edge homography)
                 (src_edges (shape_rows (shape src_image)) (shape_cols (shape src_image))))
            no_pads.

Lemma final_pads_ok : pads_ok final_pads.
Proof.
  apply fold_left_invariant.
  - intros p c _. apply pad_step_ok.
  - unfold pads_ok, no_pads. simpl. repeat split; apply Qle_refl.
Qed.

Lemma final_pads_fin :
  (forall c, In c (src_edges (shape_rows (shape src_image)) (shape_cols (shape src_image))) ->
             ~ (snd (mat_vec homography c) == 0)%Q) ->
  pads_fin final_pads.
Proof.
  intros Hfin. apply fold_left_invariant.
  - intros p c Hc Hp. apply in_map_iff in Hc. destruct Hc as [c0 [<- Hc0]].
    destruct (transform_edge_fin homography c0 (Hfin c0 Hc0)).
    apply pad_step_fin; assumption.
  - unfold pads_fin, no_pads. simpl. auto.
Qed.

(** Whenever the function returns, the canvas is at least as large as the
    destination image and no padding is negative. *)
Lemma returned_shape (rows cols : Z) (p : PadStruct) :
  find_panorama_shape src_image dst_image homography = Ok (rows, cols, p) ->
  (Z.of_nat (shape_rows (shape dst_image)) <= rows)%Z /\
  (Z.of_nat (shape_cols (shape dst_image)) <= cols)%Z /\
  (0 <= pad_up p)%Z /\ (0 <= pad_down p)%Z /\
  (0 <= pad_left p)%Z /\ (0 <= pad_right p)%Z.
Proof.
  unfold find_panorama_shape. fold final_pads.
  destruct final_pads_ok as (Hu & Hd & Hr & Hl).
  destruct (ext_int (ext_add (ext_add
              (Fin (inject_Z (Z.of_nat (shape_cols (shape dst_image))))) (right final_pads))
              (left final_pads))) as [c|] eqn:Ec; cbn [rbind]; [|discriminate].
  destruct (ext_int (ext_add (ext_add
              (Fin (inject_Z (Z.of_nat (shape_rows (shape dst_image))))) (up final_pads))
              (down final_pads))) as [r|] eqn:Er; cbn [rbind]; [|discriminate].
  destruct (ext_int (up final_pads)) as [pu|] eqn:Eu; simpl; [|discriminate].
  destruct (ext_int (down final_pads)) as [pd|] eqn:Ed; simpl; [|discriminate].
  destruct (ext_int (left final_pads)) as [pl|] eqn:El; simpl; [|discriminate].
  destruct (ext_int (right final_pads)) as [pr|] eqn:Epr; simpl; [|discriminate].
  intros E. inversion E; subst. simpl.
  split; [apply (int_of_padded _ _ _ _ Hu Hd Er)|].
  split; [apply (int_of_padded _ _ _ _ Hr Hl Ec)|].
  split; [apply (int_of_pad _ _ Hu Eu)|].
  split; [apply (int_of_pad _ _ Hd Ed)|].
  split; [apply (int_of_pad _ _ Hl El) | apply (int_of_pad _ _ Hr Epr)].
Qed.

(** The function returns when no projected corner is at infinity. *)
Lemma finite_corners_return :
  (forall c, In c (src_edges (shape_rows (shape src_image)) (shape_cols (shape src_image))) ->
             ~ (snd (mat_vec homography c) == 0)%Q) ->
  exists r, find_panorama_shape src_image dst_image homography = Ok r.
Proof.
  intros Hfin. destruct (final_pads_fin Hfin) as (Hu & Hd & Hr & Hl).
  unfold find_panorama_shape. fold final_pads.
  destruct (fin_int (ext_add (ext_add
              (Fin (inject_Z (Z.of_nat (shape_cols (shape dst_image))))) (right final_pads))
              (left final_pads))) as [c ->].
  { apply fin_add; [apply fin_add; [exact I | assumption] | assumption]. }
  destruct (fin_int (ext_add (ext_add
              (Fin (inject_Z (Z.of_nat (shape_rows (shape dst_image))))) (up final_pads))
              (down final_pads))) as [r ->].
  { apply fin_add; [apply fin_add; [exact I | assumption] | assumption]. }
  destruct (fin_int _ Hu) as [pu ->]. destruct (fin_int _ Hd) as [pd ->].
  destruct (fin_int _ Hl) as [pl ->]. destruct (fin_int _ Hr) as [pr ->].
  simpl. eexists. reflexivity.
Qed.

End Shape.

(** C9, amended: for every source image, destination image and homography
    that sends none of the four source corners to infinity (a non-zero third
    coordinate), [find_panorama_shape] returns a row count and a column
    count at least those of the destination image, and four paddings that
    are not negative. *)
Theorem C9_canvas_contains_destination {A B : Type}
    (src_image : ndarray A) (dst_image : ndarray B) (homography : Homography) :
  (forall c, In c (src_edges (shape_rows (shape src_image)) (shape_cols (shape src_image))) ->
             ~ (snd (mat_vec homography c) == 0)%Q) ->
  exists rows cols p,
    find_panorama_shape src_image dst_image homography = Ok (rows, cols, p) /\
    (Z.of_nat (shape_rows (shape dst_image)) <= rows)%Z /\
    (Z.of_nat (shape_cols (shape dst_image)) <= cols)%Z /\
    (0 <= pad_up p)%Z /\ (0 <= pad_down p)%Z /\
    (0 <= pad_left p)%Z /\ (0 <= pad_right p)%Z.
Proof.
  intros Hfin.
  destruct (finite_corners_return src_image dst_image homography Hfin) as [[[rows cols] p] E].
  exists rows, cols, p. split; [assumption|].
  apply (returned_shape src_image dst_image homography rows cols p E).
Qed.

End GeometryFacts.

(** ** Arrays *)

Lemma cell_at_zeros {A} (z : A) (s : nat * nat * nat) (y x k : nat) :
  (y < shape_rows s)%nat -> (x < shape_cols s)%nat -> (k < shape_chans s)%nat ->
  cell_at (cells (zeros z s)) y x k = Some z.
Proof.
  intros Hy Hx Hk. unfold cell_at, zeros. cbn [cells].
  rewrite (lookup_replicate_2 _ _ _ Hy), (lookup_replicate_2 _ _ _ Hx).
  apply lookup_replicate_2. assumption.
Qed.

Lemma cell_at_map {A B} (f : A -> B) (a : list (list (list A))) (y x k : nat) :
  cell_at (map (map (map f)) a) y x k = option_map f (cell_at a y x k).
Proof.
  unfold cell_at. rewrite lookup_map.
  destruct (a !! y) as [row|]; simpl; [|reflexivity].
  rewrite lookup_map. destruct (row !! x) as [px|]; simpl; [|reflexivity].
  apply lookup_map.
Qed.

Lemma cell_at_well_shaped {A} (a : ndarray A) (y x k : nat) :
  well_shaped a ->
  (y < shape_rows (shape a))%nat -> (x < shape_cols (shape a))%nat ->
  (k < shape_chans (shape a))%nat ->
  exists v, cell_at (cells a) y x k = Some v.
Proof.
  intros [Hrows Hall] Hy Hx Hk. unfold cell_at.
  destruct (lookup_lt_is_Some_2 (cells a) y) as [row Hrow]; [lia|].
  rewrite Hrow. rewrite Forall_forall in Hall.
  destruct (Hall row) as [Hlen Hpx].
  { apply (list_elem_of_lookup_2 _ y). assumption. }
  destruct (lookup_lt_is_Some_2 row x) as [px Hpxl]; [lia|].
  rewrite Hpxl. rewrite Forall_forall in Hpx.
  assert (Hk' : length px = shape_chans (shape a)).
  { apply Hpx. apply (list_elem_of_lookup_2 _ x). assumption. }
  destruct (lookup_lt_is_Some_2 px k) as [v Hv]; [lia|].
  exists v. assumption.
Qed.

(** ** The compositor: claim C10 *)

Module PanoramaFacts.
Import Panorama.

Lemma slice_index_inside (i : Z) (dim : nat) :
  (0 <= i <= Z.of_nat dim)%Z -> slice_index i dim = Z.to_nat i.
Proof.
  intros Hi. unfold slice_index.
  destruct (Z.ltb_spec i 0); [lia|]. f_equal. lia.
Qed.

Lemma slice_bounds_inside (a b : Z) (dim : nat) :
  (0 <= a <= b)%Z -> (b <= Z.of_nat dim)%Z ->
  slice_bounds a b dim = (Z.to_nat a, Z.to_nat b).
Proof.
  intros Ha Hb. unfold slice_bounds.
  rewrite !slice_index_inside by lia. f_equal. lia.
Qed.

Lemma assign_region_shape {A} (canvas : ndarray A) (rs cs : nat * nat)
    (value res : ndarray A) :
  assign_region canvas rs cs value = Ok res -> shape res = shape canvas.
Proof.
  unfold assign_region. destruct rs as [r0 r1], cs as [c0 c1].
  destruct (shape value) as [[vr vc] vch].
  destruct (negb _); [discriminate|]. intros E. inversion E. reflexivity.
Qed.

(** What a slice assignment leaves in a cell of the canvas. *)
Lemma assign_region_cell {A} (canvas : ndarray A) (r0 r1 c0 c1 : nat)
    (value res : ndarray A) (y x k : nat) (old : A) :
  assign_region canvas (r0, r1) (c0, c1) value = Ok res ->
  cell_at (cells canvas) y x k = Some old ->
  cell_at (cells res) y x k =
  Some (if ((r0 <=? y)%nat && (y <? r1)%nat) && ((c0 <=? x)%nat && (x <? c1)%nat)
        then match cell_at (cells value)
                     (broadcast_index (shape_rows (shape value)) (y - r0))
                     (broadcast_index (shape_cols (shape value)) (x - c0))
                     (broadcast_index (shape_chans (shape value)) k) with
             | Some v => v
             | None => old
             end
        else old).
Proof.
  unfold assign_region, shape_rows, shape_cols, shape_chans.
  destruct (shape value) as [[vr vc] vch]. cbn [fst snd].
  destruct (negb _); [discriminate|]. intros E. inversion E. clear E. cbn [cells].
  unfold cell_at at 1 2. rewrite list_lookup_imap.
  destruct (cells canvas !! y) as [row|]; cbn [fmap option_fmap option_map]; [|discriminate].
  destruct ((r0 <=? y)%nat && (y <? r1)%nat); cbn [andb].
  - rewrite list_lookup_imap.
    destruct (row !! x) as [px|]; cbn [fmap option_fmap option_map]; [|discriminate].
    destruct ((c0 <=? x)%nat && (x <? c1)%nat).
    + rewrite list_lookup_imap. intros ->. reflexivity.
    + intros ->. reflexivity.
  - destruct (row !! x) as [px|]; [|discriminate]. intros ->. reflexivity.
Qed.

Lemma assign_region_returns {A} (canvas : ndarray A) (r0 r1 c0 c1 : nat)
    (value : ndarray A) :
  shape value = ((r1 - r0)%nat, (c1 - c0)%nat, shape_chans (shape canvas)) ->
  exists res, assign_region canvas (r0, r1) (c0, c1) value = Ok res.
Proof.
  intros Hs. unfold assign_region. rewrite Hs.
  unfold broadcastable. rewrite !Nat.eqb_refl. simpl. eexists. reflexivity.
Qed.

(** A channel value of an 8-bit image survives the clip and the cast. *)
Lemma clip_cast_byte (nan_as_int : Z) (v : Z) :
  (0 <= v <= 255)%Z -> to_uint8 nan_as_int (clip (Fin (inject_Z v))) = v.
Proof.
  intros Hv. unfold clip.
  assert (H0 : Qltb (inject_Z v) 0 = false).
  { apply Qltb_false. change 0%Q with (inject_Z 0). rewrite <- Zle_Qle. lia. }
  assert (H1 : Qltb 255 (inject_Z v) = false).
  { apply Qltb_false. change 255%Q with (inject_Z 255). rewrite <- Zle_Qle. lia. }
  rewrite H0, H1. unfold to_uint8. rewrite Qtrunc_inject_Z.
  apply Z.mod_small. lia.
Qed.

Lemma to_uint8_range (nan_as_int : Z) (x : ext) :
  (0 <= to_uint8 nan_as_int x <= 255)%Z.
Proof.
  unfold to_uint8.
  destruct x as [q| | |];
    match goal with |- (0 <= ?a mod 256 <= 255)%Z =>
      pose proof (Z.mod_pos_bound a 256 ltac:(lia)); lia end.
Qed.

End PanoramaFacts.

Module PanoramaClaims.
Import Panorama PanoramaFacts Geometry GeometryFacts.

Lemma Qtrunc_below (q : Q) : (0 <= q)%Q -> (inject_Z (Qtrunc q) <= q)%Q.
Proof.
  destruct q as [a b]. unfold Qtrunc, Qle. simpl. intros Ha.
  assert (Ha' : (0 <= a)%Z) by lia.
  rewrite Z.quot_div_nonneg by lia.
  rewrite Z.mul_1_r, Z.mul_comm. apply Z.mul_div_le. lia.
Qed.

(** The cast of one padding and the cast of the padded dimension. *)
Lemma padded_dimension (d : nat) (a b : ext) (z za zb : Z) :
  pad_ok a -> pad_ok b ->
  ext_int (ext_add (ext_add (Fin (inject_Z (Z.of_nat d))) a) b) = Ok z ->
  ext_int a = Ok za -> ext_int b = Ok zb ->
  (za + Z.of_nat d <= z)%Z /\ (zb + Z.of_nat d <= z)%Z.
Proof.
  destruct a as [x| | |], b as [y| | |]; simpl; try discriminate; try contradiction.
  intros Hx Hy E Ea Eb. inversion E. inversion Ea. inversion Eb.
  pose proof (Qtrunc_below x Hx) as Bx. pose proof (Qtrunc_below y Hy) as By.
  pose proof (Qtrunc_lower 0 x ltac:(lia) Hx) as Px.
  pose proof (Qtrunc_lower 0 y ltac:(lia) Hy) as Py.
  split; apply Qtrunc_lower; try lia; rewrite inject_Z_plus; lra.
Qed.

(** The destination image fits in the canvas at its padded offset. *)
Lemma destination_fits {A B} (src_image : ndarray A) (dst_image : ndarray B)
    (homography : Homography) (rows cols : Z) (p : PadStruct) :
  find_panorama_shape src_image dst_image homography = Ok (rows, cols, p) ->
  (pad_up p + Z.of_nat (shape_rows (shape dst_image)) <= rows)%Z /\
  (pad_left p + Z.of_nat (shape_cols (shape dst_image)) <= cols)%Z.
Proof.
  pose proof (final_pads_ok src_image dst_image homography) as Hok.
  unfold find_panorama_shape.
  set (fp := fold_left _ _ no_pads) in *.
  destruct Hok as (Hu & Hd & Hr & Hl).
  destruct (ext_int (ext_add (ext_add
              (Fin (inject_Z (Z.of_nat (shape_cols (shape dst_image))))) (right fp))
              (left fp))) as [c|] eqn:Ec; cbn [rbind]; [|discriminate].
  destruct (ext_int (ext_add (ext_add
              (Fin (inject_Z (Z.of_nat (shape_rows (shape dst_image))))) (up fp))
              (down fp))) as [r|] eqn:Er; cbn [rbind]; [|discriminate].
  destruct (ext_int (up fp)) as [pu|] eqn:Eu; cbn [rbind]; [|discriminate].
  destruct (ext_int (down fp)) as [pd|] eqn:Ed; cbn [rbind]; [|discriminate].
  destruct (ext_int (left fp)) as [pl|] eqn:El; cbn [rbind]; [|discriminate].
  destruct (ext_int (right fp)) as [pr|] eqn:Epr; cbn [rbind]; [|discriminate].
  intros E. inversion E; subst. cbn [pad_up pad_left].
  destruct (padded_dimension _ _ _ _ _ _ Hu Hd Er Eu Ed).
  destruct (padded_dimension _ _ _ _ _ _ Hr Hl Ec Epr El).
  split; assumption.
Qed.

Lemma broadcast_index_lt (v i : nat) : (i < v)%nat -> broadcast_index v i = i.
Proof.
  intros Hi. unfold broadcast_index.
  destruct (Nat.eqb_spec v 1); [lia | reflexivity].
Qed.

Lemma assign_region_fits {A} (canvas : ndarray A) (r0 r1 c0 c1 : nat)
    (value : ndarray A) (vr vc vch : nat) :
  shape value = (vr, vc, vch) ->
  vr = (r1 - r0)%nat -> vc = (c1 - c0)%nat -> vch = shape_chans (shape canvas) ->
  exists res, assign_region canvas (r0, r1) (c0, c1) value = Ok res.
Proof.
  intros Hs -> -> ->. apply assign_region_returns. assumption.
Qed.

Section Compose.

Variable nan_as_int : Z.
Variables rows cols : Z.
Variable pad : PadStruct.
Variable backward_map : ndarray ext.
Variable dst_image : ndarray Z.
Variables h w : nat.

Hypothesis pad_up_nonneg : (0 <= pad_up pad)%Z.
Hypothesis pad_left_nonneg : (0 <= pad_left pad)%Z.
Hypothesis rows_fit : (pad_up pad + Z.of_nat h <= rows)%Z.
Hypothesis cols_fit : (pad_left pad + Z.of_nat w <= cols)%Z.
Hypothesis backward_shape : shape backward_map = (Z.to_nat rows, Z.to_nat cols, 3%nat).
Hypothesis dst_shape : shape dst_image = (h, w, 3%nat).
Hypothesis dst_well_shaped : well_shaped dst_image.
Hypothesis dst_bytes :
  forall y x k v, cell_at (cells dst_image) y x k = Some v -> (0 <= v <= 255)%Z.

(** Steps 5 to 7 on a warped image of the canvas shape: they return, every
    value of the result is a byte, and the destination image is read back
    unchanged at its padded offset. *)
Lemma compose_spec :
  exists img,
    compose nan_as_int rows cols pad backward_map dst_image = Ok img /\
    shape img = (Z.to_nat rows, Z.to_nat cols, 3%nat) /\
    (forall y x k v, cell_at (cells img) y x k = Some v -> (0 <= v <= 255)%Z) /\
    (forall i j k, (i < h)%nat -> (j < w)%nat -> (k < 3)%nat ->
       cell_at (cells img) (Z.to_nat (pad_up pad) + i) (Z.to_nat (pad_left pad) + j) k =
       cell_at (cells dst_image) i j k).
Proof.
  unfold compose, zero_canvas.
  destruct (Z.ltb_spec rows 0); [lia|]. destruct (Z.ltb_spec cols 0); [lia|].
  cbn [orb rbind]. set (canvas0 := zeros (Fin 0) (Z.to_nat rows, Z.to_nat cols, 3%nat)).
  change (shape canvas0) with (Z.to_nat rows, Z.to_nat cols, 3%nat). cbv iota beta.
  rewrite backward_shape, dst_shape. cbn [shape_rows shape_cols fst snd].
  rewrite !Z2Nat.id by lia.
  rewrite (slice_bounds_inside 0 rows) by lia.
  rewrite (slice_bounds_inside 0 cols) by lia.
  rewrite (slice_bounds_inside (pad_up pad)) by lia.
  rewrite (slice_bounds_inside (pad_left pad)) by lia.
  destruct (assign_region_fits canvas0 (Z.to_nat 0) (Z.to_nat rows) (Z.to_nat 0)
              (Z.to_nat cols) backward_map _ _ _ backward_shape) as [canvas1 E1];
    [simpl; lia | simpl; lia | reflexivity |].
  rewrite E1. cbn [rbind].
  pose proof (assign_region_shape _ _ _ _ _ E1) as S1.
  destruct (assign_region_fits canvas1 (Z.to_nat (pad_up pad))
              (Z.to_nat (pad_up pad + Z.of_nat h)) (Z.to_nat (pad_left pad))
              (Z.to_nat (pad_left pad + Z.of_nat w))
              (ndarray_map (fun v => Fin (inject_Z v)) dst_image) h w 3%nat)
    as [canvas2 E2]; [exact dst_shape | lia | lia | rewrite S1; reflexivity |].
  rewrite E2. cbn [rbind].
  pose proof (assign_region_shape _ _ _ _ _ E2) as S2.
  eexists. split; [reflexivity|]. cbn [shape cells ndarray_map].
  split; [rewrite S2, S1; reflexivity|]. split.
  - intros y x k v. rewrite cell_at_map.
    destruct (cell_at (cells canvas2) y x k); simpl; [|discriminate].
    intros E. inversion E. apply to_uint8_range.
  - intros i j k Hi Hj Hk. rewrite cell_at_map.
    assert (Hz : cell_at (cells canvas0) (Z.to_nat (pad_up pad) + i)
                   (Z.to_nat (pad_left pad) + j) k = Some (Fin 0)).
    { apply cell_at_zeros; cbn [shape_rows shape_cols shape_chans fst snd]; lia. }
    pose proof (assign_region_cell _ _ _ _ _ _ _ _ _ _ _ E1 Hz) as C1.
    pose proof (assign_region_cell _ _ _ _ _ _ _ _ _ _ _ E2 C1) as C2.
    rewrite C2. clear C1 C2.
    assert (Hin : ((Z.to_nat (pad_up pad) <=? Z.to_nat (pad_up pad) + i)%nat &&
                   (Z.to_nat (pad_up pad) + i <? Z.to_nat (pad_up pad + Z.of_nat h))%nat) &&
                  ((Z.to_nat (pad_left pad) <=? Z.to_nat (pad_left pad) + j)%nat &&
                   (Z.to_nat (pad_left pad) + j <? Z.to_nat (pad_left pad + Z.of_nat w))%nat)
                  = true).
    { rewrite !andb_true_iff, !Nat.leb_le, !Nat.ltb_lt. lia. }
    rewrite Hin. cbn [ndarray_map shape cells]. rewrite dst_shape.
    cbn [shape_rows shape_cols shape_chans fst snd].
    replace (Z.to_nat (pad_up pad) + i - Z.to_nat (pad_up pad))%nat with i by lia.
    replace (Z.to_nat (pad_left pad) + j - Z.to_nat (pad_left pad))%nat with j by lia.
    rewrite !broadcast_index_lt by assumption.
    rewrite cell_at_map.
    destruct (cell_at_well_shaped dst_image i j k dst_well_shaped) as [v Hv];
      try (rewrite dst_shape; cbn [shape_rows shape_cols shape_chans fst snd]; assumption).
    rewrite Hv. cbn [option_map]. f_equal.
    apply clip_cast_byte. apply (dst_bytes i j k v Hv).
Qed.

End Compose.

(** C10: when both robust estimations, the canvas geometry and the backward
    warp return (the warp with the canvas shape it was asked for), then for
    a destination image of bytes [panorama] returns an image of the canvas
    shape whose every channel value lies in [0,255] and whose region at
    offset (pad_up, pad_left) of the size of the destination image equals
    the destination image, cell for cell. *)
Theorem C10_panorama_bytes_and_destination
    (svd_Vh : matrix -> matrix) (ransac_k : Q -> result Z)
    (draw_forward draw_backward : nat -> nat -> list nat)
    (backward_map_of :
       Homography -> Z -> Z -> ndarray Z -> nat * nat * nat -> result (ndarray ext))
    (nan_as_int : Z)
    (src_image dst_image : ndarray Z) (match_p_src match_p_dst : list point)
    (inliers_percent max_err : Q)
    (homography backward_homography : Homography)
    (rows cols : Z) (pad : PadStruct) (backward_map : ndarray ext) (h w : nat) :
  Ransac.compute_homography svd_Vh ransac_k draw_forward
    match_p_src match_p_dst inliers_percent max_err = Ok homography ->
  find_panorama_shape src_image dst_image homography = Ok (rows, cols, pad) ->
  Ransac.compute_homography svd_Vh ransac_k draw_backward
    match_p_dst match_p_src inliers_percent max_err = Ok backward_homography ->
  backward_map_of backward_homography (pad_left pad) (pad_up pad) src_image
    (Z.to_nat rows, Z.to_nat cols, 3%nat) = Ok backward_map ->
  shape backward_map = (Z.to_nat rows, Z.to_nat cols, 3%nat) ->
  shape dst_image = (h, w, 3%nat) ->
  well_shaped dst_image ->
  (forall y x k v, cell_at (cells dst_image) y x k = Some v -> (0 <= v <= 255)%Z) ->
  exists img,
    panorama svd_Vh ransac_k draw_forward draw_backward backward_map_of nan_as_int
      src_image dst_image match_p_src match_p_dst inliers_percent max_err = Ok img /\
    shape img = (Z.to_nat rows, Z.to_nat cols, 3%nat) /\
    (forall y x k v, cell_at (cells img) y x k = Some v -> (0 <= v <= 255)%Z) /\
    (forall i j k, (i < h)%nat -> (j < w)%nat -> (k < 3)%nat ->
       cell_at (cells img) (Z.to_nat (pad_up pad) + i) (Z.to_nat (pad_left pad) + j) k =
       cell_at (cells dst_image) i j k).
Proof.
  intros Hfwd Hshape Hbwd Hmap Hbm Hdst Hwell Hbytes.
  unfold panorama. rewrite Hfwd. cbn [rbind]. rewrite Hshape. cbn [rbind].
  rewrite Hbwd. cbn [rbind]. rewrite Hmap. cbn [rbind].
  pose proof (returned_shape src_image dst_image homography rows cols pad Hshape)
    as (_ & _ & Hu & _ & Hl & _).
  pose proof (destination_fits src_image dst_image homography rows cols pad Hshape)
    as [Hr Hc].
  rewrite Hdst in Hr, Hc. cbn [shape_rows shape_cols fst snd] in Hr, Hc.
  apply (compose_spec nan_as_int rows cols pad backward_map dst_image h w);
    assumption.
Qed.

End PanoramaClaims.

(** ** The claims on concrete inputs *)

Module Checks.
Import Examples.

(** The rows that the stand-ins return are null vectors of the design
    matrices they answer. *)
Example translation_fits_square :
  is_null_vector (Naive.design_matrix_spec square_src square_dst) (translation 2 3) = true.
Proof. vm_compute. reflexivity. Qed.

Example translations_fit_eight :
  is_null_vector (Naive.design_matrix_spec (take 4 eight_src) (take 4 eight_dst))
                 (translation (3 # 5) 0) = true /\
  is_null_vector (Naive.design_matrix_spec (drop 4 eight_src) (drop 4 eight_dst))
                 (translation (17 # 10) 0) = true.
Proof. split; vm_compute; reflexivity. Qed.

Example translations_fit_panorama :
  is_null_vector (Naive.design_matrix_spec square_dst square_src)
                 (translation (- 2) (- 3)) = true /\
  is_null_vector (Naive.design_matrix_spec square_src square_dst)
                 (translation 2 3) = true.
Proof. split; vm_compute; reflexivity. Qed.

Example identity_fits_three_points :
  is_null_vector (Naive.design_matrix_spec three_points three_points)
                 (translation 0 0) = true.
Proof. vm_compute. reflexivity. Qed.

(** C1: five correspondences, four of them consistent and one an outlier,
    and [inliers_percent = 1].  The candidate of every iteration fits four
    of the five correspondences, so that no iteration reaches
    [fit_percent >= 1]; the local [homography] is never bound, and the call
    ends in an [UnboundLocalError] where the claim, like the docstring of
    the function, has it return a homography. *)
Theorem C1_raises_instead_of_returning :
  Ransac.compute_homography (svd_with (translation 2 3)) ransac_k_one draw_first_four
    outlier_src outlier_dst 1 (1 # 2) = Raise UnboundLocalError /\
  (forall i,
     Ransac.trial (svd_with (translation 2 3)) draw_first_four
       outlier_src outlier_dst 1 (1 # 2) i = Ok None) /\
  Scorer.test_homography shift_23 outlier_src outlier_dst (1 # 2) = Ok (4 # 5, Sqrt 0).
Proof.
  split; [vm_compute; reflexivity|].
  split; [intros i; vm_compute; reflexivity | vm_compute; reflexivity].
Qed.

(** C2: three correspondences are answered with a homography. *)
Lemma C2_counterexample :
  exists H,
    Naive.compute_homography_naive (svd_with (translation 0 0)) three_points three_points
    = Ok H.
Proof. eexists. vm_compute. reflexivity. Qed.

Lemma C2_witness :
  exists H,
    Naive.compute_homography_naive (svd_with (translation 0 0)) three_points three_points
      = Ok H /\
    reshape33 (translation 0 0) = Ok H.
Proof.
  apply (NaiveClaims.C2_fewer_than_four_returns (svd_with (translation 0 0))
           three_points three_points (translation 0 0)).
  - reflexivity.
  - simpl. lia.
  - reflexivity.
  - reflexivity.
Defined.

(** The design matrix of the square example, as the loop leaves it. *)
Example design_matrix_of_square :
  exists ref_mat,
    Naive.build_ref_mat square_src square_dst = Ok ref_mat /\
    matrix_eqb ref_mat
      [[0; 0; 1; 0; 0; 0; 0; 0; - 2];       [0; 0; 0; 0; 0; 1; 0; 0; - 3];
       [10; 0; 1; 0; 0; 0; - 120; 0; - 12]; [0; 0; 0; 10; 0; 1; - 30; 0; - 3];
       [0; 10; 1; 0; 0; 0; 0; - 20; - 2];   [0; 0; 0; 0; 10; 1; 0; - 130; - 13];
       [10; 10; 1; 0; 0; 0; - 120; - 120; - 12];
       [0; 0; 0; 10; 10; 1; - 130; - 130; - 13]]%Q = true.
Proof. eexists. split; [vm_compute; reflexivity|]. vm_compute. reflexivity. Qed.

Lemma C3_witness :
  exists ref_mat,
    Naive.build_ref_mat square_src square_dst = Ok ref_mat /\
    length ref_mat = 8%nat /\
    (exists rx ry,
       ref_mat !! 2%nat = Some rx /\ ref_mat !! 3%nat = Some ry /\
       Forall2 Qeq rx [10; 0; 1; 0; 0; 0; - (12 * 10); - (12 * 0); - 12]%Q /\
       Forall2 Qeq ry [0; 0; 0; 10; 0; 1; - (3 * 10); - (3 * 0); - 3]%Q) /\
    Naive.compute_homography_naive (svd_with (translation 2 3)) square_src square_dst =
    Ok ((1, 0, 2), (0, 1, 3), (0, 0, 1))%Q.
Proof.
  destruct (NaiveClaims.C3_design_matrix_and_solution (svd_with (translation 2 3))
              square_src square_dst) as (ref_mat & Hb & Hl & _ & Hrows & _ & Hret).
  - reflexivity.
  - simpl. lia.
  - exists ref_mat. split; [assumption|]. split; [assumption|]. split.
    + destruct (Hrows 1%nat (10, 0)%Q (12, 3)%Q eq_refl eq_refl)
        as (rx & ry & Hx & Hy & Cx & Cy & _).
      exists rx, ry. auto.
    + apply Hret. reflexivity.
Defined.

(** C4: the source point (0.9, 0) and the destination point (0.1, 0) are
    0.8 apart under the identity, which is not below 0.5, so the
    correspondence is no inlier by the claim and by the docstring of
    [test_homography]; the cast of both arrays to integers makes the two
    points (0, 0), and the scorer lists the correspondence as an inlier and
    scores the homography with [fit_percent] 1. *)
Theorem C4_scores_truncated_points :
  (exists sn dv,
     Scorer.get_vectors_and_inliers identity [(9 # 10, 0)]%Q [(1 # 10, 0)]%Q (1 # 2) =
     Ok (sn, dv, [0%nat])) /\
  Scorer.test_homography identity [(9 # 10, 0)]%Q [(1 # 10, 0)]%Q (1 # 2) =
    Ok (1 # 1, Sqrt 0) /\
  (Scorer.reprojection_lt identity (9 # 10, 0)%Q (1 # 10, 0)%Q (1 # 2) -> False).
Proof.
  split; [eexists _, _; vm_compute; reflexivity|].
  split; [vm_compute; reflexivity|].
  unfold Scorer.reprojection_lt. simpl. intros (_ & _ & L).
  vm_compute in L. discriminate.
Qed.

Lemma C5_witness :
  exists fit_percent q,
    Scorer.test_homography identity near_src near_dst 3 = Ok (fit_percent, Sqrt q) /\
    (fit_percent == 2 # 3)%Q /\ (q == 5)%Q.
Proof.
  destruct (ScorerFacts.C5_fit_percent_and_dist_mse identity near_src near_dst 3)
    as (sn & dv & inl & fit & dist & Hg & Ht & Hfit & _ & _ & _ & Hagg).
  - reflexivity.
  - simpl. lia.
  - vm_compute in Hg. inversion Hg; subst sn dv inl. clear Hg.
    destruct Hagg as (_ & q & Hd & Hq & _); [discriminate|].
    subst dist. exists fit, q. split; [assumption|]. split.
    + rewrite Hfit. vm_compute. reflexivity.
    + rewrite Hq. vm_compute. reflexivity.
Defined.

(** C6: eight correspondences whose destination coordinates have
    fractional parts.  The first candidate (the translation by 0.6) has the
    last four correspondences as inliers on the truncated coordinates; its
    re-fit (the translation by 1.7) has none, is scored 10^9, and is stored
    as the best homography. *)
Lemma C6_counterexample :
  Ransac.iteration svd_eight draw_first_four eight_src eight_dst (1 # 2) (1 # 2)
    Ransac.initial_state 0 =
    Ok {| Ransac.homography := Some shift_17;
          Ransac.mse_value := Rat (inject_Z (10 ^ 9)) |} /\
  (exists sn dv,
     Scorer.get_vectors_and_inliers shift_17 eight_src eight_dst (1 # 2) = Ok (sn, dv, [])) /\
  Ransac.compute_homography svd_eight ransac_k_half draw_first_four
    eight_src eight_dst (1 # 2) (1 # 2) = Ok shift_17.
Proof.
  split; [vm_compute; reflexivity|].
  split; [eexists _, _; vm_compute; reflexivity|].
  vm_compute. reflexivity.
Qed.

Lemma C6_witness :
  Rat (inject_Z (10 ^ 9)) = Rat (inject_Z (10 ^ 9)) /\
  Ransac.iteration svd_eight draw_first_four eight_src eight_dst (1 # 2) (1 # 2)
    Ransac.initial_state 0 =
    Ok {| Ransac.homography := Some shift_17;
          Ransac.mse_value := Rat (inject_Z (10 ^ 9)) |} /\
  (forall st idxs st',
     num_ltb (Rat (inject_Z (10 ^ 9))) (Ransac.mse_value st) = false ->
     for_each (Ransac.iteration svd_eight draw_first_four eight_src eight_dst (1 # 2) (1 # 2))
              idxs st = Ok st' ->
     Ransac.iteration svd_eight draw_first_four eight_src eight_dst (1 # 2) (1 # 2) st' 0 =
     Ok st').
Proof.
  eapply (RansacClaims.C6_zero_inlier_candidate svd_eight draw_first_four
            eight_src eight_dst (1 # 2) (1 # 2) 0 shift_17 (Rat (inject_Z (10 ^ 9)))).
  - vm_compute. reflexivity.
  - vm_compute. reflexivity.
Defined.

(** C7: the source pixel (0, 0) is mapped to x = 0.6.  The docstring of the
    function asks for rounding, which gives column 1; [int] truncates, and
    the pixel lands in column 0 while column 1 stays zero. *)
Lemma C7_truncates_instead_of_rounding :
  Forward.compute_forward_homography_slow shift_06 one_pixel (1, 2, 3)%nat =
    Ok {| shape := (1, 2, 3)%nat; cells := [[[7; 8; 9]; [0; 0; 0]]]%Z |} /\
  Forward.rounded_target shift_06 0 0 = (1, 0)%Z.
Proof. split; vm_compute; reflexivity. Qed.

(** C8: three source pixels land in the cell (0, 0).  The loops visit the
    source row by row and the last writer is the pixel of row 1, column 0;
    the meshgrid of the vectorized version runs column by column and its
    last writer is the pixel of row 0, column 1. *)
Lemma C8_warpers_differ :
  Forward.compute_forward_homography_slow fold_diagonal four_pixels (1, 2, 3)%nat =
    Ok {| shape := (1, 2, 3)%nat; cells := [[[3; 3; 3]; [4; 4; 4]]]%Z |} /\
  Forward.compute_forward_homography_fast int64_min fold_diagonal four_pixels (1, 2, 3)%nat =
    Ok {| shape := (1, 2, 3)%nat; cells := [[[2; 2; 2]; [4; 4; 4]]]%Z |}.
Proof. split; vm_compute; reflexivity. Qed.

(** C9: a homography with a zero third row sends the corners to infinity,
    the paddings are inf, and [int] raises. *)
Lemma C9_counterexample :
  Geometry.find_panorama_shape left_image right_image to_infinity = Raise OverflowError.
Proof. vm_compute. reflexivity. Qed.

Lemma C9_witness :
  exists rows cols p,
    Geometry.find_panorama_shape left_image right_image shift_17 = Ok (rows, cols, p) /\
    (Z.of_nat (shape_rows (shape right_image)) <= rows)%Z /\
    (Z.of_nat (shape_cols (shape right_image)) <= cols)%Z /\
    (0 <= Geometry.pad_up p)%Z /\ (0 <= Geometry.pad_down p)%Z /\
    (0 <= Geometry.pad_left p)%Z /\ (0 <= Geometry.pad_right p)%Z.
Proof.
  apply (GeometryFacts.C9_canvas_contains_destination left_image right_image shift_17).
  intros c Hc E. simpl in Hc.
  destruct Hc as [<-|[<-|[<-|[<-|[]]]]]; vm_compute in E; discriminate.
Defined.

Lemma C10_witness :
  exists img,
    Panorama.panorama svd_panorama ransac_k_half draw_first_four draw_first_four
      warp_all_nan 0 left_image right_image square_dst square_src (1 # 2) (1 # 2) = Ok img /\
    shape img = (4, 3, 3)%nat /\
    (forall y x k v, cell_at (cells img) y x k = Some v -> (0 <= v <= 255)%Z) /\
    (forall i j k, (i < 2)%nat -> (j < 2)%nat -> (k < 3)%nat ->
       cell_at (cells img) (2 + i) (1 + j) k = cell_at (cells right_image) i j k).
Proof.
  apply (PanoramaClaims.C10_panorama_bytes_and_destination
           svd_panorama ransac_k_half draw_first_four draw_first_four warp_all_nan 0
           left_image right_image square_dst square_src (1 # 2) (1 # 2)
           ((1, 0, - 2), (0, 1, - 3), (0, 0, 1))%Q ((1, 0, 2), (0, 1, 3), (0, 0, 1))%Q
           4 3
           {| Geometry.pad_up := 2; Geometry.pad_down := 0;
              Geometry.pad_right := 0; Geometry.pad_left := 1 |}
           (zeros ENaN (4, 3, 3)%nat) 2 2).
  - vm_compute. reflexivity.
  - vm_compute. reflexivity.
  - vm_compute. reflexivity.
  - reflexivity.
  - reflexivity.
  - reflexivity.
  - split; [reflexivity|]. repeat constructor.
  - intros y x k v.
    destruct y as [|[|y]]; destruct x as [|[|x]]; destruct k as [|[|[|k]]];
      simpl; intros E; inversion E; lia.
Defined.

End Checks.

(** * Further properties of the code *)

(** ** More on the scorer *)

Module ScorerMore.
Import Scorer ScorerFacts Derived.

Lemma get_vectors_mismatch (H : Homography) (src dst : list point) (e : Q) :
  length src <> length dst ->
  get_vectors_and_inliers H src dst e = Raise ValueError.
Proof.
  intros Hlen. unfold get_vectors_and_inliers.
  destruct (Nat.eqb_spec (length src) (length dst)); [contradiction | reflexivity].
Qed.

(** The value of [test_homography] on a well-formed, non-empty set. *)
Lemma test_homography_value (H : Homography) (src dst : list point) (e : Q) :
  length src = length dst -> (1 <= length src)%nat ->
  exists d,
    test_homography H src dst e =
      Ok ((inject_Z (Z.of_nat (length (inliers_of H src dst e))) /
           inject_Z (Z.of_nat (length src)))%Q, d) /\
    num_nonneg d /\
    (inliers_of H src dst e = [] -> d = Rat sentinel) /\
    (inliers_of H src dst e <> [] -> exists q, d = Sqrt q).
Proof.
  intros Hlen Hn.
  pose proof (get_vectors_ok H src dst e Hlen) as Hget.
  fold (inliers_of H src dst e) in Hget.
  set (sn := map normalize (map (mat_vec H) (map int_column src))) in *.
  set (dv := map int_column dst) in *.
  assert (Hcols : forall i, In i (inliers_of H src dst e) ->
            (exists o, sn !! i = Some o /\ o <> None) /\ (exists d, dv !! i = Some d /\ True)).
  { intros i Hi. apply collect_inliers_In in Hi. destruct Hi as [_ [c [Hc Hin]]].
    rewrite Nat.sub_0_r in Hc. apply lookup_zip_with_Some in Hc.
    destruct Hc as (o & d & -> & Ho & Hd). split.
    - exists o. split; [assumption|]. apply (inlier_column_finite _ _ Hin).
    - exists d. auto. }
  destruct (take_columns_Forall (fun o => o <> None) sn (inliers_of H src dst e))
    as [s [Hs HsF]]; [intros i Hi; apply (Hcols i Hi)|].
  destruct (take_columns_Forall (fun _ => True) dv (inliers_of H src dst e))
    as [d [Hd _]]; [intros i Hi; apply (Hcols i Hi)|].
  destruct (frobenius_sq_finite s d HsF) as [q [Hq Hqpos]].
  assert (Hzero : (length src =? 0)%nat = false) by (apply Nat.eqb_neq; lia).
  unfold test_homography. rewrite Hget. cbn [rbind].
  destruct (inliers_of H src dst e) as [|i0 inl'] eqn:Einl.
  - exists (Rat sentinel). cbn [rbind]. rewrite Hzero.
    split; [reflexivity|]. split; [simpl; discriminate|].
    split; [reflexivity | intros Hne; contradiction].
  - exists (Sqrt q). rewrite Hs, Hd. cbn [rbind]. unfold frobenius_norm.
    rewrite Hq, Hzero.
    split; [reflexivity|]. split; [exact Hqpos|].
    split; [discriminate | intros _; exists q; reflexivity].
Qed.

Lemma test_homography_wf (H : Homography) (src dst : list point) (e : Q) (r : Q * num) :
  test_homography H src dst e = Ok r ->
  length src = length dst /\ (1 <= length src)%nat.
Proof.
  intros Hr.
  destruct (Nat.eq_dec (length src) (length dst)) as [Hlen|Hne].
  - split; [assumption|].
    destruct (length src) eqn:E; [|lia].
    destruct src; [|discriminate]. destruct dst; [|discriminate]. discriminate.
  - unfold test_homography in Hr.
    rewrite (get_vectors_mismatch H src dst e Hne) in Hr. discriminate.
Qed.

(** X1: [test_homography] returns exactly on the correspondence sets with
    two sequences of one length N >= 1; different lengths raise a
    [ValueError] and two empty sequences a [ZeroDivisionError]. *)
Theorem X1_test_homography_errors (H : Homography) (src dst : list point) (e : Q) :
  (length src <> length dst -> test_homography H src dst e = Raise ValueError) /\
  (length src = 0%nat -> length dst = 0%nat ->
     test_homography H src dst e = Raise ZeroDivisionError) /\
  (forall r, test_homography H src dst e = Ok r ->
     length src = length dst /\ (1 <= length src)%nat) /\
  (length src = length dst -> (1 <= length src)%nat ->
     exists r, test_homography H src dst e = Ok r).
Proof.
  split; [|split; [|split]].
  - intros Hne. unfold test_homography.
    rewrite (get_vectors_mismatch H src dst e Hne). reflexivity.
  - intros Hs Hd. destruct src; [|discriminate]. destruct dst; [|discriminate].
    reflexivity.
  - intros r Hr.
    destruct (Nat.eq_dec (length src) (length dst)) as [Hlen|Hne].
    + split; [assumption|].
      destruct (length src) eqn:E; [|lia].
      destruct src; [|discriminate]. destruct dst; [|discriminate]. discriminate.
    + unfold test_homography in Hr.
      rewrite (get_vectors_mismatch H src dst e Hne) in Hr. discriminate.
  - intros Hlen Hn. destruct (test_homography_value H src dst e Hlen Hn) as [d [Hd _]].
    eexists. exact Hd.
Qed.

Lemma is_inlier_mono (e e' : Q) (c : option vec3 * vec3) :
  (e <= e')%Q -> is_inlier e c = true -> is_inlier e' c = true.
Proof.
  intros He. unfold is_inlier. destruct c as [[v|] d]; simpl; [|discriminate].
  rewrite !andb_true_iff, !Qltb_lt. unfold Qsq. intros [H0 Hs].
  split; [lra | nra].
Qed.

Lemma collect_inliers_mono (e e' : Q) (cols : list (option vec3 * vec3)) (k : nat) :
  (e <= e')%Q ->
  (length (collect_inliers e k cols) <= length (collect_inliers e' k cols))%nat.
Proof.
  intros He. revert k. induction cols as [|c cols IH]; intros k; simpl; [lia|].
  destruct (is_inlier e c) eqn:E.
  - rewrite (is_inlier_mono e e' c He E). simpl. specialize (IH (S k)). lia.
  - destruct (is_inlier e' c); simpl; specialize (IH (S k)); lia.
Qed.

(** X2: for a fixed homography and correspondence set, a larger [max_err]
    never gives a smaller [fit_percent]. *)
Theorem X2_fit_percent_monotone
    (H : Homography) (src dst : list point) (e e' : Q) (f : Q) (d : num) :
  (e <= e')%Q ->
  test_homography H src dst e = Ok (f, d) ->
  exists f' d', test_homography H src dst e' = Ok (f', d') /\ (f <= f')%Q.
Proof.
  intros He Ht.
  assert (Hwf : length src = length dst /\ (1 <= length src)%nat).
  { destruct (Nat.eq_dec (length src) (length dst)) as [Hlen|Hne].
    - split; [assumption|].
      destruct (length src) eqn:E; [|lia].
      destruct src; [|discriminate]. destruct dst; [|discriminate]. discriminate.
    - unfold test_homography in Ht.
      rewrite (get_vectors_mismatch H src dst e Hne) in Ht. discriminate. }
  destruct Hwf as [Hlen Hn].
  destruct (test_homography_value H src dst e Hlen Hn) as [d0 [Hd0 _]].
  destruct (test_homography_value H src dst e' Hlen Hn) as [d1 [Hd1 _]].
  rewrite Hd0 in Ht. inversion Ht; subst. eexists _, _. split; [exact Hd1|].
  assert (Hpos : (0 < inject_Z (Z.of_nat (length src)))%Q).
  { change 0%Q with (inject_Z 0). rewrite <- Zlt_Qlt. lia. }
  unfold Qdiv. apply Qmult_le_compat_r.
  - rewrite <- Zle_Qle. apply inj_le. apply collect_inliers_mono. assumption.
  - apply Qlt_le_weak. apply Qinv_lt_0_compat. assumption.
Qed.

Lemma take_columns_lookup {A} (m : list A) (idxs : list nat) (cs : list A) :
  take_columns m idxs = Ok cs ->
  forall k i, idxs !! k = Some i -> is_Some (m !! i) /\ cs !! k = m !! i.
Proof.
  revert cs. induction idxs as [|i0 idxs IH]; simpl; intros cs E k i Hk.
  - discriminate.
  - destruct (m !! i0) as [c|] eqn:Hc; [|discriminate].
    destruct (take_columns m idxs) as [cs'|]; simpl in E; [|discriminate].
    inversion E; subst. destruct k as [|k]; simpl in *.
    + inversion Hk; subst. rewrite Hc. split; [eexists|]; reflexivity.
    + apply (IH cs' eq_refl k i Hk).
Qed.

Lemma inliers_of_bound (H : Homography) (src dst : list point) (e : Q) (i : nat) :
  length src = length dst -> In i (inliers_of H src dst e) -> (i < length src)%nat.
Proof.
  intros Hlen Hi. apply collect_inliers_In in Hi. destruct Hi as [_ [c [Hc _]]].
  rewrite Nat.sub_0_r in Hc. apply lookup_lt_Some in Hc.
  rewrite length_zip_with, !length_map in Hc. lia.
Qed.

Lemma collect_inliers_increasing (e : Q) (cols : list (option vec3 * vec3)) (k : nat) :
  forall a b i j, (a < b)%nat ->
    collect_inliers e k cols !! a = Some i ->
    collect_inliers e k cols !! b = Some j -> (i < j)%nat.
Proof.
  revert k. induction cols as [|c cols IH]; intros k a b i j Hab Ha Hb; simpl in *.
  - discriminate.
  - destruct (is_inlier e c).
    + destruct b as [|b]; [lia|]. simpl in Hb.
      destruct a as [|a]; simpl in Ha.
      * inversion Ha; subst.
        apply list_elem_of_lookup_2, list_elem_of_In, collect_inliers_In in Hb.
        lia.
      * apply (IH (S k) a b i j); [lia | assumption | assumption].
    + apply (IH (S k) a b i j); assumption.
Qed.

(** X4: [meet_the_model_points] returns the source and the destination
    points of the inliers, in the order of their indices: two lists of the
    length of the inlier list, entry k of each being point i of its input
    for the k-th inlier i; the inlier indices are strictly increasing and
    below N. *)
Theorem X4_meet_the_model_points
    (H : Homography) (src dst : list point) (e : Q) :
  length src = length dst ->
  exists ms md,
    meet_the_model_points H src dst e = Ok (ms, md) /\
    length ms = length (inliers_of H src dst e) /\
    length md = length (inliers_of H src dst e) /\
    (forall k i, inliers_of H src dst e !! k = Some i ->
       (i < length src)%nat /\ ms !! k = src !! i /\ md !! k = dst !! i) /\
    (forall a b i j, (a < b)%nat ->
       inliers_of H src dst e !! a = Some i ->
       inliers_of H src dst e !! b = Some j -> (i < j)%nat).
Proof.
  intros Hlen.
  pose proof (get_vectors_ok H src dst e Hlen) as Hget.
  fold (inliers_of H src dst e) in Hget.
  destruct (take_columns_Forall (fun _ => True) src (inliers_of H src dst e))
    as [ms [Hms _]].
  { intros i Hi. apply (inliers_of_bound H src dst e i Hlen) in Hi.
    destruct (lookup_lt_is_Some_2 src i Hi) as [c Hc]. exists c. auto. }
  destruct (take_columns_Forall (fun _ => True) dst (inliers_of H src dst e))
    as [md [Hmd _]].
  { intros i Hi. apply (inliers_of_bound H src dst e i Hlen) in Hi.
    destruct (lookup_lt_is_Some_2 dst i) as [c Hc]; [lia|]. exists c. auto. }
  exists ms, md. split.
  { unfold meet_the_model_points. rewrite Hget. cbn [rbind].
    rewrite Hms, Hmd. reflexivity. }
  split; [apply (take_columns_length _ _ _ Hms)|].
  split; [apply (take_columns_length _ _ _ Hmd)|].
  split.
  - intros k i Hk. split.
    + apply (inliers_of_bound H src dst e i Hlen).
      apply list_elem_of_In. apply (list_elem_of_lookup_2 _ k). assumption.
    + split.
      * apply (take_columns_lookup _ _ _ Hms k i Hk).
      * apply (take_columns_lookup _ _ _ Hmd k i Hk).
  - apply collect_inliers_increasing.
Qed.

End ScorerMore.

(** ** More on [compute_homography_naive] *)

Module NaiveMore.
Import Naive NaiveFacts Derived.

(** X6: given a decomposition that answers with a [V] whose last row has
    nine entries, [compute_homography_naive] returns exactly when the two
    point arrays have the same number of columns, whatever that number is,
    and raises a [ValueError] otherwise. *)
Theorem X6_naive_returns_iff_same_length
    (svd_Vh : matrix -> matrix) (src dst : list point) :
  (forall m, exists v, last (svd_Vh m) = Some v /\ length v = 9%nat) ->
  (length src = length dst <-> exists H, compute_homography_naive svd_Vh src dst = Ok H) /\
  (length src <> length dst -> compute_homography_naive svd_Vh src dst = Raise ValueError).
Proof.
  intros Hsvd.
  assert (Hbad : length src <> length dst ->
                 compute_homography_naive svd_Vh src dst = Raise ValueError).
  { intros Hne. unfold compute_homography_naive.
    rewrite (build_ref_mat_mismatch src dst Hne). reflexivity. }
  split; [|assumption]. split.
  - intros Hlen. unfold compute_homography_naive.
    rewrite (build_ref_mat_spec src dst Hlen). cbn [rbind].
    destruct (Hsvd (design_matrix_spec src dst)) as [v [Hv Hnine]].
    unfold last_row. rewrite Hv. cbn [rbind].
    do 9 (destruct v as [|? v]; [discriminate|]).
    destruct v; [|discriminate]. eexists. reflexivity.
  - intros [H HH]. destruct (Nat.eq_dec (length src) (length dst)) as [E|E]; [assumption|].
    rewrite (Hbad E) in HH. discriminate.
Qed.

Lemma x_row_dot (H : Homography) (s d : point) :
  let '(h0, h1, h2) := mat_vec H (fst s, snd s, 1%Q) in
  (Examples.dot_list (x_row s d) (flatten H) == h0 - h2 * fst d)%Q /\
  (Examples.dot_list (y_row s d) (flatten H) == h1 - h2 * snd d)%Q.
Proof.
  destruct H as [[[[a0 a1] a2] [[b0 b1] b2]] [[c0 c1] c2]], s as [x y], d as [u v].
  unfold Examples.dot_list. simpl. split; ring.
Qed.

(** X7: what the design matrix encodes.  The nine entries of a homography
    are annihilated by every row of the matrix that the loop builds if and
    only if the homography maps every source point onto its destination
    point, up to the homogeneous scale. *)
Theorem X7_null_vectors_are_exact_homographies
    (H : Homography) (src dst : list point) :
  length src = length dst ->
  exists ref_mat,
    build_ref_mat src dst = Ok ref_mat /\
    (Forall (fun row => (Examples.dot_list row (flatten H) == 0)%Q) ref_mat <->
     forall i s d, src !! i = Some s -> dst !! i = Some d -> maps_onto H s d).
Proof.
  intros Hlen. exists (design_matrix_spec src dst).
  split; [apply build_ref_mat_spec; assumption|].
  rewrite Forall_lookup. split.
  - intros Hnull i s d Hs Hd.
    destruct (design_lookup src dst i s d Hs Hd) as [Hx Hy].
    pose proof (Hnull _ _ Hx) as Zx. pose proof (Hnull _ _ Hy) as Zy.
    pose proof (x_row_dot H s d) as R. unfold maps_onto.
    destruct (mat_vec H (fst s, snd s, 1%Q)) as [[h0 h1] h2].
    destruct R as [Rx Ry]. rewrite Rx in Zx. rewrite Ry in Zy. split; lra.
  - intros Hmaps r row Hrow.
    destruct (NaiveClaims.design_row_owner src dst r row Hlen Hrow)
      as (s & d & Hs & Hd & ->).
    pose proof (Hmaps _ s d Hs Hd) as M. pose proof (x_row_dot H s d) as R.
    unfold maps_onto in M.
    destruct (mat_vec H (fst s, snd s, 1%Q)) as [[h0 h1] h2].
    destruct R as [Rx Ry], M as [M0 M1].
    destruct (Nat.even r); [rewrite Rx | rewrite Ry]; lra.
Qed.

End NaiveMore.

(** ** More on the RANSAC loop *)

Module RansacMore.
Import Ransac RansacFacts Derived.

Lemma num_ltb_rank (a b : num) :
  num_nonneg a -> num_nonneg b -> num_ltb a b = Qltb (rank a) (rank b).
Proof.
  destruct a as [x|x|], b as [y|y|]; simpl; try contradiction; intros Ha Hb;
    unfold Qsq.
  - destruct (Qltb x y) eqn:E, (Qltb (x * x) (y * y)) eqn:E'; try reflexivity.
    + apply Qltb_lt in E. apply Qltb_false in E'. exfalso. nra.
    + apply Qltb_lt in E'. apply Qltb_false in E. exfalso. nra.
  - destruct (Qltb x 0) eqn:E0; [apply Qltb_lt in E0; lra|]. reflexivity.
  - destruct (Qltb 0 y) eqn:E0; simpl; [reflexivity|].
    apply Qltb_false in E0. symmetry. apply Qltb_false.
    assert (y == 0)%Q by lra. rewrite H. lra.
  - reflexivity.
Qed.

Lemma dist_mse_nonneg (h : Homography) (src dst : list point) (e : Q) (f : Q) (d : num) :
  Scorer.test_homography h src dst e = Ok (f, d) -> num_nonneg d.
Proof.
  intros Ht. destruct (ScorerMore.test_homography_wf h src dst e _ Ht) as [Hlen Hn].
  destruct (ScorerMore.test_homography_value h src dst e Hlen Hn) as (d0 & Hd0 & Hpos & _).
  rewrite Hd0 in Ht. inversion Ht; subst. assumption.
Qed.

(** X8: with fewer than four correspondences [sample] cannot draw: as soon
    as one iteration runs, [compute_homography] raises a [ValueError]. *)
Theorem X8_fewer_than_four_cannot_sample
    (svd_Vh : matrix -> matrix) (ransac_k : Q -> result Z)
    (draw : nat -> nat -> list nat)
    (src dst : list point) (w max_err : Q) (k : Z) :
  (length src < 4)%nat ->
  ransac_k w = Ok k ->
  (1 <= k)%Z ->
  compute_homography svd_Vh ransac_k draw src dst w max_err = Raise ValueError.
Proof.
  intros Hn Hk Hpos. unfold compute_homography, run_loop. rewrite Hk. cbn [rbind].
  destruct (Z.to_nat (k * 10)) as [|n] eqn:E; [lia|].
  cbn [seq for_each]. unfold iteration at 1, trial, sample.
  destruct (Nat.ltb_spec (length src) 4); [|lia]. reflexivity.
Qed.

Section Best.

Variable svd_Vh : matrix -> matrix.
Variable draw : nat -> nat -> list nat.
Variables src dst : list point.
Variables w max_err : Q.

Let trial' := trial svd_Vh draw src dst w max_err.
Let iteration' := iteration svd_Vh draw src dst w max_err.

Lemma best_so_far_step (n : nat) (st st' : state) :
  best_so_far svd_Vh draw src dst w max_err n st -> iteration' st n = Ok st' ->
  best_so_far svd_Vh draw src dst w max_err (S n) st'.
Proof.
  intros (Hpos & Hinit & Hmin & Hbest) Hit.
  assert (E : iteration' st n = do t <- trial' n; Ok (keep_best st t)) by reflexivity.
  rewrite E in Hit. clear E.
  destruct (trial' n) as [t|] eqn:Ht; cbn [rbind] in Hit; [|discriminate].
  inversion Hit; subst st'. clear Hit.
  destruct t as [[h d]|]; cbn [keep_best].
  - destruct (trial_refined svd_Vh draw src dst w max_err n h d Ht) as [f Hf].
    pose proof (dist_mse_nonneg h src dst max_err f d Hf) as Hd.
    rewrite (num_ltb_rank d (mse_value st) Hd Hpos).
    destruct (Qltb (rank d) (rank (mse_value st))) eqn:L.
    + apply Qltb_lt in L. unfold best_so_far. cbn [mse_value homography].
      split; [assumption|]. split; [lra|]. split.
      * intros j h' d' Hj Hj'. destruct (Nat.eq_dec j n) as [->|Hne].
        -- unfold trial' in Ht. rewrite Ht in Hj'. inversion Hj'; subst. lra.
        -- specialize (Hmin j h' d' ltac:(lia) Hj'). lra.
      * exists n. split; [lia|]. split; [exact Ht|]. split; [lra|].
        intros j h' d' Hj Hj'. specialize (Hmin j h' d' Hj Hj'). lra.
    + apply Qltb_false in L. unfold best_so_far.
      split; [assumption|]. split; [assumption|]. split.
      * intros j h' d' Hj Hj'. destruct (Nat.eq_dec j n) as [->|Hne].
        -- unfold trial' in Ht. rewrite Ht in Hj'. inversion Hj'; subst. assumption.
        -- apply (Hmin j h' d'); [lia | assumption].
      * destruct (homography st) as [h0|]; [|assumption].
        destruct Hbest as (i & Hi & Hti & Hlt & Hfirst).
        exists i. split; [lia|]. auto.
  - unfold best_so_far. split; [assumption|]. split; [assumption|]. split.
    + intros j h' d' Hj Hj'. destruct (Nat.eq_dec j n) as [->|Hne].
      * unfold trial' in Ht. rewrite Ht in Hj'. discriminate.
      * apply (Hmin j h' d'); [lia | assumption].
    + destruct (homography st) as [h0|]; [|assumption].
      destruct Hbest as (i & Hi & Hti & Hlt & Hfirst).
      exists i. split; [lia|]. auto.
Qed.

Lemma best_so_far_run (n : nat) (st : state) :
  for_each iteration' (seq 0 n) initial_state = Ok st ->
  best_so_far svd_Vh draw src dst w max_err n st.
Proof.
  revert st. induction n as [|n IH]; intros st Hrun.
  - simpl in Hrun. inversion Hrun; subst. unfold best_so_far. simpl.
    split; [discriminate|]. split; [apply Qle_refl|].
    split; [intros; lia | reflexivity].
  - rewrite seq_S, for_each_app in Hrun. cbn [Nat.add] in Hrun.
    destruct (for_each iteration' (seq 0 n) initial_state) as [st0|] eqn:E0;
      cbn [rbind] in Hrun; [|discriminate].
    cbn [for_each] in Hrun.
    destruct (iteration' st0 n) as [st1|] eqn:E1; cbn [rbind] in Hrun; [|discriminate].
    inversion Hrun; subst. apply (best_so_far_step n st0 st); [apply IH; reflexivity|].
    assumption.
Qed.

End Best.

(** X9: a homography that [compute_homography] returns is the re-fit of
    some iteration i that reached step d, with a [dist_mse] below the
    initial 10^9 + 1; no refined candidate of any iteration has a smaller
    [dist_mse], and every refined candidate of an earlier iteration has a
    strictly larger one (the first of the best wins). *)
Theorem X9_returned_homography_is_first_best
    (svd_Vh : matrix -> matrix) (ransac_k : Q -> result Z)
    (draw : nat -> nat -> list nat)
    (src dst : list point) (w max_err : Q) (h : Homography) :
  compute_homography svd_Vh ransac_k draw src dst w max_err = Ok h ->
  exists k i d,
    ransac_k w = Ok k /\ (i < Z.to_nat (k * 10))%nat /\
    trial svd_Vh draw src dst w max_err i = Ok (Some (h, d)) /\
    num_ltb d (Rat initial_mse) = true /\
    (forall j h' d', (j < Z.to_nat (k * 10))%nat ->
       trial svd_Vh draw src dst w max_err j = Ok (Some (h', d')) ->
       num_ltb d' d = false) /\
    (forall j h' d', (j < i)%nat ->
       trial svd_Vh draw src dst w max_err j = Ok (Some (h', d')) ->
       num_ltb d d' = true).
Proof.
  unfold compute_homography, run_loop.
  destruct (ransac_k w) as [k|]; cbn [rbind]; [|discriminate].
  destruct (for_each _ (seq 0 (Z.to_nat (k * 10))) initial_state) as [st|] eqn:Hrun;
    cbn [rbind]; [|discriminate].
  pose proof (best_so_far_run svd_Vh draw src dst w max_err _ st Hrun)
    as (Hpos & Hinit & Hmin & Hbest).
  destruct (homography st) as [h0|]; [|discriminate].
  intros E. inversion E; subst h0. clear E.
  destruct Hbest as (i & Hi & Hti & Hlt & Hfirst).
  assert (Hinit_pos : num_nonneg (Rat initial_mse)) by (simpl; discriminate).
  assert (Hd : forall j h' d', trial svd_Vh draw src dst w max_err j = Ok (Some (h', d')) ->
                               num_nonneg d').
  { intros j h' d' Hj.
    destruct (trial_refined svd_Vh draw src dst w max_err j h' d' Hj) as [f Hf].
    apply (dist_mse_nonneg h' src dst max_err f d' Hf). }
  exists k, i, (mse_value st). split; [reflexivity|]. split; [assumption|].
  split; [assumption|]. split.
  { rewrite (num_ltb_rank _ _ Hpos Hinit_pos). apply Qltb_lt. assumption. }
  split.
  - intros j h' d' Hj Hj'. rewrite (num_ltb_rank _ _ (Hd j h' d' Hj') Hpos).
    apply Qltb_false. apply (Hmin j h' d' Hj Hj').
  - intros j h' d' Hj Hj'. rewrite (num_ltb_rank _ _ Hpos (Hd j h' d' Hj')).
    apply Qltb_lt. apply (Hfirst j h' d' Hj Hj').
Qed.

End RansacMore.

(** ** More on the canvas geometry *)

Module GeometryMore.
Import Geometry GeometryFacts Derived.

Lemma Qtrunc_floor (q : Q) : (0 <= q)%Q -> Qtrunc q = Qfloor q.
Proof.
  destruct q as [a b]. unfold Qtrunc, Qfloor, Qle. simpl. intros Ha.
  apply Z.quot_div_nonneg; lia.
Qed.

Lemma Qtrunc_of_Z (q : Q) (n : Z) : (0 <= n)%Z -> (q == inject_Z n)%Q -> Qtrunc q = n.
Proof.
  intros Hn Hq. rewrite Qtrunc_floor.
  - rewrite (Qfloor_comp _ _ Hq). apply Qfloor_Z.
  - rewrite Hq. change 0%Q with (inject_Z 0). rewrite <- Zle_Qle. assumption.
Qed.

Lemma pad_step_inside (r c : nat) (p : pads) (x y : Q) (z : ext) :
  (1 <= x <= inject_Z (Z.of_nat c))%Q -> (1 <= y <= inject_Z (Z.of_nat r))%Q ->
  pad_step r c p (Fin x, Fin y, z) = p.
Proof.
  intros [Hx1 Hx2] [Hy1 Hy2]. unfold pad_step. cbn [ext_ltb].
  assert (E1 : Qltb y 1 = false) by (apply Qltb_false; assumption).
  assert (E2 : Qltb (inject_Z (Z.of_nat c)) x = false) by (apply Qltb_false; assumption).
  assert (E3 : Qltb x 1 = false) by (apply Qltb_false; assumption).
  assert (E4 : Qltb (inject_Z (Z.of_nat r)) y = false) by (apply Qltb_false; assumption).
  rewrite E1, E2, E3, E4. destruct p. reflexivity.
Qed.

(** X11: when the four source corners are projected into the destination
    image (columns from 1 to the destination width, rows from 1 to its
    height), nothing is padded: the canvas has the destination's shape. *)
Theorem X11_no_padding_when_inside {A B : Type}
    (src_image : ndarray A) (dst_image : ndarray B) (homography : Homography) :
  (forall c, In c (src_edges (shape_rows (shape src_image)) (shape_cols (shape src_image))) ->
     let '(t0, t1, t2) := mat_vec homography c in
     ~ (t2 == 0)%Q /\
     (1 <= t0 / t2 <= inject_Z (Z.of_nat (shape_cols (shape dst_image))))%Q /\
     (1 <= t1 / t2 <= inject_Z (Z.of_nat (shape_rows (shape dst_image))))%Q) ->
  find_panorama_shape src_image dst_image homography =
  Ok (Z.of_nat (shape_rows (shape dst_image)), Z.of_nat (shape_cols (shape dst_image)),
      {| pad_up := 0; pad_down := 0; pad_right := 0; pad_left := 0 |}).
Proof.
  intros Hin. unfold find_panorama_shape.
  assert (Hfold :
    fold_left (pad_step (shape_rows (shape dst_image)) (shape_cols (shape dst_image)))
      (map (transform_edge homography)
         (src_edges (shape_rows (shape src_image)) (shape_cols (shape src_image))))
      no_pads = no_pads).
  { apply (fold_left_invariant (fun p => p = no_pads)); [|reflexivity].
    intros p e He ->. apply in_map_iff in He. destruct He as [c [<- Hc]].
    specialize (Hin c Hc). unfold transform_edge.
    destruct (mat_vec homography c) as [[t0 t1] t2]. destruct Hin as (Hn & Hx & Hy).
    unfold ext_div. destruct (Qeqb t2 0) eqn:E; [apply Qeqb_eq in E; contradiction|].
    apply pad_step_inside; assumption. }
  rewrite Hfold. cbn [up down right left no_pads ext_add ext_int rbind].
  assert (Hz : forall n : nat, Qtrunc (inject_Z (Z.of_nat n) + 0 + 0) = Z.of_nat n).
  { intros n. apply Qtrunc_of_Z; [lia | ring]. }
  rewrite !Hz. reflexivity.
Qed.

End GeometryMore.

(** ** Canvases *)

Module CanvasFacts.
Import Forward Derived.

Lemma shaped_zeros {A} (z : A) (s : nat * nat * nat) : shaped s (cells (zeros z s)).
Proof.
  unfold shaped, well_shaped, zeros. cbn [shape cells]. split.
  - apply length_replicate.
  - apply Forall_replicate. split; [apply length_replicate|].
    apply Forall_replicate. apply length_replicate.
Qed.

Lemma shaped_cell {A} (s : nat * nat * nat) (a : list (list (list A))) (y x c : nat) :
  shaped s a ->
  (y < shape_rows s)%nat -> (x < shape_cols s)%nat -> (c < shape_chans s)%nat ->
  exists v, cell_at a y x c = Some v.
Proof.
  intros Hs Hy Hx Hc.
  apply (cell_at_well_shaped {| shape := s; cells := a |} y x c); assumption.
Qed.

Lemma shaped_set_channel (s : nat * nat * nat) (dst : list (list (list Z)))
    (y x ch : nat) (v : Z) :
  shaped s dst -> shaped s (set_channel dst y x ch v).
Proof.
  intros [Hrows Hall]. cbn [shape cells] in *. unfold set_channel. split; cbn [shape cells].
  - rewrite length_alter. assumption.
  - apply Forall_alter; [assumption|]. intros row _ [Hlen Hpx]. split.
    + rewrite length_alter. assumption.
    + apply Forall_alter; [assumption|]. intros px _ Hch.
      rewrite length_insert. assumption.
Qed.

Lemma shaped_set_pixel (s : nat * nat * nat) (dst : list (list (list Z)))
    (y x : nat) (px : list Z) :
  shaped s dst -> length px = shape_chans s -> shaped s (set_pixel dst y x px).
Proof.
  intros [Hrows Hall] Hpx. cbn [shape cells] in *. unfold set_pixel.
  split; cbn [shape cells].
  - rewrite length_alter. assumption.
  - apply Forall_alter; [assumption|]. intros row _ [Hlen Hpxs]. split.
    + rewrite length_insert. assumption.
    + apply Forall_insert; assumption.
Qed.

Lemma set_channel_same (dst : list (list (list Z))) (y x ch : nat) (v old : Z) :
  cell_at dst y x ch = Some old -> cell_at (set_channel dst y x ch v) y x ch = Some v.
Proof.
  unfold cell_at, set_channel. rewrite list_lookup_alter_eq.
  destruct (dst !! y) as [row|]; [|discriminate]. cbn [fmap option_fmap option_map].
  rewrite list_lookup_alter_eq.
  destruct (row !! x) as [px|]; [|discriminate]. cbn [fmap option_fmap option_map].
  intros Hold. apply list_lookup_insert_eq. apply lookup_lt_Some in Hold. assumption.
Qed.

Lemma set_channel_other (dst : list (list (list Z))) (y x ch : nat) (v : Z)
    (y' x' c' : nat) :
  (y', x', c') <> (y, x, ch) ->
  cell_at (set_channel dst y x ch v) y' x' c' = cell_at dst y' x' c'.
Proof.
  intros Hne. unfold cell_at, set_channel.
  destruct (Nat.eq_dec y y') as [->|Hy]; [|rewrite list_lookup_alter_ne by assumption; reflexivity].
  rewrite list_lookup_alter_eq.
  destruct (dst !! y') as [row|]; [|reflexivity]. cbn [fmap option_fmap option_map].
  destruct (Nat.eq_dec x x') as [->|Hx]; [|rewrite list_lookup_alter_ne by assumption; reflexivity].
  rewrite list_lookup_alter_eq.
  destruct (row !! x') as [px|]; [|reflexivity]. cbn [fmap option_fmap option_map].
  apply list_lookup_insert_ne. intros ->. apply Hne. reflexivity.
Qed.

Lemma set_pixel_same (dst : list (list (list Z))) (y x : nat) (px old : list Z) (c : nat) :
  pixel_at dst y x = Some old -> cell_at (set_pixel dst y x px) y x c = px !! c.
Proof.
  unfold pixel_at, cell_at, set_pixel. rewrite list_lookup_alter_eq.
  destruct (dst !! y) as [row|]; [|discriminate]. cbn [fmap option_fmap option_map].
  intros Hold. rewrite list_lookup_insert_eq; [reflexivity|].
  apply lookup_lt_Some in Hold. assumption.
Qed.

Lemma set_pixel_other (dst : list (list (list Z))) (y x : nat) (px : list Z)
    (y' x' c' : nat) :
  (y', x') <> (y, x) ->
  cell_at (set_pixel dst y x px) y' x' c' = cell_at dst y' x' c'.
Proof.
  intros Hne. unfold cell_at, set_pixel.
  destruct (Nat.eq_dec y y') as [->|Hy]; [|rewrite list_lookup_alter_ne by assumption; reflexivity].
  rewrite list_lookup_alter_eq.
  destruct (dst !! y') as [row|]; [|reflexivity]. cbn [fmap option_fmap option_map].
  rewrite list_lookup_insert_ne; [reflexivity|]. intros ->. apply Hne. reflexivity.
Qed.

Lemma shaped_pixel {A} (s : nat * nat * nat) (a : list (list (list A))) (y x : nat) :
  shaped s a -> (y < shape_rows s)%nat -> (x < shape_cols s)%nat ->
  exists px, pixel_at a y x = Some px /\ length px = shape_chans s.
Proof.
  intros [Hrows Hall] Hy Hx. cbn [shape cells] in *. unfold pixel_at.
  destruct (lookup_lt_is_Some_2 a y) as [row Hrow]; [lia|]. rewrite Hrow.
  pose proof (Forall_lookup_1 _ _ _ _ Hall Hrow) as [Hlen Hpxs].
  destruct (lookup_lt_is_Some_2 row x) as [px Hpx]; [lia|].
  exists px. split; [assumption|]. apply (Forall_lookup_1 _ _ _ _ Hpxs Hpx).
Qed.

(** Two canvases of one shape with the same cells are the same canvas. *)
Lemma shaped_ext {A} (s : nat * nat * nat) (a b : list (list (list A))) :
  shaped s a -> shaped s b ->
  (forall y x c, (y < shape_rows s)%nat -> (x < shape_cols s)%nat ->
                 (c < shape_chans s)%nat -> cell_at a y x c = cell_at b y x c) ->
  a = b.
Proof.
  intros [Ha HaF] [Hb HbF] Hcells. cbn [shape cells] in *.
  apply (list_eq_same_length _ _ (shape_rows s)); [assumption | assumption|].
  intros y ra rb Hy Hra Hrb.
  pose proof (Forall_lookup_1 _ _ _ _ HaF Hra) as [Hla HFa].
  pose proof (Forall_lookup_1 _ _ _ _ HbF Hrb) as [Hlb HFb].
  apply (list_eq_same_length _ _ (shape_cols s)); [assumption | assumption|].
  intros x pa pb Hx Hpa Hpb.
  pose proof (Forall_lookup_1 _ _ _ _ HFa Hpa) as Hca.
  pose proof (Forall_lookup_1 _ _ _ _ HFb Hpb) as Hcb.
  apply (list_eq_same_length _ _ (shape_chans s)); [assumption | assumption|].
  intros c va vb Hc Hva Hvb.
  specialize (Hcells y x c Hy Hx Hc). unfold cell_at in Hcells.
  rewrite Hra, Hrb, Hpa, Hpb, Hva, Hvb in Hcells. congruence.
Qed.

End CanvasFacts.

(** ** The two forward warpers as sequences of writes *)

Module WarpFacts.
Import Forward Derived CanvasFacts.

Lemma for_each_map {A B S} (f : A -> B) (body : S -> B -> result S) (xs : list A) (s : S) :
  for_each body (map f xs) s = for_each (fun s a => body s (f a)) xs s.
Proof.
  revert s. induction xs as [|x xs IH]; intros s; simpl; [reflexivity|].
  destruct (body s (f x)); simpl; auto.
Qed.

(** Two nested loops are one loop over the pairs. *)
Lemma for_each_nested {A B S} (body : S -> A * B -> result S)
    (xs : list A) (ys : list B) (s : S) :
  for_each (fun s a => for_each (fun s b => body s (a, b)) ys s) xs s =
  for_each body (flat_map (fun a => map (fun b => (a, b)) ys) xs) s.
Proof.
  revert s. induction xs as [|a xs IH]; intros s; simpl; [reflexivity|].
  rewrite for_each_app, for_each_map.
  destruct (for_each (fun s b => body s (a, b)) ys s); simpl; auto.
Qed.

Lemma for_each_filter {A S} (keep : A -> bool) (body : S -> A -> result S)
    (xs : list A) (s : S) :
  for_each body (filter (fun a => keep a = true) xs) s =
  for_each (fun s a => if keep a then body s a else Ok s) xs s.
Proof.
  revert s. induction xs as [|x xs IH]; intros s; [reflexivity|].
  rewrite filter_cons. destruct (decide (keep x = true)) as [E|E].
  - cbn [for_each]. rewrite E. destruct (body s x); simpl; auto.
  - cbn [for_each]. destruct (keep x); [contradiction|]. simpl. apply IH.
Qed.

Lemma for_each_returns {A S} (Inv : S -> Prop) (body : S -> A -> result S)
    (xs : list A) (s : S) :
  (forall s a, In a xs -> Inv s -> exists s', body s a = Ok s' /\ Inv s') ->
  Inv s -> exists s', for_each body xs s = Ok s' /\ Inv s'.
Proof.
  revert s. induction xs as [|x xs IH]; intros s Hbody Hs; simpl.
  - exists s. auto.
  - destruct (Hbody s x) as [s1 [E1 H1]]; [left; reflexivity | assumption|].
    rewrite E1. simpl. apply IH; [|assumption].
    intros s2 a Ha. apply Hbody. right. assumption.
Qed.

Lemma row_major_In (rows cols : nat) (p : nat * nat) :
  In p (row_major rows cols) <-> (fst p < rows)%nat /\ (snd p < cols)%nat.
Proof.
  unfold row_major. rewrite in_flat_map. split.
  - intros (r & Hr & Hp). apply in_map_iff in Hp. destruct Hp as (c & <- & Hc).
    apply in_seq in Hr, Hc. simpl. lia.
  - intros [Hr Hc]. exists (fst p). split; [apply in_seq; lia|].
    apply in_map_iff. exists (snd p). split; [destruct p; reflexivity | apply in_seq; lia].
Qed.

Lemma meshgrid_In (W H : nat) (p : nat * nat) :
  In p (meshgrid W H) <-> (fst p < W)%nat /\ (snd p < H)%nat.
Proof. apply (row_major_In W H p). Qed.

Section Writes.

Context {P : Type}.
Variable s : nat * nat * nat.
Variable step : list (list (list Z)) -> P -> result (list (list (list Z))).
Variable tgt : P -> option (nat * nat).
Variable val : P -> nat -> option Z.

Hypothesis step_spec :
  forall dst p dst', shaped s dst -> step dst p = Ok dst' ->
    shaped s dst' /\
    forall y x c, (y < shape_rows s)%nat -> (x < shape_cols s)%nat ->
                  (c < shape_chans s)%nat ->
      cell_at dst' y x c =
      if bool_decide (tgt p = Some (y, x)) then val p c else cell_at dst y x c.

(** After a sequence of writes a cell holds what its last writer put
    there, or what it held before. *)
Lemma writes_spec (ps : list P) (dst dst' : list (list (list Z))) :
  shaped s dst -> for_each step ps dst = Ok dst' ->
  shaped s dst' /\
  forall y x c, (y < shape_rows s)%nat -> (x < shape_cols s)%nat ->
                (c < shape_chans s)%nat ->
    cell_at dst' y x c =
    match last_writer tgt ps (y, x) with
    | Some p => val p c
    | None => cell_at dst y x c
    end.
Proof.
  revert dst. induction ps as [|p ps IH]; intros dst Hs Hrun; simpl in Hrun.
  - inversion Hrun; subst. split; [assumption|]. intros. reflexivity.
  - destruct (step dst p) as [dst1|] eqn:E1; simpl in Hrun; [|discriminate].
    destruct (step_spec dst p dst1 Hs E1) as [Hs1 Hc1].
    destruct (IH dst1 Hs1 Hrun) as [Hs' Hc']. split; [assumption|].
    intros y x c Hy Hx Hc. rewrite (Hc' y x c Hy Hx Hc). cbn [last_writer].
    destruct (last_writer tgt ps (y, x)); [reflexivity|].
    rewrite (Hc1 y x c Hy Hx Hc).
    destruct (bool_decide (tgt p = Some (y, x))); reflexivity.
Qed.

End Writes.

Lemma last_writer_Some {P} (tgt : P -> option (nat * nat)) (ps : list P) t p :
  last_writer tgt ps t = Some p -> In p ps /\ tgt p = Some t.
Proof.
  induction ps as [|q ps IH]; simpl; [discriminate|].
  destruct (last_writer tgt ps t) as [r|].
  - intros E. inversion E; subst. destruct (IH eq_refl). auto.
  - case_bool_decide; [|discriminate]. intros E. inversion E; subst. auto.
Qed.

Lemma last_writer_None {P} (tgt : P -> option (nat * nat)) (ps : list P) t :
  last_writer tgt ps t = None -> forall p, In p ps -> tgt p <> Some t.
Proof.
  induction ps as [|q ps IH]; simpl; [intros _ p []|].
  destruct (last_writer tgt ps t) as [r|]; [discriminate|].
  case_bool_decide; [discriminate|]. intros _ p [<-|Hp]; [assumption|].
  apply IH; [reflexivity | assumption].
Qed.

(** When no two elements write to one cell, the writer of a cell is its
    last writer, whatever the order. *)
Lemma last_writer_unique {P} (tgt : P -> option (nat * nat)) (ps : list P) t p :
  (forall q, In q ps -> tgt q = Some t -> q = p) ->
  In p ps -> tgt p = Some t -> last_writer tgt ps t = Some p.
Proof.
  intros Huniq Hin Htgt.
  destruct (last_writer tgt ps t) as [q|] eqn:E.
  - apply last_writer_Some in E. destruct E as [Hq Hq']. f_equal. apply Huniq; assumption.
  - exfalso. apply (last_writer_None tgt ps t E p Hin Htgt).
Qed.

Section SlowWrites.

Variable homography : Homography.
Variable src_image : ndarray Z.
Variable s : nat * nat * nat.

Lemma slow_as_one_loop :
  compute_forward_homography_slow homography src_image s =
  do dst <- for_each (slow_step homography src_image s)
              (row_major (shape_rows (shape src_image)) (shape_cols (shape src_image)))
              (cells (zeros 0%Z s));
  Ok {| shape := s; cells := dst |}.
Proof.
  unfold compute_forward_homography_slow, row_major.
  rewrite <- (for_each_nested (slow_step homography src_image s)). reflexivity.
Qed.

Lemma copy_channels_spec (y x row col n : nat) (dst dst' : list (list (list Z))) :
  shaped s dst -> (y < shape_rows s)%nat -> (x < shape_cols s)%nat ->
  (n <= shape_chans s)%nat ->
  for_each (copy_channel src_image y x row col) (seq 0 n) dst = Ok dst' ->
  shaped s dst' /\
  forall y' x' c',
    cell_at dst' y' x' c' =
    if bool_decide ((y', x') = (y, x) /\ (c' < n)%nat)
    then cell_at (cells src_image) row col c'
    else cell_at dst y' x' c'.
Proof.
  intros Hs Hy Hx. revert dst'. induction n as [|n IH]; intros dst' Hn Hrun.
  - simpl in Hrun. inversion Hrun; subst. split; [assumption|].
    intros y' x' c'. case_bool_decide as D; [lia | reflexivity].
  - rewrite seq_S, for_each_app in Hrun. cbn [Nat.add] in Hrun.
    destruct (for_each (copy_channel src_image y x row col) (seq 0 n) dst) as [dst1|] eqn:E1;
      cbn [rbind] in Hrun; [|discriminate].
    destruct (IH dst1 ltac:(lia) eq_refl) as [Hs1 Hc1].
    cbn [for_each] in Hrun. unfold copy_channel at 1 in Hrun.
    destruct (cell_at (cells src_image) row col n) as [v|] eqn:Ev;
      cbn [rbind] in Hrun; [|discriminate].
    inversion Hrun; subst dst'. split; [apply shaped_set_channel; assumption|].
    intros y' x' c'.
    destruct (decide ((y', x', c') = (y, x, n))) as [E|E].
    + inversion E; subst.
      destruct (shaped_cell s dst1 y x n Hs1 Hy Hx ltac:(lia)) as [old Hold].
      rewrite (set_channel_same dst1 y x n v old Hold).
      case_bool_decide as D; [congruence|]. exfalso. apply D. split; [reflexivity | lia].
    + rewrite (set_channel_other dst1 y x n v y' x' c' E), Hc1.
      case_bool_decide as D1; case_bool_decide as D2; try reflexivity.
      * exfalso. apply D2. destruct D1. split; [assumption | lia].
      * exfalso. destruct D2 as [D2 D3]. apply D1. split; [assumption|].
        assert (c' <> n) by (intros ->; apply E; rewrite D2; reflexivity). lia.
Qed.

Lemma in_range_nat (z : Z) (n : nat) : in_range z n = true -> (Z.to_nat z < n)%nat.
Proof.
  unfold in_range. rewrite andb_true_iff, Z.leb_le, Z.ltb_lt. lia.
Qed.

(** One iteration of the inner loop: a write to the truncated target of
    the pixel, or nothing. *)
Lemma slow_step_spec (dst : list (list (list Z))) (p : nat * nat)
    (dst' : list (list (list Z))) :
  shaped s dst -> slow_step homography src_image s dst p = Ok dst' ->
  shaped s dst' /\
  forall y x c, (y < shape_rows s)%nat -> (x < shape_cols s)%nat ->
                (c < shape_chans s)%nat ->
    cell_at dst' y x c =
    if bool_decide (truncated_target homography s p = Some (y, x))
    then cell_at (cells src_image) (fst p) (snd p) c
    else cell_at dst y x c.
Proof.
  intros Hs. destruct p as [row col]. unfold slow_step, place_pixel, truncated_target.
  cbn [fst snd].
  destruct (mat_vec homography (pixel_point col row)) as [[t0 t1] t2].
  unfold int_quotient, ext_div.
  destruct (Qeqb t2 0).
  { destruct (Qltb 0 t0); [discriminate|]. destruct (Qltb t0 0); discriminate. }
  cbn [ext_int rbind].
  destruct (in_range (Qtrunc (t0 / t2)) (shape_cols s) &&
            in_range (Qtrunc (t1 / t2)) (shape_rows s)) eqn:Hin.
  - apply andb_true_iff in Hin. destruct Hin as [Hx Hy].
    apply in_range_nat in Hx, Hy. intros Hrun.
    destruct (copy_channels_spec _ _ row col _ dst dst' Hs Hy Hx (Nat.le_refl _) Hrun)
      as [Hs' Hc'].
    split; [assumption|]. intros y x c _ _ Hc. rewrite Hc'.
    case_bool_decide as D1; case_bool_decide as D2; try reflexivity.
    + exfalso. apply D2. destruct D1 as [D1 _]. inversion D1; subst. reflexivity.
    + exfalso. apply D1. inversion D2; subst. split; [reflexivity | assumption].
  - intros E. inversion E; subst. split; [assumption|]. intros y x c _ _ _.
    case_bool_decide; [discriminate | reflexivity].
Qed.

End SlowWrites.

Lemma slow_semantics
    (homography : Homography) (src_image : ndarray Z) (s : nat * nat * nat)
    (img : ndarray Z) :
  compute_forward_homography_slow homography src_image s = Ok img ->
  shape img = s /\ well_shaped img /\
  forall y x c, (y < shape_rows s)%nat -> (x < shape_cols s)%nat ->
                (c < shape_chans s)%nat ->
    cell_at (cells img) y x c =
    match last_writer (truncated_target homography s)
            (row_major (shape_rows (shape src_image)) (shape_cols (shape src_image)))
            (y, x) with
    | Some p => cell_at (cells src_image) (fst p) (snd p) c
    | None => Some 0%Z
    end.
Proof.
  rewrite slow_as_one_loop.
  destruct (for_each _ _ (cells (zeros 0%Z s))) as [dst|] eqn:Hrun;
    cbn [rbind]; [|discriminate].
  intros E. inversion E; subst img. clear E. cbn [shape cells].
  destruct (writes_spec s (slow_step homography src_image s)
              (truncated_target homography s)
              (fun p c => cell_at (cells src_image) (fst p) (snd p) c)
              (slow_step_spec homography src_image s) _ _ _
              (shaped_zeros 0%Z s) Hrun) as [Hs Hc].
  split; [reflexivity|]. split; [exact Hs|].
  intros y x c Hy Hx Hch. rewrite (Hc y x c Hy Hx Hch).
  destruct (last_writer _ _ (y, x)); [reflexivity|].
  apply cell_at_zeros; assumption.
Qed.

Lemma cell_of_pixel {A} (a : list (list (list A))) (y x c : nat) (px : list A) :
  pixel_at a y x = Some px -> cell_at a y x c = px !! c.
Proof.
  unfold pixel_at, cell_at. destruct (a !! y) as [row|]; [|discriminate].
  intros ->. reflexivity.
Qed.

Lemma source_pixel (src_image : ndarray Z) (y x : nat) :
  well_shaped src_image ->
  (y < shape_rows (shape src_image))%nat -> (x < shape_cols (shape src_image))%nat ->
  exists px, pixel_at (cells src_image) y x = Some px /\
             length px = shape_chans (shape src_image).
Proof.
  intros Hw Hy Hx.
  apply (shaped_pixel (shape src_image) (cells src_image) y x); [|assumption|assumption].
  destruct src_image. exact Hw.
Qed.

Lemma source_pixel_length (src_image : ndarray Z) (y x : nat) (px : list Z) :
  well_shaped src_image -> pixel_at (cells src_image) y x = Some px ->
  length px = shape_chans (shape src_image).
Proof.
  intros [_ Hall]. unfold pixel_at.
  destruct (cells src_image !! y) as [row|] eqn:Hrow; [|discriminate]. intros Hpx.
  pose proof (Forall_lookup_1 _ _ _ _ Hall Hrow) as [_ Hpxs].
  apply (Forall_lookup_1 _ _ _ _ Hpxs Hpx).
Qed.

Section FastWrites.

Variable nonfinite_as_int : Q -> Z.
Variable homography : Homography.
Variable src_image : ndarray Z.
Variable s : nat * nat * nat.

Hypothesis src_well_shaped : well_shaped src_image.
Hypothesis same_channels : shape_chans (shape src_image) = shape_chans s.





End FastWrites.


(** *** The warpers whatever the float64 arithmetic gives *)

Lemma for_each_ext {A S} (f g : S -> A -> result S) (xs : list A) (s : S) :
  (forall s a, f s a = g s a) -> for_each f xs s = for_each g xs s.
Proof.
  intros E. revert s. induction xs as [|x xs IH]; intros s; simpl; [reflexivity|].
  rewrite E. destruct (g s x); simpl; auto.
Qed.

Section SlowLoops.

Variable normalized_point : Homography -> nat -> nat -> result (Z * Z).
Variable homography : Homography.
Variable src_image : ndarray Z.
Variable s : nat * nat * nat.

Lemma loops_as_one_loop :
  Warp.compute_forward_homography_slow normalized_point homography src_image s =
  do dst <- for_each (Warp.slow_step normalized_point homography src_image s)
              (row_major (shape_rows (shape src_image)) (shape_cols (shape src_image)))
              (cells (zeros 0%Z s));
  Ok {| shape := s; cells := dst |}.
Proof.
  unfold Warp.compute_forward_homography_slow, row_major.
  rewrite <- (for_each_nested (Warp.slow_step normalized_point homography src_image s)).
  reflexivity.
Qed.

(** One iteration of the inner loop: a write to the computed target of the
    pixel, or nothing. *)
Lemma loops_step_spec (dst : list (list (list Z))) (p : nat * nat)
    (dst' : list (list (list Z))) :
  shaped s dst -> Warp.slow_step normalized_point homography src_image s dst p = Ok dst' ->
  shaped s dst' /\
  forall y x c, (y < shape_rows s)%nat -> (x < shape_cols s)%nat ->
                (c < shape_chans s)%nat ->
    cell_at dst' y x c =
    if bool_decide (Warp.slow_target normalized_point homography s p = Some (y, x))
    then cell_at (cells src_image) (fst p) (snd p) c
    else cell_at dst y x c.
Proof.
  intros Hs. destruct p as [row col].
  unfold Warp.slow_step, Warp.place_pixel, Warp.slow_target. cbn [fst snd].
  destruct (normalized_point homography row col) as [[n0 n1]|e]; cbn [rbind fst snd];
    [|discriminate].
  destruct (in_range n0 (shape_cols s) && in_range n1 (shape_rows s)) eqn:Hin.
  - apply andb_true_iff in Hin. destruct Hin as [Hx Hy].
    apply in_range_nat in Hx, Hy. intros Hrun.
    destruct (copy_channels_spec src_image s _ _ row col _ dst dst' Hs Hy Hx
                (Nat.le_refl _) Hrun) as [Hs' Hc'].
    split; [assumption|]. intros y x c _ _ Hc. rewrite Hc'.
    case_bool_decide as D1; case_bool_decide as D2; try reflexivity.
    + exfalso. apply D2. destruct D1 as [D1 _]. inversion D1; subst. reflexivity.
    + exfalso. apply D1. inversion D2; subst. split; [reflexivity | assumption].
  - intros E. inversion E; subst. split; [assumption|]. intros y x c _ _ _.
    case_bool_decide; [discriminate | reflexivity].
Qed.

End SlowLoops.

(** X13: what the loop version computes, whatever the float64 arithmetic
    of the targets gives.  Whenever it returns, the result has the canvas
    shape, and each cell holds the channel of the last source pixel, in the
    order of the loops (row by row), whose computed [normalized_point] is
    that cell, and zero when no source pixel is mapped there. *)
Theorem X13_slow_warp_is_last_writer
    (normalized_point : Homography -> nat -> nat -> result (Z * Z))
    (homography : Homography) (src_image : ndarray Z) (s : nat * nat * nat)
    (img : ndarray Z) :
  Warp.compute_forward_homography_slow normalized_point homography src_image s = Ok img ->
  shape img = s /\ well_shaped img /\
  forall y x c, (y < shape_rows s)%nat -> (x < shape_cols s)%nat ->
                (c < shape_chans s)%nat ->
    cell_at (cells img) y x c =
    match last_writer (Warp.slow_target normalized_point homography s)
            (row_major (shape_rows (shape src_image)) (shape_cols (shape src_image)))
            (y, x) with
    | Some p => cell_at (cells src_image) (fst p) (snd p) c
    | None => Some 0%Z
    end.
Proof.
  rewrite loops_as_one_loop.
  destruct (for_each _ _ (cells (zeros 0%Z s))) as [dst|] eqn:Hrun;
    cbn [rbind]; [|discriminate].
  intros E. inversion E; subst img. clear E. cbn [shape cells].
  destruct (writes_spec s (Warp.slow_step normalized_point homography src_image s)
              (Warp.slow_target normalized_point homography s)
              (fun p c => cell_at (cells src_image) (fst p) (snd p) c)
              (loops_step_spec normalized_point homography src_image s) _ _ _
              (shaped_zeros 0%Z s) Hrun) as [Hs Hc].
  split; [reflexivity|]. split; [exact Hs|].
  intros y x c Hy Hx Hch. rewrite (Hc y x c Hy Hx Hch).
  destruct (last_writer _ _ (y, x)); [reflexivity|].
  apply cell_at_zeros; assumption.
Qed.

Section FastLoops.

Variable normalized : Homography -> nat * nat -> Z * Z.
Variable homography : Homography.
Variable src_image : ndarray Z.
Variable s : nat * nat * nat.

Hypothesis src_well_shaped : well_shaped src_image.
Hypothesis same_channels : shape_chans (shape src_image) = shape_chans s.

Lemma indexed_as_one_loop :
  Warp.compute_forward_homography_fast normalized homography src_image s =
  do dst <- for_each (Warp.fast_step normalized homography src_image s)
              (meshgrid (shape_cols (shape src_image)) (shape_rows (shape src_image)))
              (cells (zeros 0%Z s));
  Ok {| shape := s; cells := dst |}.
Proof.
  unfold Warp.compute_forward_homography_fast. rewrite same_channels, Nat.eqb_refl.
  cbn [orb negb]. unfold Warp.fast_step. rewrite <- for_each_filter. reflexivity.
Qed.

Lemma indexed_in_canvas (p : nat * nat) :
  Warp.selected normalized homography s p = true ->
  (Z.to_nat (snd (normalized homography p)) < shape_rows s)%nat /\
  (Z.to_nat (fst (normalized homography p)) < shape_cols s)%nat.
Proof.
  unfold Warp.selected. destruct (normalized homography p) as [nx ny].
  rewrite !andb_true_iff, !Z.leb_le, !Z.ltb_lt. cbn [fst snd]. lia.
Qed.

Lemma indexed_step_spec (dst : list (list (list Z))) (p : nat * nat)
    (dst' : list (list (list Z))) :
  shaped s dst -> Warp.fast_step normalized homography src_image s dst p = Ok dst' ->
  shaped s dst' /\
  forall y x c, (y < shape_rows s)%nat -> (x < shape_cols s)%nat ->
                (c < shape_chans s)%nat ->
    cell_at dst' y x c =
    if bool_decide (Warp.fast_target normalized homography s p = Some (y, x))
    then cell_at (cells src_image) (snd p) (fst p) c
    else cell_at dst y x c.
Proof.
  intros Hs. unfold Warp.fast_step, Warp.fast_target.
  destruct (Warp.selected normalized homography s p) eqn:Hsel.
  - destruct (indexed_in_canvas p Hsel) as [Hy Hx]. unfold Warp.plant.
    destruct (normalized homography p) as [nx ny]. cbn [fst snd] in *.
    destruct (pixel_at (cells src_image) (snd p) (fst p)) as [px|] eqn:Hpx; [|discriminate].
    intros E. inversion E; subst dst'. clear E.
    assert (Hb : broadcast_pixel src_image s px = px).
    { unfold broadcast_pixel. rewrite same_channels, Nat.eqb_refl. reflexivity. }
    rewrite Hb.
    pose proof (source_pixel_length src_image _ _ px src_well_shaped Hpx) as Hlen.
    split; [apply shaped_set_pixel; [assumption | congruence]|].
    intros y x c _ _ _.
    destruct (decide ((y, x) = (Z.to_nat ny, Z.to_nat nx))) as [E|E].
    + inversion E; subst.
      destruct (shaped_pixel s dst _ _ Hs Hy Hx) as [old [Hold _]].
      rewrite (set_pixel_same dst _ _ px old c Hold).
      rewrite (cell_of_pixel _ _ _ c px Hpx).
      case_bool_decide; [reflexivity | congruence].
    + rewrite (set_pixel_other dst _ _ px y x c E).
      case_bool_decide as D; [|reflexivity]. inversion D; subst. contradiction.
  - intros E. inversion E; subst. split; [assumption|]. intros y x c _ _ _.
    case_bool_decide; [discriminate | reflexivity].
Qed.

Lemma indexed_step_returns (dst : list (list (list Z))) (p : nat * nat) :
  In p (meshgrid (shape_cols (shape src_image)) (shape_rows (shape src_image))) ->
  shaped s dst ->
  exists dst', Warp.fast_step normalized homography src_image s dst p = Ok dst' /\
               shaped s dst'.
Proof.
  intros Hp Hs. apply meshgrid_In in Hp. destruct Hp as [Hx Hy].
  destruct (source_pixel src_image (snd p) (fst p) src_well_shaped Hy Hx) as [px [Hpx _]].
  destruct (Warp.fast_step normalized homography src_image s dst p) as [dst'|e] eqn:E.
  - exists dst'. split; [reflexivity|]. apply (indexed_step_spec dst p dst' Hs E).
  - exfalso. unfold Warp.fast_step in E.
    destruct (Warp.selected normalized homography s p); [|discriminate].
    unfold Warp.plant in E. destruct (normalized homography p) as [nx ny].
    rewrite Hpx in E. discriminate.
Qed.

End FastLoops.

(** X14: what the vectorized version computes, whatever the float64
    arithmetic of the targets gives, on a source image with as many channels
    as the canvas.  It always returns, also when a third coordinate is zero;
    the result has the canvas shape, and each cell holds the channel of the
    last source pixel, in the order of the meshgrid (column by column),
    whose normalized integer target is that cell, and zero when there is
    none. *)
Theorem X14_fast_warp_is_last_writer
    (normalized : Homography -> nat * nat -> Z * Z) (homography : Homography)
    (src_image : ndarray Z) (s : nat * nat * nat) :
  well_shaped src_image ->
  shape_chans (shape src_image) = shape_chans s ->
  exists img,
    Warp.compute_forward_homography_fast normalized homography src_image s = Ok img /\
    shape img = s /\ well_shaped img /\
    forall y x c, (y < shape_rows s)%nat -> (x < shape_cols s)%nat ->
                  (c < shape_chans s)%nat ->
      cell_at (cells img) y x c =
      match last_writer (Warp.fast_target normalized homography s)
              (meshgrid (shape_cols (shape src_image)) (shape_rows (shape src_image)))
              (y, x) with
      | Some p => cell_at (cells src_image) (snd p) (fst p) c
      | None => Some 0%Z
      end.
Proof.
  intros Hw Hch. rewrite (indexed_as_one_loop normalized homography src_image s Hch).
  destruct (for_each_returns (shaped s)
              (Warp.fast_step normalized homography src_image s)
              (meshgrid (shape_cols (shape src_image)) (shape_rows (shape src_image)))
              (cells (zeros 0%Z s))) as [dst [Hrun _]].
  { intros dst p Hp Hs. apply indexed_step_returns; assumption. }
  { apply shaped_zeros. }
  rewrite Hrun. cbn [rbind]. eexists. split; [reflexivity|]. cbn [shape cells].
  destruct (writes_spec s (Warp.fast_step normalized homography src_image s)
              (Warp.fast_target normalized homography s)
              (fun p c => cell_at (cells src_image) (snd p) (fst p) c)
              (indexed_step_spec normalized homography src_image s Hw Hch) _ _ _
              (shaped_zeros 0%Z s) Hrun) as [Hs Hc].
  split; [reflexivity|]. split; [exact Hs|].
  intros y x c Hy Hx Hc'. rewrite (Hc y x c Hy Hx Hc').
  destruct (last_writer _ _ (y, x)); [reflexivity|].
  apply cell_at_zeros; assumption.
Qed.

(** In exact arithmetic the warpers of [Warp] are those of [Forward]. *)
Lemma exact_slow (homography : Homography) (src_image : ndarray Z) (s : nat * nat * nat) :
  Warp.compute_forward_homography_slow Warp.exact_point homography src_image s =
  compute_forward_homography_slow homography src_image s.
Proof.
  unfold Warp.compute_forward_homography_slow, compute_forward_homography_slow.
  f_equal. apply for_each_ext. intros dst row.
  unfold Warp.place_row, place_row. apply for_each_ext. clear dst. intros dst col.
  unfold Warp.place_pixel, place_pixel, Warp.exact_point.
  destruct (mat_vec homography (pixel_point col row)) as [[t0 t1] t2].
  destruct (int_quotient t0 t2) as [n0|]; cbn [rbind]; [|reflexivity].
  destruct (int_quotient t1 t2) as [n1|]; cbn [rbind fst snd]; reflexivity.
Qed.

Lemma exact_fast (nonfinite_as_int : Q -> Z) (homography : Homography)
    (src_image : ndarray Z) (s : nat * nat * nat) :
  Warp.compute_forward_homography_fast (target nonfinite_as_int) homography src_image s =
  compute_forward_homography_fast nonfinite_as_int homography src_image s.
Proof. reflexivity. Qed.



Section Agreement.

Variable homography : Homography.
Variable src_image : ndarray Z.
Variable s : nat * nat * nat.

Hypothesis src_well_shaped : well_shaped src_image.
Hypothesis enough_channels : (shape_chans s <= shape_chans (shape src_image))%nat.
Hypothesis finite :
  forall row col, (row < shape_rows (shape src_image))%nat ->
                  (col < shape_cols (shape src_image))%nat ->
    ~ (snd (mat_vec homography (pixel_point col row)) == 0)%Q.

Lemma copy_channels_return (y x row col n : nat) (dst : list (list (list Z))) :
  (row < shape_rows (shape src_image))%nat -> (col < shape_cols (shape src_image))%nat ->
  (n <= shape_chans (shape src_image))%nat ->
  exists dst', for_each (copy_channel src_image y x row col) (seq 0 n) dst = Ok dst'.
Proof.
  intros Hrow Hcol Hn.
  destruct (for_each_returns (fun _ => True) (copy_channel src_image y x row col)
              (seq 0 n) dst) as [dst' [E _]]; [|exact I|exists dst'; exact E].
  intros d c Hc _. apply in_seq in Hc. unfold copy_channel.
  destruct (cell_at_well_shaped src_image row col c src_well_shaped Hrow Hcol ltac:(lia))
    as [v Hv].
  rewrite Hv. eexists. split; [reflexivity | exact I].
Qed.

Lemma slow_step_returns (dst : list (list (list Z))) (p : nat * nat) :
  In p (row_major (shape_rows (shape src_image)) (shape_cols (shape src_image))) ->
  shaped s dst ->
  exists dst', slow_step homography src_image s dst p = Ok dst' /\ shaped s dst'.
Proof.
  intros Hp Hs. apply row_major_In in Hp. destruct Hp as [Hrow Hcol].
  assert (Hret : exists dst', slow_step homography src_image s dst p = Ok dst').
  { unfold slow_step, place_pixel. pose proof (finite _ _ Hrow Hcol) as Hfin.
    destruct (mat_vec homography (pixel_point (snd p) (fst p))) as [[t0 t1] t2].
    cbn [snd] in Hfin. unfold int_quotient, ext_div.
    destruct (Qeqb t2 0) eqn:E; [apply Qeqb_eq in E; contradiction|].
    cbn [ext_int rbind].
    destruct (in_range _ _ && in_range _ _); [|eexists; reflexivity].
    apply copy_channels_return; assumption. }
  destruct Hret as [dst' E]. exists dst'. split; [assumption|].
  apply (slow_step_spec homography src_image s dst p dst' Hs E).
Qed.

Lemma slow_returns :
  exists img, compute_forward_homography_slow homography src_image s = Ok img.
Proof.
  rewrite slow_as_one_loop.
  destruct (for_each_returns (shaped s) (slow_step homography src_image s)
              (row_major (shape_rows (shape src_image)) (shape_cols (shape src_image)))
              (cells (zeros 0%Z s))) as [dst [Hrun _]].
  - intros dst p Hp Hs. apply slow_step_returns; assumption.
  - apply shaped_zeros.
  - rewrite Hrun. eexists. reflexivity.
Qed.


End Agreement.


Lemma identity_target (s : nat * nat * nat) (row col : nat) :
  (row < shape_rows s)%nat -> (col < shape_cols s)%nat ->
  truncated_target ((1, 0, 0), (0, 1, 0), (0, 0, 1))%Q s (row, col) = Some (row, col).
Proof.
  intros Hrow Hcol. unfold truncated_target, mat_vec, dot3, pixel_point.
  set (c := inject_Z (Z.of_nat col)). set (r := inject_Z (Z.of_nat row)).
  assert (T2 : (0 * c + 0 * r + 1 * 1 == 1)%Q) by ring.
  destruct (Qeqb (0 * c + 0 * r + 1 * 1) 0) eqn:E.
  { apply Qeqb_eq in E. rewrite T2 in E. discriminate. }
  assert (Hx : Qtrunc ((1 * c + 0 * r + 0 * 1) / (0 * c + 0 * r + 1 * 1)) = Z.of_nat col).
  { apply GeometryMore.Qtrunc_of_Z; [lia|]. unfold c. field. }
  assert (Hy : Qtrunc ((0 * c + 1 * r + 0 * 1) / (0 * c + 0 * r + 1 * 1)) = Z.of_nat row).
  { apply GeometryMore.Qtrunc_of_Z; [lia|]. unfold r. field. }
  cbv zeta. rewrite Hx, Hy. unfold in_range.
  destruct (Z.leb_spec 0 (Z.of_nat col)); [|lia].
  destruct (Z.ltb_spec (Z.of_nat col) (Z.of_nat (shape_cols s))); [|lia].
  destruct (Z.leb_spec 0 (Z.of_nat row)); [|lia].
  destruct (Z.ltb_spec (Z.of_nat row) (Z.of_nat (shape_rows s))); [|lia].
  cbn [andb]. rewrite !Nat2Z.id. reflexivity.
Qed.

(** X16: under the identity homography, on a canvas of the shape of the
    source, the loop version returns the source image itself. *)
Theorem X16_identity_warp_reproduces_the_source (src_image : ndarray Z) :
  well_shaped src_image ->
  compute_forward_homography_slow ((1, 0, 0), (0, 1, 0), (0, 0, 1))%Q
    src_image (shape src_image) = Ok src_image.
Proof.
  intros Hw.
  destruct (slow_returns ((1, 0, 0), (0, 1, 0), (0, 0, 1))%Q src_image (shape src_image)
              Hw (Nat.le_refl _)) as [img E].
  { intros row col _ _ Z. unfold mat_vec, dot3, pixel_point in Z. cbn [snd] in Z.
    ring_simplify in Z. discriminate. }
  rewrite E. f_equal.
  destruct (slow_semantics _ _ _ img E) as (S1 & W1 & C1).
  destruct img as [s1 c1], src_image as [s0 c0]. cbn [shape cells] in *. subst s1.
  f_equal. apply (shaped_ext s0); [exact W1 | exact Hw|].
  intros y x c Hy Hx Hc. rewrite (C1 y x c Hy Hx Hc).
  rewrite (last_writer_unique _ _ (y, x) (y, x)).
  - reflexivity.
  - intros [qr qc] Hq Hq'. apply row_major_In in Hq. cbn [fst snd] in Hq.
    rewrite identity_target in Hq' by lia. congruence.
  - apply row_major_In. cbn [fst snd]. lia.
  - apply identity_target; assumption.
Qed.

End WarpFacts.

(** ** The translated backward homography and the backward mapping *)

Lemma Qdiv_nonzero (c n : Q) : ~ (n == 0)%Q -> ~ (c == 0)%Q -> ~ (c / n == 0)%Q.
Proof.
  intros Hn Hc Z. apply Hc.
  assert (E : (c == c / n * n)%Q) by (field; assumption).
  rewrite E, Z. ring.
Qed.

Module BackwardFacts.
Import Forward Backward Derived.

Lemma mat_vec_translated (Hb : Homography) (pl pu x y xs ys : Q) :
  (xs == x - pl)%Q -> (ys == y - pu)%Q ->
  let '(a, b, c) := mat_vec Hb (xs, ys, 1)%Q in
  let '(a', b', c') :=
    mat_vec (mat_mul Hb ((1, 0, - pl), (0, 1, - pu), (0, 0, 1))%Q) (x, y, 1)%Q in
  (a' == a /\ b' == b /\ c' == c)%Q.
Proof.
  intros Hx Hy.
  destruct Hb as [[[[h00 h01] h02] [[h10 h11] h12]] [[h20 h21] h22]].
  unfold mat_vec, mat_mul, dot3. rewrite Hx, Hy. repeat split; ring.
Qed.

Lemma mat_vec_div (r0 r1 r2 : vec3) (n : Q) (v : vec3) :
  ~ (n == 0)%Q ->
  let '(a, b, c) := mat_vec (r0, r1, r2) v in
  let '(a', b', c') := mat_vec (div_vec r0 n, div_vec r1 n, div_vec r2 n) v in
  (a' == a / n /\ b' == b / n /\ c' == c / n)%Q.
Proof.
  intros Hn. destruct r0 as [[a0 a1] a2], r1 as [[b0 b1] b2], r2 as [[c0 c1] c2].
  destruct v as [[x y] z]. unfold mat_vec, div_vec, dot3.
  repeat split; field; assumption.
Qed.

(** The translated homography at [(x, y)] against the backward homography
    at the point [(xs, ys)] that is [(x - pad_left, y - pad_up)]. *)
Lemma translated_components
    (norm_of : Homography -> Q) (Hb Ht : Homography) (pad_left pad_up : Z)
    (x y xs ys : Q) :
  add_translation_to_backward_homography norm_of Hb pad_left pad_up = Some Ht ->
  (xs == x - inject_Z pad_left)%Q -> (ys == y - inject_Z pad_up)%Q ->
  let '(a, b, c) := mat_vec Hb (xs, ys, 1)%Q in
  let '(a', b', c') := mat_vec Ht (x, y, 1)%Q in
  exists n, ~ (n == 0)%Q /\ (a' == a / n)%Q /\ (b' == b / n)%Q /\ (c' == c / n)%Q.
Proof.
  intros Hadd Hx Hy. unfold add_translation_to_backward_homography in Hadd.
  cbv zeta in Hadd.
  pose proof (mat_vec_translated Hb (inject_Z pad_left) (inject_Z pad_up) x y xs ys Hx Hy)
    as Ht0.
  set (T := mat_mul Hb _) in *.
  destruct (Qeqb (norm_of T) 0) eqn:En; [discriminate|].
  assert (Hn : ~ (norm_of T == 0)%Q).
  { intros Z. apply Qeqb_eq in Z. congruence. }
  destruct T as [[r0 r1] r2]. inversion Hadd; subst Ht. clear Hadd.
  pose proof (mat_vec_div r0 r1 r2 (norm_of (r0, r1, r2)) (x, y, 1)%Q Hn) as Hd.
  destruct (mat_vec Hb (xs, ys, 1%Q)) as [[a b] c].
  destruct (mat_vec (r0, r1, r2) (x, y, 1%Q)) as [[a0 b0] c0].
  destruct (mat_vec _ (x, y, 1%Q)) as [[a' b'] c'].
  destruct Ht0 as (Ea & Eb & Ec). destruct Hd as (Da & Db & Dc).
  exists (norm_of (r0, r1, r2)). split; [assumption|].
  rewrite Da, Db, Dc, Ea, Eb, Ec. repeat split; reflexivity.
Qed.

(** X17: the homography that [add_translation_to_backward_homography]
    returns, when the norm of the composed matrix is not zero, sends the
    canvas point (x, y) where the backward homography sends
    (x - pad_left, y - pad_up): the three homogeneous coordinates differ by
    one non-zero factor, so that the normalized points are equal. *)
Theorem X17_translation_undoes_the_padding
    (norm_of : Homography -> Q) (Hb Ht : Homography) (pad_left pad_up : Z) (x y : Q) :
  add_translation_to_backward_homography norm_of Hb pad_left pad_up = Some Ht ->
  let '(a, b, c) := mat_vec Hb (x - inject_Z pad_left, y - inject_Z pad_up, 1)%Q in
  let '(a', b', c') := mat_vec Ht (x, y, 1)%Q in
  (exists n, ~ (n == 0)%Q /\ (a' == a / n)%Q /\ (b' == b / n)%Q /\ (c' == c / n)%Q) /\
  (~ (c == 0)%Q -> ~ (c' == 0)%Q /\ (a' / c' == a / c)%Q /\ (b' / c' == b / c)%Q).
Proof.
  intros Hadd.
  pose proof (translated_components norm_of Hb Ht pad_left pad_up x y _ _ Hadd
                (Qeq_refl _) (Qeq_refl _)) as Hc.
  destruct (mat_vec Hb _) as [[a b] c]. destruct (mat_vec Ht _) as [[a' b'] c'].
  destruct Hc as (n & Hn & Ea & Eb & Ec). split.
  - exists n. repeat split; assumption.
  - intros Hc0. rewrite Ea, Eb, Ec. split.
    + apply Qdiv_nonzero; assumption.
    + split; field; split; assumption.
Qed.

Lemma chunks_length {A} (n count : nat) (l : list A) : length (chunks n count l) = count.
Proof.
  revert l. induction count as [|count IH]; intros l; simpl; [reflexivity|].
  rewrite IH. reflexivity.
Qed.

Lemma chunks_lookup {A} (n count i : nat) (l : list A) :
  (i < count)%nat -> chunks n count l !! i = Some (take n (drop (i * n) l)).
Proof.
  revert i l. induction count as [|count IH]; intros i l Hi; [lia|].
  destruct i as [|i]; [reflexivity|].
  cbn [chunks]. rewrite lookup_cons. rewrite IH by lia.
  rewrite drop_drop. reflexivity.
Qed.

Lemma chunks_concat {A} (n : nat) (ls : list (list A)) :
  Forall (fun l => length l = n) ls -> chunks n (length ls) (concat ls) = ls.
Proof.
  induction 1 as [|l ls Hl _ IH]; [reflexivity|].
  cbn [length concat chunks].
  rewrite take_app_length', drop_app_length' by (symmetry; assumption).
  rewrite IH. reflexivity.
Qed.

Lemma concat_length_uniform {A} (n : nat) (ls : list (list A)) :
  Forall (fun l => length l = n) ls -> length (concat ls) = (length ls * n)%nat.
Proof.
  induction 1 as [|l ls Hl _ IH]; [reflexivity|].
  cbn [length concat]. rewrite length_app, IH, Hl. simpl. reflexivity.
Qed.

(** In a list of rows of one length, the element [i * n + j] of the
    concatenation is the element [j] of the row [i]. *)
Lemma concat_lookup {A} (n : nat) (ls : list (list A)) (i j : nat) :
  Forall (fun l => length l = n) ls -> (j < n)%nat ->
  concat ls !! (i * n + j)%nat =
  match ls !! i with
  | Some l => l !! j
  | None => None
  end.
Proof.
  intros Hall Hj. revert i. induction Hall as [|l ls Hl _ IH]; intros i.
  - simpl. rewrite !lookup_nil. reflexivity.
  - destruct i as [|i]; cbn [concat].
    + simpl. apply lookup_app_l. lia.
    + rewrite lookup_app_r by (simpl; lia). rewrite lookup_cons.
      replace (S i * n + j - length l)%nat with (i * n + j)%nat by (simpl; lia).
      apply IH.
Qed.

Lemma indices_lookup (rows cols i j : nat) :
  (i < rows)%nat -> (j < cols)%nat ->
  indices rows cols !! (i * cols + j)%nat = Some (i, j).
Proof.
  intros Hi Hj. unfold indices. rewrite flat_map_concat_map.
  rewrite (concat_lookup cols) by
    (try assumption; apply Forall_map, Forall_forall; intros; simpl;
     rewrite length_map, length_seq; reflexivity).
  rewrite lookup_map, (lookup_seq_lt 0 rows i Hi).
  cbn [option_map]. rewrite lookup_map, (lookup_seq_lt 0 cols j Hj). reflexivity.
Qed.

Lemma indices_length (rows cols : nat) : length (indices rows cols) = (rows * cols)%nat.
Proof.
  unfold indices. rewrite flat_map_concat_map.
  rewrite (concat_length_uniform cols).
  - rewrite length_map, length_seq. reflexivity.
  - apply Forall_map, Forall_forall. intros; simpl.
    rewrite length_map, length_seq. reflexivity.
Qed.

(** A position below [rows * cols] is [i * cols + j] for a row and a column. *)
Lemma position_split (rows cols n : nat) :
  (n < rows * cols)%nat ->
  exists i j, (i < rows)%nat /\ (j < cols)%nat /\ n = (i * cols + j)%nat.
Proof.
  intros Hn. assert (Hc : cols <> 0%nat) by nia.
  exists (n / cols)%nat, (n mod cols)%nat. split; [|split].
  - apply Nat.Div0.div_lt_upper_bound. lia.
  - apply Nat.mod_upper_bound. assumption.
  - pose proof (Nat.div_mod_eq n cols). lia.
Qed.

Lemma collect_values {P A} (f : P -> option A) (e : exn) (l : list P) (xs acc : list A) :
  Forall2 (fun p x => f p = Some x) l xs ->
  for_each (fun acc p => match f p with
                         | Some x => Ok (acc ++ [x])
                         | None => Raise e
                         end) l acc = Ok (acc ++ xs).
Proof.
  intros H. revert acc. induction H as [|p x l xs Hp _ IH]; intros acc.
  - simpl. rewrite app_nil_r. reflexivity.
  - cbn [for_each]. rewrite Hp. cbn [rbind]. rewrite IH, <- app_assoc. reflexivity.
Qed.

Lemma well_shaped_rows {A} (a : ndarray A) :
  well_shaped a -> Forall (fun row => length row = shape_cols (shape a)) (cells a).
Proof.
  intros [_ H]. eapply Forall_impl; [exact H|]. intros row [Hr _]. exact Hr.
Qed.

(** The pixels of a well-shaped image in row-major order. *)
Lemma src_values_spec (src_image : ndarray Z) :
  well_shaped src_image -> src_values src_image = Ok (concat (cells src_image)).
Proof.
  intros Hw. unfold src_values.
  rewrite (collect_values (fun p => pixel_at (cells src_image) (fst p) (snd p)) IndexError
             _ (concat (cells src_image)) []); [reflexivity|].
  pose proof (well_shaped_rows _ Hw) as Hrows. destruct Hw as [Hlen Hall].
  apply Forall2_same_length_lookup. split.
  - rewrite indices_length, (concat_length_uniform _ _ Hrows), Hlen. reflexivity.
  - intros n p x Hp Hx.
    assert (Hn : (n < shape_rows (shape src_image) * shape_cols (shape src_image))%nat).
    { rewrite <- indices_length. apply (lookup_lt_Some _ _ _ Hp). }
    destruct (position_split _ _ _ Hn) as (i & j & Hi & Hj & ->).
    rewrite indices_lookup in Hp by assumption. inversion Hp; subst p. cbn [fst snd].
    rewrite (concat_lookup _ _ _ _ Hrows Hj) in Hx. exact Hx.
Qed.

Lemma chunks_Forall {A} (P : list A -> Prop) (n count : nat) (l : list A) :
  (forall i, (i < count)%nat -> P (take n (drop (i * n) l))) ->
  Forall P (chunks n count l).
Proof.
  intros H. apply Forall_lookup. intros i x Hx.
  assert (Hi : (i < count)%nat).
  { rewrite <- (chunks_length n count l). apply (lookup_lt_Some _ _ _ Hx). }
  rewrite chunks_lookup in Hx by assumption. inversion Hx; subst. apply H. assumption.
Qed.

(** [reshape3] of the concatenation of [rows * cols] rows of [chans] values. *)
Lemma reshape3_rows {A} (answers : list (list A)) (s : nat * nat * nat) :
  length answers = (shape_rows s * shape_cols s)%nat ->
  Forall (fun a => length a = shape_chans s) answers ->
  exists img,
    reshape3 (concat answers) s = Ok img /\ shape img = s /\ well_shaped img /\
    forall i j, (i < shape_rows s)%nat -> (j < shape_cols s)%nat ->
      pixel_at (cells img) i j = answers !! (i * shape_cols s + j)%nat.
Proof.
  destruct s as [[R C] Ch]. cbn [shape_rows shape_cols shape_chans fst snd].
  intros Hlen Hall. unfold reshape3.
  rewrite (concat_length_uniform Ch _ Hall), Hlen, Nat.eqb_refl. cbn [negb].
  rewrite <- Hlen, (chunks_concat Ch _ Hall).
  eexists. split; [reflexivity|]. cbn [shape cells]. split; [reflexivity|]. split.
  - unfold well_shaped. cbn [shape cells shape_rows shape_cols shape_chans fst snd].
    split; [apply chunks_length|].
    apply chunks_Forall. intros i Hi. split.
    + rewrite length_take, length_drop, Hlen. nia.
    + apply Forall_take, Forall_drop. assumption.
  - intros i j Hi Hj. unfold pixel_at. rewrite chunks_lookup by assumption.
    rewrite lookup_take_lt by assumption. apply lookup_drop.
Qed.

(** X19: what [compute_backward_mapping] computes from the answer of
    [griddata], whatever the float64 arithmetic of the queries gives.  On a
    well-shaped source image, when the interpolation answers one row of
    [shape_chans s] values for each of the [rows * cols] queries, the
    function returns a well-shaped image of the requested shape; its pixel
    of row [i] and column [j] is the answer to the query number
    [i * cols + j], and that query is the one computed for the canvas pixel
    of row [i] and column [j]. *)
Theorem X19_backward_mapping_pixels
    (dst_query : Homography -> nat -> nat -> Z * Z)
    (griddata : list (Z * Z) -> list (list Z) -> list (Z * Z) -> result (list (list ext)))
    (H : Homography) (src_image : ndarray Z) (s : nat * nat * nat)
    (answers : list (list ext)) :
  well_shaped src_image ->
  griddata (src_cords src_image) (concat (cells src_image))
           (dst_cords dst_query H s) = Ok answers ->
  length answers = (shape_rows s * shape_cols s)%nat ->
  Forall (fun a => length a = shape_chans s) answers ->
  exists img,
    compute_backward_mapping dst_query griddata H src_image s = Ok img /\
    shape img = s /\ well_shaped img /\
    length (dst_cords dst_query H s) = (shape_rows s * shape_cols s)%nat /\
    forall i j, (i < shape_rows s)%nat -> (j < shape_cols s)%nat ->
      pixel_at (cells img) i j = answers !! (i * shape_cols s + j)%nat /\
      dst_cords dst_query H s !! (i * shape_cols s + j)%nat = Some (dst_query H i j).
Proof.
  intros Hw Hgrid Hlen Hall. unfold compute_backward_mapping.
  rewrite (src_values_spec _ Hw). cbn [rbind]. rewrite Hgrid. cbn [rbind].
  destruct (reshape3_rows answers s Hlen Hall) as (img & E & Hs & Hws & Hpx).
  exists img. split; [assumption|]. split; [assumption|]. split; [assumption|].
  split; [unfold dst_cords; rewrite length_map; apply indices_length|].
  intros i j Hi Hj. split; [apply Hpx; assumption|].
  unfold dst_cords. rewrite lookup_map, indices_lookup by assumption. reflexivity.
Qed.

(** X20: the known points that [compute_backward_mapping] hands to
    [griddata].  For a well-shaped source image the values are its pixels
    in row-major order, one for each point, and the point number
    [i * cols + j] is (x, y) = (j, i) with the pixel of row [i] and
    column [j] as its value. *)
Theorem X20_backward_mapping_samples (src_image : ndarray Z) :
  well_shaped src_image ->
  src_values src_image = Ok (concat (cells src_image)) /\
  length (src_cords src_image) = length (concat (cells src_image)) /\
  forall i j, (i < shape_rows (shape src_image))%nat ->
              (j < shape_cols (shape src_image))%nat ->
    src_cords src_image !! (i * shape_cols (shape src_image) + j)%nat =
      Some (Z.of_nat j, Z.of_nat i) /\
    concat (cells src_image) !! (i * shape_cols (shape src_image) + j)%nat =
      pixel_at (cells src_image) i j.
Proof.
  intros Hw. split; [apply src_values_spec; assumption|].
  pose proof (well_shaped_rows _ Hw) as Hrows. split.
  - unfold src_cords. rewrite length_map, indices_length.
    rewrite (concat_length_uniform _ _ Hrows). destruct Hw as [-> _]. reflexivity.
  - intros i j Hi Hj. split.
    + unfold src_cords. rewrite lookup_map, indices_lookup by assumption. reflexivity.
    + unfold pixel_at. apply concat_lookup; assumption.
Qed.

(** X21: [compute_backward_mapping] cannot fill a requested shape whose
    number of channels is not the one of the answers.  When the
    interpolation answers rows of [k] values, [k] different from
    [shape_chans s], for a canvas that is not empty, the final reshape
    raises a [ValueError]. *)
Theorem X21_backward_mapping_channel_mismatch
    (dst_query : Homography -> nat -> nat -> Z * Z)
    (griddata : list (Z * Z) -> list (list Z) -> list (Z * Z) -> result (list (list ext)))
    (H : Homography) (src_image : ndarray Z) (s : nat * nat * nat)
    (answers : list (list ext)) (k : nat) :
  well_shaped src_image ->
  griddata (src_cords src_image) (concat (cells src_image))
           (dst_cords dst_query H s) = Ok answers ->
  length answers = (shape_rows s * shape_cols s)%nat ->
  Forall (fun a => length a = k) answers ->
  k <> shape_chans s ->
  (0 < shape_rows s)%nat -> (0 < shape_cols s)%nat ->
  compute_backward_mapping dst_query griddata H src_image s = Raise ValueError.
Proof.
  intros Hw Hgrid Hlen Hall Hk Hr Hc. unfold compute_backward_mapping.
  rewrite (src_values_spec _ Hw). cbn [rbind]. rewrite Hgrid. cbn [rbind].
  destruct s as [[R C] Ch]. cbn [shape_rows shape_cols shape_chans fst snd] in *.
  unfold reshape3. rewrite (concat_length_uniform k _ Hall), Hlen.
  destruct (Nat.eqb_spec (R * C * k) (R * C * Ch)) as [E|E]; [|reflexivity].
  exfalso. apply Hk. nia.
Qed.

End BackwardFacts.

(** ** When the loop version returns *)

Module WarpMore.
Import Forward Derived WarpFacts.

(** A loop raises when the body raises on one of its elements whatever the
    state is. *)
Lemma for_each_raises {A S} (body : S -> A -> result S) (xs : list A) (x : A) (s : S) :
  In x xs -> (forall s', exists e, body s' x = Raise e) ->
  exists e, for_each body xs s = Raise e.
Proof.
  intros Hin Hx. revert s. induction xs as [|a xs IH]; intros s; [contradiction|].
  cbn [for_each]. destruct Hin as [->|Hin].
  - destruct (Hx s) as [e E]. rewrite E. exists e. reflexivity.
  - destruct (body s a) as [s'|e]; cbn [rbind]; [apply IH; assumption|].
    exists e. reflexivity.
Qed.

(** The loop body raises on a source pixel with a zero third coordinate. *)
Lemma slow_step_raises (homography : Homography) (src_image : ndarray Z)
    (s : nat * nat * nat) (row col : nat) (dst : list (list (list Z))) :
  (snd (mat_vec homography (pixel_point col row)) == 0)%Q ->
  exists e, slow_step homography src_image s dst (row, col) = Raise e.
Proof.
  intros Hz. unfold slow_step, place_pixel. cbn [fst snd].
  destruct (mat_vec homography (pixel_point col row)) as [[t0 t1] t2]. cbn [snd] in Hz.
  apply Qeqb_eq in Hz. unfold int_quotient, ext_div. rewrite Hz.
  destruct (Qltb 0 t0); [eexists; reflexivity|].
  destruct (Qltb t0 0); eexists; reflexivity.
Qed.

(** X22: for a well-shaped source image with at least the channels of the
    canvas, [compute_forward_homography_slow] returns an image exactly when
    no source pixel has a zero third homogeneous coordinate; one such pixel
    anywhere in the image makes the whole call raise. *)
Theorem X22_slow_warp_returns_iff_finite
    (homography : Homography) (src_image : ndarray Z) (s : nat * nat * nat) :
  well_shaped src_image ->
  (shape_chans s <= shape_chans (shape src_image))%nat ->
  (exists img, compute_forward_homography_slow homography src_image s = Ok img) <->
  (forall row col, (row < shape_rows (shape src_image))%nat ->
                   (col < shape_cols (shape src_image))%nat ->
     ~ (snd (mat_vec homography (pixel_point col row)) == 0)%Q).
Proof.
  intros Hw Hch. split.
  - intros [img E] row col Hrow Hcol Hz.
    rewrite slow_as_one_loop in E.
    destruct (for_each_raises (slow_step homography src_image s)
                (row_major (shape_rows (shape src_image)) (shape_cols (shape src_image)))
                (row, col) (cells (zeros 0%Z s))) as [e Hraise].
    + apply row_major_In. cbn [fst snd]. split; assumption.
    + intros dst. apply slow_step_raises. assumption.
    + rewrite Hraise in E. discriminate.
  - intros Hfin. apply slow_returns; assumption.
Qed.

End WarpMore.

(** ** The panorama outside of the destination image *)

Module PanoramaMore.
Import Panorama PanoramaFacts PanoramaClaims Geometry GeometryFacts.

Section Outside.

Variable nan_as_int : Z.
Variables rows cols : Z.
Variable pad : PadStruct.
Variable backward_map : ndarray ext.
Variable dst_image : ndarray Z.
Variables h w : nat.

Hypothesis pad_up_nonneg : (0 <= pad_up pad)%Z.
Hypothesis pad_left_nonneg : (0 <= pad_left pad)%Z.
Hypothesis rows_fit : (pad_up pad + Z.of_nat h <= rows)%Z.
Hypothesis cols_fit : (pad_left pad + Z.of_nat w <= cols)%Z.
Hypothesis backward_shape : shape backward_map = (Z.to_nat rows, Z.to_nat cols, 3%nat).
Hypothesis backward_well_shaped : well_shaped backward_map.
Hypothesis dst_shape : shape dst_image = (h, w, 3%nat).

(** Steps 5 to 7 outside of the rectangle of the destination image: the
    cell of the warped image, clipped and cast. *)
Lemma compose_outside :
  exists img,
    compose nan_as_int rows cols pad backward_map dst_image = Ok img /\
    forall y x k,
      (y < Z.to_nat rows)%nat -> (x < Z.to_nat cols)%nat -> (k < 3)%nat ->
      (y < Z.to_nat (pad_up pad) \/ Z.to_nat (pad_up pad) + h <= y \/
       x < Z.to_nat (pad_left pad) \/ Z.to_nat (pad_left pad) + w <= x)%nat ->
      cell_at (cells img) y x k =
      option_map (fun v => to_uint8 nan_as_int (clip v)) (cell_at (cells backward_map) y x k).
Proof.
  unfold compose, zero_canvas.
  destruct (Z.ltb_spec rows 0); [lia|]. destruct (Z.ltb_spec cols 0); [lia|].
  cbn [orb rbind]. set (canvas0 := zeros (Fin 0) (Z.to_nat rows, Z.to_nat cols, 3%nat)).
  change (shape canvas0) with (Z.to_nat rows, Z.to_nat cols, 3%nat). cbv iota beta.
  rewrite backward_shape, dst_shape. cbn [shape_rows shape_cols fst snd].
  rewrite !Z2Nat.id by lia.
  rewrite (slice_bounds_inside 0 rows) by lia.
  rewrite (slice_bounds_inside 0 cols) by lia.
  rewrite (slice_bounds_inside (pad_up pad)) by lia.
  rewrite (slice_bounds_inside (pad_left pad)) by lia.
  destruct (assign_region_fits canvas0 (Z.to_nat 0) (Z.to_nat rows) (Z.to_nat 0)
              (Z.to_nat cols) backward_map _ _ _ backward_shape) as [canvas1 E1];
    [simpl; lia | simpl; lia | reflexivity |].
  rewrite E1. cbn [rbind].
  pose proof (assign_region_shape _ _ _ _ _ E1) as S1.
  destruct (assign_region_fits canvas1 (Z.to_nat (pad_up pad))
              (Z.to_nat (pad_up pad + Z.of_nat h)) (Z.to_nat (pad_left pad))
              (Z.to_nat (pad_left pad + Z.of_nat w))
              (ndarray_map (fun v => Fin (inject_Z v)) dst_image) h w 3%nat)
    as [canvas2 E2]; [exact dst_shape | lia | lia | rewrite S1; reflexivity |].
  rewrite E2. cbn [rbind].
  eexists. split; [reflexivity|]. cbn [shape cells ndarray_map].
  intros y x k Hy Hx Hk Hout. rewrite cell_at_map.
  assert (Hz : cell_at (cells canvas0) y x k = Some (Fin 0)).
  { apply cell_at_zeros; cbn [shape_rows shape_cols shape_chans fst snd]; lia. }
  pose proof (assign_region_cell _ _ _ _ _ _ _ _ _ _ _ E1 Hz) as C1.
  pose proof (assign_region_cell _ _ _ _ _ _ _ _ _ _ _ E2 C1) as C2.
  rewrite C2. clear C1 C2.
  assert (Hnot : ((Z.to_nat (pad_up pad) <=? y)%nat &&
                  (y <? Z.to_nat (pad_up pad + Z.of_nat h))%nat) &&
                 ((Z.to_nat (pad_left pad) <=? x)%nat &&
                  (x <? Z.to_nat (pad_left pad + Z.of_nat w))%nat) = false).
  { apply not_true_is_false. rewrite !andb_true_iff, !Nat.leb_le, !Nat.ltb_lt. lia. }
  rewrite Hnot.
  assert (Hin : ((Z.to_nat 0 <=? y)%nat && (y <? Z.to_nat rows)%nat) &&
                ((Z.to_nat 0 <=? x)%nat && (x <? Z.to_nat cols)%nat) = true).
  { rewrite !andb_true_iff, !Nat.leb_le, !Nat.ltb_lt. lia. }
  rewrite Hin. rewrite backward_shape. cbn [shape_rows shape_cols shape_chans fst snd].
  change (Z.to_nat 0) with 0%nat. rewrite !Nat.sub_0_r.
  rewrite !broadcast_index_lt by assumption.
  destruct (cell_at_well_shaped backward_map y x k backward_well_shaped) as [v Hv];
    try (rewrite backward_shape; cbn [shape_rows shape_cols shape_chans fst snd]; assumption).
  rewrite Hv. reflexivity.
Qed.

End Outside.

(** X23: outside of the rectangle of the destination image the panorama
    shows the backward warp.  When both robust estimations, the canvas
    geometry and the backward warp return, the warp being well-shaped and of
    the canvas shape, every cell of the panorama that is not in the region
    of the destination image is the cell of the warp clipped to [0, 255]
    and cast to uint8; a nan of the warp becomes the platform's cast of nan,
    not a zero. *)
Theorem X23_panorama_outside_is_the_clipped_warp
    (svd_Vh : matrix -> matrix) (ransac_k : Q -> result Z)
    (draw_forward draw_backward : nat -> nat -> list nat)
    (backward_map_of :
       Homography -> Z -> Z -> ndarray Z -> nat * nat * nat -> result (ndarray ext))
    (nan_as_int : Z)
    (src_image dst_image : ndarray Z) (match_p_src match_p_dst : list point)
    (inliers_percent max_err : Q)
    (homography backward_homography : Homography)
    (rows cols : Z) (pad : PadStruct) (backward_map : ndarray ext) (h w : nat) :
  Ransac.compute_homography svd_Vh ransac_k draw_forward
    match_p_src match_p_dst inliers_percent max_err = Ok homography ->
  find_panorama_shape src_image dst_image homography = Ok (rows, cols, pad) ->
  Ransac.compute_homography svd_Vh ransac_k draw_backward
    match_p_dst match_p_src inliers_percent max_err = Ok backward_homography ->
  backward_map_of backward_homography (pad_left pad) (pad_up pad) src_image
    (Z.to_nat rows, Z.to_nat cols, 3%nat) = Ok backward_map ->
  shape backward_map = (Z.to_nat rows, Z.to_nat cols, 3%nat) ->
  well_shaped backward_map ->
  shape dst_image = (h, w, 3%nat) ->
  exists img,
    panorama svd_Vh ransac_k draw_forward draw_backward backward_map_of nan_as_int
      src_image dst_image match_p_src match_p_dst inliers_percent max_err = Ok img /\
    forall y x k,
      (y < Z.to_nat rows)%nat -> (x < Z.to_nat cols)%nat -> (k < 3)%nat ->
      (y < Z.to_nat (pad_up pad) \/ Z.to_nat (pad_up pad) + h <= y \/
       x < Z.to_nat (pad_left pad) \/ Z.to_nat (pad_left pad) + w <= x)%nat ->
      cell_at (cells img) y x k =
      option_map (fun v => to_uint8 nan_as_int (clip v)) (cell_at (cells backward_map) y x k) /\
      (cell_at (cells backward_map) y x k = Some ENaN ->
       cell_at (cells img) y x k = Some (nan_as_int mod 256)%Z).
Proof.
  intros Hfwd Hshape Hbwd Hmap Hbm Hwell Hdst.
  unfold panorama. rewrite Hfwd. cbn [rbind]. rewrite Hshape. cbn [rbind].
  rewrite Hbwd. cbn [rbind]. rewrite Hmap. cbn [rbind].
  pose proof (returned_shape src_image dst_image homography rows cols pad Hshape)
    as (_ & _ & Hu & _ & Hl & _).
  pose proof (destination_fits src_image dst_image homography rows cols pad Hshape)
    as [Hr Hc].
  rewrite Hdst in Hr, Hc. cbn [shape_rows shape_cols fst snd] in Hr, Hc.
  destruct (compose_outside nan_as_int rows cols pad backward_map dst_image h w
              Hu Hl Hr Hc Hbm Hwell Hdst) as [img [E Hout]].
  exists img. split; [assumption|].
  intros y x k Hy Hx Hk Ho. pose proof (Hout y x k Hy Hx Hk Ho) as Hcell.
  split; [assumption|]. intros Hnan. rewrite Hcell, Hnan. reflexivity.
Qed.

End PanoramaMore.

(** ** The further properties on concrete inputs *)

Module MoreChecks.
Import Examples.

Lemma X2_witness :
  exists f' d',
    Scorer.test_homography shift_23 outlier_src outlier_dst 100 = Ok (f', d') /\
    (4 # 5 <= f')%Q.
Proof.
  apply (ScorerMore.X2_fit_percent_monotone shift_23 outlier_src outlier_dst
           (1 # 2) 100 (4 # 5) (Sqrt 0)).
  - vm_compute. discriminate.
  - vm_compute. reflexivity.
Defined.

Lemma X4_witness :
  exists ms md,
    Scorer.meet_the_model_points shift_23 outlier_src outlier_dst (1 # 2) = Ok (ms, md) /\
    length ms = length (Derived.inliers_of shift_23 outlier_src outlier_dst (1 # 2)) /\
    length md = length (Derived.inliers_of shift_23 outlier_src outlier_dst (1 # 2)) /\
    (forall k i,
       Derived.inliers_of shift_23 outlier_src outlier_dst (1 # 2) !! k = Some i ->
       (i < length outlier_src)%nat /\
       ms !! k = outlier_src !! i /\ md !! k = outlier_dst !! i) /\
    (forall a b i j, (a < b)%nat ->
       Derived.inliers_of shift_23 outlier_src outlier_dst (1 # 2) !! a = Some i ->
       Derived.inliers_of shift_23 outlier_src outlier_dst (1 # 2) !! b = Some j ->
       (i < j)%nat).
Proof.
  apply (ScorerMore.X4_meet_the_model_points shift_23 outlier_src outlier_dst (1 # 2)).
  reflexivity.
Defined.

Lemma X6_witness :
  exists H,
    Naive.compute_homography_naive (svd_with (translation 2 3)) square_src square_dst = Ok H.
Proof.
  refine (proj1 (proj1 (NaiveMore.X6_naive_returns_iff_same_length
                          (svd_with (translation 2 3)) square_src square_dst _)) _).
  - intros m. exists (translation 2 3). split; reflexivity.
  - reflexivity.
Defined.

Lemma X7_witness :
  exists ref_mat,
    Naive.build_ref_mat square_src square_dst = Ok ref_mat /\
    (Forall (fun row => (dot_list row (Derived.flatten shift_23) == 0)%Q) ref_mat <->
     forall i s d, square_src !! i = Some s -> square_dst !! i = Some d ->
                   Derived.maps_onto shift_23 s d).
Proof.
  apply (NaiveMore.X7_null_vectors_are_exact_homographies shift_23 square_src square_dst).
  reflexivity.
Defined.

Lemma X8_witness :
  Ransac.compute_homography (svd_with (translation 0 0)) ransac_k_one draw_first_four
    three_points three_points 1 (1 # 2) = Raise ValueError.
Proof.
  apply (RansacMore.X8_fewer_than_four_cannot_sample (svd_with (translation 0 0))
           ransac_k_one draw_first_four three_points three_points 1 (1 # 2) 1).
  - simpl. lia.
  - reflexivity.
  - lia.
Defined.

Lemma X9_witness :
  exists k i d,
    ransac_k_half (1 # 2) = Ok k /\ (i < Z.to_nat (k * 10))%nat /\
    Ransac.trial svd_eight draw_first_four eight_src eight_dst (1 # 2) (1 # 2) i =
      Ok (Some (shift_17, d)) /\
    num_ltb d (Rat Ransac.initial_mse) = true /\
    (forall j h' d', (j < Z.to_nat (k * 10))%nat ->
       Ransac.trial svd_eight draw_first_four eight_src eight_dst (1 # 2) (1 # 2) j =
         Ok (Some (h', d')) ->
       num_ltb d' d = false) /\
    (forall j h' d', (j < i)%nat ->
       Ransac.trial svd_eight draw_first_four eight_src eight_dst (1 # 2) (1 # 2) j =
         Ok (Some (h', d')) ->
       num_ltb d d' = true).
Proof.
  apply (RansacMore.X9_returned_homography_is_first_best svd_eight ransac_k_half
           draw_first_four eight_src eight_dst (1 # 2) (1 # 2) shift_17).
  vm_compute. reflexivity.
Defined.

Lemma X11_witness :
  Geometry.find_panorama_shape left_image right_image identity =
  Ok (2%Z, 2%Z,
      {| Geometry.pad_up := 0; Geometry.pad_down := 0;
         Geometry.pad_right := 0; Geometry.pad_left := 0 |}).
Proof.
  apply (GeometryMore.X11_no_padding_when_inside left_image right_image identity).
  intros c Hc. simpl in Hc.
  destruct Hc as [<-|[<-|[<-|[<-|[]]]]];
    (split; [intros E; vm_compute in E; discriminate|]);
    split; split; vm_compute; discriminate.
Defined.

Lemma four_pixels_well_shaped : well_shaped four_pixels.
Proof. split; [reflexivity|]. repeat constructor. Qed.

Lemma left_image_well_shaped : well_shaped left_image.
Proof. split; [reflexivity|]. repeat constructor. Qed.

Lemma X13_witness :
  shape {| shape := (1, 2, 3)%nat; cells := [[[3; 3; 3]; [4; 4; 4]]]%Z |} = (1, 2, 3)%nat /\
  well_shaped {| shape := (1, 2, 3)%nat; cells := [[[3; 3; 3]; [4; 4; 4]]]%Z |} /\
  forall y x c, (y < 1)%nat -> (x < 2)%nat -> (c < 3)%nat ->
    cell_at [[[3; 3; 3]; [4; 4; 4]]]%Z y x c =
    match Derived.last_writer (Warp.slow_target Warp.exact_point fold_diagonal (1, 2, 3)%nat)
            (Derived.row_major 2 2) (y, x) with
    | Some p => cell_at (cells four_pixels) (fst p) (snd p) c
    | None => Some 0%Z
    end.
Proof.
  apply (WarpFacts.X13_slow_warp_is_last_writer Warp.exact_point fold_diagonal four_pixels
           (1, 2, 3)%nat
           {| shape := (1, 2, 3)%nat; cells := [[[3; 3; 3]; [4; 4; 4]]]%Z |}).
  vm_compute. reflexivity.
Defined.

Lemma X14_witness :
  exists img,
    Warp.compute_forward_homography_fast (Forward.target int64_min) fold_diagonal
      four_pixels (1, 2, 3)%nat = Ok img /\
    shape img = (1, 2, 3)%nat /\ well_shaped img /\
    forall y x c, (y < 1)%nat -> (x < 2)%nat -> (c < 3)%nat ->
      cell_at (cells img) y x c =
      match Derived.last_writer
              (Warp.fast_target (Forward.target int64_min) fold_diagonal (1, 2, 3)%nat)
              (Forward.meshgrid 2 2) (y, x) with
      | Some p => cell_at (cells four_pixels) (snd p) (fst p) c
      | None => Some 0%Z
      end.
Proof.
  apply (WarpFacts.X14_fast_warp_is_last_writer (Forward.target int64_min) fold_diagonal
           four_pixels (1, 2, 3)%nat).
  - exact four_pixels_well_shaped.
  - reflexivity.
Defined.


Lemma X16_witness :
  Forward.compute_forward_homography_slow ((1, 0, 0), (0, 1, 0), (0, 0, 1))%Q
    four_pixels (shape four_pixels) = Ok four_pixels.
Proof.
  apply (WarpFacts.X16_identity_warp_reproduces_the_source four_pixels).
  exact four_pixels_well_shaped.
Defined.

Lemma X17_witness :
  let '(a, b, c) := mat_vec double_shift (5 - inject_Z 2, 7 - inject_Z 3, 1)%Q in
  let '(a', b', c') := mat_vec scaled_diagonal (5, 7, 1)%Q in
  (exists n, ~ (n == 0)%Q /\ (a' == a / n)%Q /\ (b' == b / n)%Q /\ (c' == c / n)%Q) /\
  (~ (c == 0)%Q -> ~ (c' == 0)%Q /\ (a' / c' == a / c)%Q /\ (b' / c' == b / c)%Q).
Proof.
  apply (BackwardFacts.X17_translation_undoes_the_padding norm_three double_shift
           scaled_diagonal 2 3 5 7).
  vm_compute. reflexivity.
Defined.

Lemma X19_witness :
  exists img,
    Backward.compute_backward_mapping exact_query griddata_at_nodes identity left_image
      (2, 3, 3)%nat = Ok img /\
    shape img = (2, 3, 3)%nat /\ well_shaped img /\
    length (Backward.dst_cords exact_query identity (2, 3, 3)%nat) = (2 * 3)%nat /\
    forall i j, (i < 2)%nat -> (j < 3)%nat ->
      pixel_at (cells img) i j =
        [[Fin 10; Fin 20; Fin 30]; [Fin 40; Fin 50; Fin 60]; [ENaN; ENaN; ENaN];
         [Fin 70; Fin 80; Fin 90]; [Fin 100; Fin 110; Fin 120]; [ENaN; ENaN; ENaN]]
        !! (i * 3 + j)%nat /\
      Backward.dst_cords exact_query identity (2, 3, 3)%nat !! (i * 3 + j)%nat =
      Some (exact_query identity i j).
Proof.
  apply (BackwardFacts.X19_backward_mapping_pixels exact_query griddata_at_nodes identity
           left_image (2, 3, 3)%nat).
  - exact left_image_well_shaped.
  - vm_compute. reflexivity.
  - reflexivity.
  - repeat constructor.
Defined.

Lemma X20_witness :
  Backward.src_values left_image = Ok (concat (cells left_image)) /\
  length (Backward.src_cords left_image) = length (concat (cells left_image)) /\
  forall i j, (i < 2)%nat -> (j < 2)%nat ->
    Backward.src_cords left_image !! (i * 2 + j)%nat = Some (Z.of_nat j, Z.of_nat i) /\
    concat (cells left_image) !! (i * 2 + j)%nat = pixel_at (cells left_image) i j.
Proof.
  apply (BackwardFacts.X20_backward_mapping_samples left_image).
  exact left_image_well_shaped.
Defined.

Lemma X21_witness :
  Backward.compute_backward_mapping exact_query griddata_at_nodes identity left_image
    (2, 2, 1)%nat = Raise ValueError.
Proof.
  apply (BackwardFacts.X21_backward_mapping_channel_mismatch exact_query griddata_at_nodes
           identity left_image (2, 2, 1)%nat
           [[Fin 10; Fin 20; Fin 30]; [Fin 40; Fin 50; Fin 60];
            [Fin 70; Fin 80; Fin 90]; [Fin 100; Fin 110; Fin 120]] 3).
  - exact left_image_well_shaped.
  - vm_compute. reflexivity.
  - reflexivity.
  - repeat constructor.
  - unfold shape_chans. simpl. lia.
  - unfold shape_rows. simpl. lia.
  - unfold shape_cols. simpl. lia.
Defined.

Lemma X22_witness :
  (exists img,
     Forward.compute_forward_homography_slow to_infinity four_pixels (2, 2, 3)%nat = Ok img) <->
  (forall row col, (row < 2)%nat -> (col < 2)%nat ->
     ~ (snd (mat_vec to_infinity (Forward.pixel_point col row)) == 0)%Q).
Proof.
  apply (WarpMore.X22_slow_warp_returns_iff_finite to_infinity four_pixels (2, 2, 3)%nat).
  - exact four_pixels_well_shaped.
  - simpl. lia.
Defined.

Lemma X23_witness :
  exists img,
    Panorama.panorama svd_panorama ransac_k_half draw_first_four draw_first_four
      warp_all_nan 7 left_image right_image square_dst square_src (1 # 2) (1 # 2) = Ok img /\
    forall y x k,
      (y < 4)%nat -> (x < 3)%nat -> (k < 3)%nat ->
      (y < 2 \/ 2 + 2 <= y \/ x < 1 \/ 1 + 2 <= x)%nat ->
      cell_at (cells img) y x k =
      option_map (fun v => Panorama.to_uint8 7 (Panorama.clip v))
                 (cell_at (cells (zeros ENaN (4, 3, 3)%nat)) y x k) /\
      (cell_at (cells (zeros ENaN (4, 3, 3)%nat)) y x k = Some ENaN ->
       cell_at (cells img) y x k = Some (7 mod 256)%Z).
Proof.
  apply (PanoramaMore.X23_panorama_outside_is_the_clipped_warp
           svd_panorama ransac_k_half draw_first_four draw_first_four warp_all_nan 7
           left_image right_image square_dst square_src (1 # 2) (1 # 2)
           ((1, 0, - 2), (0, 1, - 3), (0, 0, 1))%Q ((1, 0, 2), (0, 1, 3), (0, 0, 1))%Q
           4 3
           {| Geometry.pad_up := 2; Geometry.pad_down := 0;
              Geometry.pad_right := 0; Geometry.pad_left := 1 |}
           (zeros ENaN (4, 3, 3)%nat) 2 2).
  - vm_compute. reflexivity.
  - vm_compute. reflexivity.
  - vm_compute. reflexivity.
  - reflexivity.
  - reflexivity.
  - split; [reflexivity|]. repeat constructor.
  - reflexivity.
Defined.

End MoreChecks.
